(** * fuzzle-bot: bulk catalog maintenance (src/index.mjs)

    A shallow embedding of the three maintenance runs of [src/index.mjs]
    ([updateAllDescriptions], [hideOutOfStock], [simpleReprice]) together
    with the remote client [shopify] they call, and the properties of the
    catalog traversal that the design document states about them.

    Conventions.
    - A JavaScript string is the list of its UTF-16 code units ([ustring]):
      [slice], [trim] and the regular expression [\s] all work on code units.
    - A JavaScript number that the code computes with (prices, the percent)
      is an IEEE-754 binary64 value, [spec_float] at precision 53.
      Identifiers are integers ([Z]); run counters are [nat].
    - An [async] function is a computation over the remote world that can
      finish, raise, or still be running when the fuel of its [while (true)]
      loop is used up. *)

From Stdlib Require Import List ZArith NArith Bool Lia String Ascii.
From Stdlib Require Import Floats.SpecFloat.
Import ListNotations.

Local Open Scope Z_scope.

(** ** JavaScript strings *)

Module JsString.

Definition ustring := list N.

(** An ASCII literal of the source, as code units. *)
Fixpoint u (s : string) : ustring :=
  match s with
  | EmptyString => []
  | String c s' => N_of_ascii c :: u s'
  end.

Fixpoint eqb (a b : ustring) : bool :=
  match a, b with
  | [], [] => true
  | x :: a', y :: b' => N.eqb x y && eqb a' b'
  | _, _ => false
  end.

(** WhiteSpace and LineTerminator of ECMAScript: what [trim] strips and
    what [\s] matches. *)
Definition is_ws (c : N) : bool :=
  (((9 <=? c) && (c <=? 13)) || (c =? 32) || (c =? 160) || (c =? 5760)
   || ((8192 <=? c) && (c <=? 8202)) || (c =? 8232) || (c =? 8233)
   || (c =? 8239) || (c =? 8287) || (c =? 12288) || (c =? 65279))%N.

Fixpoint trimStart (s : ustring) : ustring :=
  match s with
  | [] => []
  | c :: s' => if is_ws c then trimStart s' else s
  end.

Definition trimEnd (s : ustring) : ustring := rev (trimStart (rev s)).

(** [s.trim()] *)
Definition trim (s : ustring) : ustring := trimEnd (trimStart s).

(** [s.slice(0, n)] *)
Definition slice0 (n : nat) (s : ustring) : ustring := firstn n s.

Definition space : N := 32%N.

(** [s.replace(/\s+/g, " ")]: every maximal run of white space becomes
    one space.  [in_run] tells that the previous unit was white space. *)
Fixpoint collapse_from (in_run : bool) (s : ustring) : ustring :=
  match s with
  | [] => []
  | c :: s' =>
      if is_ws c
      then (if in_run then collapse_from true s'
            else space :: collapse_from true s')
      else c :: collapse_from false s'
  end.

Definition collapse_ws (s : ustring) : ustring := collapse_from false s.

(** A string that does not start with white space. *)
Definition starts_clean (s : ustring) : Prop :=
  match s with [] => True | c :: _ => is_ws c = false end.

End JsString.

Import JsString.

(** ** JavaScript numbers *)

Module JsNumber.

(** Number values are binary64: 53 bits of precision, exponents below 1024. *)
Definition prec : Z := 53.
Definition emax : Z := 1024.

Definition number := spec_float.

Definition NaN : number := S754_nan.
Definition mul : number -> number -> number := SFmul prec emax.
Definition add : number -> number -> number := SFadd prec emax.
Definition div : number -> number -> number := SFdiv prec emax.

(** The Number value of an integer of the source text. *)
Definition of_Z (z : Z) : number := binary_normalize prec emax z 0 false.

(** [isFinite(x)] *)
Definition isFinite (x : number) : bool :=
  match x with
  | S754_zero _ | S754_finite _ _ _ => true
  | S754_infinity _ | S754_nan => false
  end.

(** The Number value nearest to [m * 10^k] (ties to even), for a digit
    string of [nd] digits with value [m].  Values that certainly overflow
    or certainly round to zero are settled before any power is taken. *)
Definition of_decimal (sign : bool) (nd : Z) (m k : Z) : number :=
  if m =? 0 then S754_zero sign
  else if 310 <? k then S754_infinity sign
  else if nd + k <? -330 then S754_zero sign
  else if 0 <=? k
  then binary_normalize prec emax (cond_Zopp sign (m * 10 ^ k)) 0 sign
  else
    let '(q, e, l) := SFdiv_core_binary prec emax m 0 (10 ^ (- k)) 0 in
    binary_round_aux prec emax sign q e l.

(** *** [parseFloat] *)

Definition is_digit (c : N) : bool := ((48 <=? c) && (c <=? 57))%N.

(** The longest run of decimal digits at the start of [s]: its length, its
    value after the digits [acc] read so far, and the rest. *)
Fixpoint read_digits (s : ustring) (len acc : Z) : Z * Z * ustring :=
  match s with
  | c :: s' =>
      if is_digit c
      then read_digits s' (len + 1) (10 * acc + (Z.of_N c - 48))
      else (len, acc, s)
  | [] => (len, acc, s)
  end.

Fixpoint starts_with (p s : ustring) : option ustring :=
  match p, s with
  | [], _ => Some s
  | a :: p', b :: s' => if N.eqb a b then starts_with p' s' else None
  | _ :: _, [] => None
  end.

(** ExponentPart, when one is there: [e] or [E], an optional sign and
    at least one digit.  Otherwise the literal ends before it. *)
Definition read_exponent (s : ustring) : Z :=
  match s with
  | c :: s1 =>
      if ((c =? 101) || (c =? 69))%N then
        let '(neg, s2) :=
          match s1 with
          | 43%N :: r => (false, r)
          | 45%N :: r => (true, r)
          | _ => (false, s1)
          end in
        let '(len, v, _) := read_digits s2 0 0 in
        if len =? 0 then 0 else cond_Zopp neg v
      else 0
  | [] => 0
  end.

(** [parseFloat(s)]: leading white space is dropped, then the longest
    prefix that is a StrDecimalLiteral is converted; [NaN] without one. *)
Definition parseFloat (s : ustring) : number :=
  let s0 := trimStart s in
  let '(sign, s1) :=
    match s0 with
    | 43%N :: r => (false, r)
    | 45%N :: r => (true, r)
    | _ => (false, s0)
    end in
  match starts_with (u "Infinity") s1 with
  | Some _ => S754_infinity sign
  | None =>
      let '(ilen, ival, s2) := read_digits s1 0 0 in
      let '(len, val, s3) :=
        match s2 with
        | 46%N :: r => read_digits r ilen ival
        | _ => (ilen, ival, s2)
        end in
      if len =? 0 then NaN
      else of_decimal sign len val (read_exponent s3 - (len - ilen))
  end.

(** *** [toFixed] *)

(** Decimal digits of a non-negative integer, most significant first. *)
Fixpoint digits_fuel (fuel : nat) (n : Z) (acc : ustring) : ustring :=
  let d := Z.to_N (48 + n mod 10) in
  match fuel with
  | O => d :: acc
  | S f => if n <? 10 then d :: acc else digits_fuel f (n / 10) (d :: acc)
  end.

Definition digits_of (n : Z) : ustring :=
  digits_fuel (Z.to_nat (Z.log2 n)) n [].

(** The integer nearest to [100 * m * 2^e], the larger one of two. *)
Definition cents (m : positive) (e : Z) : Z :=
  if 0 <=? e then 100 * Z.pos m * 2 ^ e
  else (200 * Z.pos m + 2 ^ (- e)) / 2 ^ (1 - e).

(** The digits of [n], at least three of them, with a point before the
    last two. *)
Definition fixed2 (n : Z) : ustring :=
  let ds := digits_of n in
  let ds := repeat 48%N (3 - List.length ds)%nat ++ ds in
  let k := (List.length ds - 2)%nat in
  firstn k ds ++ 46%N :: skipn k ds.

(** Number::toString for an integer value [x >= 10^21] (exponent form):
    the shortest digit string that reads back as [x]. *)
Section Large.
Variable x : Z.
Let n : Z := Z.of_nat (List.length (digits_of x)).

Definition reads_back (c : Z) : bool :=
  SFeqb (of_Z c) (of_Z x).

(** The [k]-digit candidate nearest to [x], when one reads back. *)
Definition candidate (k : Z) : option (Z * Z) :=
  let scale := 10 ^ (n - k) in
  let lo := x / scale in
  let hi := lo + 1 in
  let ok_lo := reads_back (lo * scale) in
  let ok_hi := reads_back (hi * scale) in
  let pick (s : Z) := if s =? 10 ^ k then Some (10 ^ (k - 1), n + 1) else Some (s, n) in
  match ok_lo, ok_hi with
  | false, false => None
  | true, false => pick lo
  | false, true => pick hi
  | true, true =>
      match (x - lo * scale ?= hi * scale - x) with
      | Lt => pick lo
      | Gt => pick hi
      | Eq => if Z.even lo then pick lo else pick hi
      end
  end.

Fixpoint shortest (tries : nat) (k : Z) : Z * Z :=
  match tries with
  | O => (x, n)
  | S t =>
      match candidate k with
      | Some r => r
      | None => shortest t (k + 1)
      end
  end.

Definition exponent_form : ustring :=
  let '(s, n') := shortest 17 1 in
  let ds := digits_of s in
  let mant :=
    match ds with
    | d :: _ :: _ => d :: 46%N :: tl ds
    | _ => ds
    end in
  mant ++ u "e+" ++ digits_of (n' - 1).
End Large.

(** [x.toFixed(2)] *)
Definition toFixed2 (x : number) : ustring :=
  match x with
  | S754_nan => u "NaN"
  | S754_infinity false => u "Infinity"
  | S754_infinity true => u "-Infinity"
  | S754_zero _ => u "0.00"
  | S754_finite s m e =>
      (if s then u "-" else []) ++
      (if (0 <=? e) && (10 ^ 21 <=? Z.pos m * 2 ^ e)
       then exponent_form (Z.pos m * 2 ^ e)
       else fixed2 (cents m e))
  end.

End JsNumber.

Import JsNumber.

(** ** The catalog: products and variants as the remote store serves them *)

(** [inventory_management] of a variant: [null]/absent, the name of the
    service that tracks the stock, or a plain flag. *)
Inductive management :=
| Unmanaged
| ManagedBy (service : ustring)
| Flag (tracked : bool).

Record variant := {
  v_id : Z;
  price : ustring;
  inventory_quantity : option Z;
  inventory_management : management
}.

Record product := {
  p_id : Z;
  title : ustring;
  vendor : option ustring;
  body_html : option ustring;
  variants : option (list variant);
  status : ustring
}.

(** Truthiness of the values the code tests with [||] and [&&]. *)
Definition truthy_string (s : option ustring) : bool :=
  match s with
  | Some (_ :: _) => true
  | _ => false
  end.

Definition truthy_management (m : management) : bool :=
  match m with
  | Unmanaged => false
  | ManagedBy s => truthy_string (Some s)
  | Flag b => b
  end.

(** [s || d] on a string-valued field. *)
Definition or_string (s : option ustring) (d : ustring) : ustring :=
  match s with
  | Some ((_ :: _) as v) => v
  | _ => d
  end.

(** [l || []] on an array-valued field. *)
Definition or_empty {A : Type} (l : option (list A)) : list A :=
  match l with
  | Some v => v
  | None => []
  end.

Definition set_body_html (h : ustring) (p : product) : product :=
  {| p_id := p_id p; title := title p; vendor := vendor p;
     body_html := Some h; variants := variants p; status := status p |}.

Definition set_status (s : ustring) (p : product) : product :=
  {| p_id := p_id p; title := title p; vendor := vendor p;
     body_html := body_html p; variants := variants p; status := s |}.

Definition set_price (pr : ustring) (v : variant) : variant :=
  {| v_id := v_id v; price := pr;
     inventory_quantity := inventory_quantity v;
     inventory_management := inventory_management v |}.

Definition set_quantity (q : option Z) (v : variant) : variant :=
  {| v_id := v_id v; price := price v;
     inventory_quantity := q;
     inventory_management := inventory_management v |}.

Definition set_variants (vs : option (list variant)) (p : product) : product :=
  {| p_id := p_id p; title := title p; vendor := vendor p;
     body_html := body_html p; variants := vs; status := status p |}.

(** ** The remote client *)

(** What [shopify(path, init)] is called with: the page read and the
    three writes of the source. *)
Inductive patch :=
| BodyHtml (html : ustring)
| Status (s : ustring).

Inductive request :=
| GetProducts (limit : nat) (since_id : Z) (fields : option ustring)
| PutProduct (id : Z) (body : patch)
| PutVariant (id : Z) (new_price : ustring).

Definition is_write (r : request) : bool :=
  match r with
  | GetProducts _ _ _ => false
  | _ => true
  end.

(** [init.method || "GET"] *)
Definition method_of (r : request) : ustring :=
  if is_write r then u "PUT" else u "GET".

(** The parsed response body; [products] is there on a page read. *)
Record json := { products : option (list product) }.

(** How a call can go wrong: a response that is not [ok], or [fetch]
    itself rejecting. *)
Inductive fault :=
| NonOk (http_status : Z) (text : ustring)
| Transport (message : ustring).

(** The error values a run can raise. *)
Inductive error :=
| ShopifyError (http_status : Z) (method : ustring) (path : request) (text : ustring)
| FetchError (message : ustring).

Definition error_of (r : request) (f : fault) : error :=
  match f with
  | NonOk st txt => ShopifyError st (method_of r) r txt
  | Transport msg => FetchError msg
  end.

(** What can be observed of a run: the calls it issued with what came
    back, and (ghost) the products its loop body was entered for. *)
Inductive event :=
| Called (r : request) (res : fault + json)
| Visited (id : Z).

Record world := {
  catalog : list product;
  events : list event
}.

(** *** The store behind the API

    The remote store is the catalog, in the order it is served.  A page
    read leaves it as it is; a write that goes through replaces the field
    it names in the product (or variant) with that identifier; a call that
    fails changes nothing.  The [fields] of a page read only restrict what
    is sent, and the code reads none of the fields it leaves out, so a page
    carries the whole products. *)

(** A page: the products above the cursor, in catalog order, at most
    [limit] of them and at most what the server is willing to send. *)
Definition page (cap limit : nat) (since : Z) (cat : list product) : list product :=
  firstn (Nat.min limit cap) (filter (fun p => since <? p_id p) cat).

Definition patch_product (b : patch) (p : product) : product :=
  match b with
  | BodyHtml h => set_body_html h p
  | Status s => set_status s p
  end.

Definition reprice_variant (i : Z) (pr : ustring) (v : variant) : variant :=
  if v_id v =? i then set_price pr v else v.

(** The catalog after a call that went through. *)
Definition store (r : request) (cat : list product) : list product :=
  match r with
  | GetProducts _ _ _ => cat
  | PutProduct i b =>
      map (fun p => if p_id p =? i then patch_product b p else p) cat
  | PutVariant i pr =>
      map (fun p => set_variants (option_map (map (reprice_variant i pr)) (variants p)) p) cat
  end.

Definition serve (cap : nat) (r : request) (cat : list product) : json :=
  match r with
  | GetProducts limit since _ => {| products := Some (page cap limit since cat) |}
  | _ => {| products := None |}
  end.

(** *** Computations over the world *)

Inductive outcome (A : Type) :=
| Done (a : A)
| Raised (e : error)
| Running.

Arguments Done {A} a.
Arguments Raised {A} e.
Arguments Running {A}.

Definition task (A : Type) : Type := world -> world * outcome A.

Definition ret {A : Type} (a : A) : task A := fun w => (w, Done a).

Definition bind {A B : Type} (m : task A) (k : A -> task B) : task B :=
  fun w =>
    match m w with
    | (w', Done a) => k a w'
    | (w', Raised e) => (w', Raised e)
    | (w', Running) => (w', Running)
    end.

Declare Scope task_scope.
Delimit Scope task_scope with task.
Notation "x <- m ;; k" := (bind m (fun x => k))
  (at level 61, m at next level, right associativity) : task_scope.
Notation "m ;; k" := (bind m (fun _ => k))
  (at level 61, right associativity) : task_scope.
Local Open Scope task_scope.

Definition emit (e : event) : task unit :=
  fun w => ({| catalog := catalog w; events := events w ++ [e] |}, Done tt).

(** Ghost: the loop body is entered for product [i]. *)
Definition visit (i : Z) : task unit := emit (Visited i).

(** [for (const x of items) body], with the variables the body assigns
    carried as [st]. *)
Fixpoint for_of {A V : Type} (items : list A) (body : A -> V -> task V) (st : V)
  : task V :=
  match items with
  | [] => ret st
  | x :: rest => st' <- body x st ;; for_of rest body st'
  end.

Inductive flow (V : Type) :=
| Next (st : V)
| Break (st : V).

Arguments Next {V} st.
Arguments Break {V} st.

(** [while (true) body]: ends at [break]; with no fuel left it is still
    running. *)
Fixpoint while_true {V : Type} (fuel : nat) (body : V -> task (flow V)) (st : V)
  : task V :=
  match fuel with
  | O => fun w => (w, Running)
  | S fuel' =>
      r <- body st ;;
      match r with
      | Next st' => while_true fuel' body st'
      | Break st' => ret st'
      end
  end.

Section Remote.

(** The remote the runs talk to: the server's own bound on the size of a
    page, and which calls fail (a response that is not ok, or no response),
    decided from what happened so far and the call at hand. *)
Variable cap : nat.
Variable faults : list event -> request -> option fault.

(** [async function shopify(path, init)] *)
Definition shopify (r : request) : task json :=
  fun w =>
    match faults (events w) r with
    | Some f =>
        ({| catalog := catalog w;
            events := events w ++ [Called r (inl f)] |},
         Raised (error_of r f))
    | None =>
        let data := serve cap r (catalog w) in
        ({| catalog := store r (catalog w);
            events := events w ++ [Called r (inr data)] |},
         Done data)
    end.

(** [function buildDescription(p)] *)
Definition em_dash : N := 8212%N.
Definition nl : ustring := [10%N].

Definition description_template (p : product) : ustring :=
  nl ++
  u "<p><strong>" ++ title p ++ u "</strong> " ++ [em_dash] ++
    u " designed for happy, healthy pets.</p>" ++ nl ++
  u "<h3>Key Benefits</h3>" ++ nl ++
  u "<ul>" ++ nl ++
  u "<li>Supports healthy posture</li>" ++ nl ++
  u "<li>Reduces mess & choking</li>" ++ nl ++
  u "<li>Durable for daily use</li>" ++ nl ++
  u "<li>Easy to clean</li>" ++ nl ++
  u "</ul>" ++ nl ++
  u "<h3>Product Details</h3>" ++ nl ++
  u "<ul>" ++ nl ++
  u "<li>Brand: " ++ or_string (vendor p) (u "FuzzleToys") ++ u "</li>" ++ nl ++
  u "<li>Material: Pet-safe materials</li>" ++ nl ++
  u "</ul>" ++ nl ++
  u "<h3>Shipping & Returns</h3>" ++ nl ++
  u "<p>Fast US shipping. 30-day hassle-free returns.</p>" ++ nl.

Definition buildDescription (p : product) : ustring :=
  trim (description_template p).

(** *** [updateAllDescriptions] *)

Record preview_item := { item_id : Z; item_title : ustring }.

Inductive run_result :=
| Updated (updated : nat)
| Preview (preview_count : nat) (preview : list preview_item)
| Hidden (hidden : nat)
| Changed (changed : nat).

(** The test of line 55: the two sides of [===]. *)
Definition cur_key (p : product) : ustring :=
  let curHtml := trim (or_string (body_html p) []) in
  collapse_ws (slice0 160 curHtml).

Definition next_key (p : product) : ustring :=
  let nextHtml := buildDescription p in
  collapse_ws (slice0 160 nextHtml).

Definition up_to_date (p : product) : bool := eqb (cur_key p) (next_key p).

Record description_vars := {
  d_sinceId : Z;
  updated : nat;
  preview : list preview_item
}.

(** The body of [for (const p of products)]. *)
Definition description_body (apply : bool) (p : product) (st : description_vars)
  : task description_vars :=
  visit (p_id p) ;;
  let sinceId := p_id p in
  let nextHtml := buildDescription p in
  if up_to_date p
  then ret {| d_sinceId := sinceId; updated := updated st; preview := preview st |}
  else if apply then
    shopify (PutProduct (p_id p) (BodyHtml nextHtml)) ;;
    ret {| d_sinceId := sinceId; updated := S (updated st); preview := preview st |}
  else
    ret {| d_sinceId := sinceId; updated := updated st;
           preview := preview st ++ [{| item_id := p_id p; item_title := title p |}] |}.

Definition description_page (apply : bool) (st : description_vars)
  : task (flow description_vars) :=
  data <- shopify (GetProducts 250 (d_sinceId st) None) ;;
  let products := or_empty (products data) in
  match products with
  | [] => ret (Break st)
  | _ :: _ => st' <- for_of products (description_body apply) st ;; ret (Next st')
  end.

Definition updateAllDescriptions (fuel : nat) (apply : bool) : task run_result :=
  st <- while_true fuel (description_page apply)
          {| d_sinceId := 0; updated := 0; preview := [] |} ;;
  ret (if apply then Updated (updated st)
       else Preview (List.length (preview st)) (preview st)).

(** *** [hideOutOfStock] *)

Definition draft : ustring := u "draft".

(** [v.inventory_quantity ?? 0] *)
Definition quantity_or_zero (v : variant) : Z :=
  match inventory_quantity v with
  | Some q => q
  | None => 0
  end.

(** [(v.inventory_quantity ?? 0) <= 0 && v.inventory_management] *)
Definition zero_and_managed (v : variant) : bool :=
  (quantity_or_zero v <=? 0) && truthy_management (inventory_management v).

Definition allZero (p : product) : bool :=
  forallb zero_and_managed (or_empty (variants p)).

Definition must_hide (p : product) : bool :=
  allZero p && negb (eqb (status p) draft).

Record hide_vars := { h_sinceId : Z; hidden : nat }.

Definition hide_body (p : product) (st : hide_vars) : task hide_vars :=
  visit (p_id p) ;;
  let sinceId := p_id p in
  if must_hide p then
    shopify (PutProduct (p_id p) (Status draft)) ;;
    ret {| h_sinceId := sinceId; hidden := S (hidden st) |}
  else ret {| h_sinceId := sinceId; hidden := hidden st |}.

Definition hide_fields : option ustring := Some (u "id,title,variants,status").

Definition hide_page (st : hide_vars) : task (flow hide_vars) :=
  data <- shopify (GetProducts 250 (h_sinceId st) hide_fields) ;;
  let products := or_empty (products data) in
  match products with
  | [] => ret (Break st)
  | _ :: _ => st' <- for_of products hide_body st ;; ret (Next st')
  end.

Definition hideOutOfStock (fuel : nat) : task run_result :=
  st <- while_true fuel hide_page {| h_sinceId := 0; hidden := 0 |} ;;
  ret (Hidden (hidden st)).

(** *** [simpleReprice] *)

Definition factor_of (percent : number) : number :=
  add (of_Z 1) (div percent (of_Z 100)).

Record reprice_vars := { r_sinceId : Z; changed : nat }.

(** The body of [for (const v of (p.variants || []))]. *)
Definition reprice_variant_body (factor : number) (v : variant) (changed : nat)
  : task nat :=
  let parsed := parseFloat (price v) in
  if negb (isFinite parsed) then ret changed
  else
    let newPrice := toFixed2 (mul parsed factor) in
    if negb (eqb newPrice (price v)) then
      shopify (PutVariant (v_id v) newPrice) ;;
      ret (S changed)
    else ret changed.

Definition reprice_body (factor : number) (p : product) (st : reprice_vars)
  : task reprice_vars :=
  visit (p_id p) ;;
  let sinceId := p_id p in
  c <- for_of (or_empty (variants p)) (reprice_variant_body factor) (changed st) ;;
  ret {| r_sinceId := sinceId; changed := c |}.

Definition reprice_fields : option ustring := Some (u "id,title,variants").

Definition reprice_page (factor : number) (st : reprice_vars)
  : task (flow reprice_vars) :=
  data <- shopify (GetProducts 100 (r_sinceId st) reprice_fields) ;;
  let products := or_empty (products data) in
  match products with
  | [] => ret (Break st)
  | _ :: _ => st' <- for_of products (reprice_body factor) st ;; ret (Next st')
  end.

Definition simpleReprice (fuel : nat) (percent : number) : task run_result :=
  let factor := factor_of percent in
  st <- while_true fuel (reprice_page factor) {| r_sinceId := 0; changed := 0 |} ;;
  ret (Changed (changed st)).

End Remote.

(** ** Observing a run *)

(** The events a computation added when it took [w] to [w']. *)
Definition issued (w w' : world) : list event :=
  skipn (List.length (events w)) (events w').

(** The write calls among the events, in the order they were issued,
    failed ones included. *)
Definition writes (evs : list event) : list request :=
  flat_map (fun e =>
    match e with
    | Called r _ => if is_write r then [r] else []
    | Visited _ => []
    end) evs.

(** The page requests among the events. *)
Definition page_requests (evs : list event) : list request :=
  flat_map (fun e =>
    match e with
    | Called r _ => if is_write r then [] else [r]
    | Visited _ => []
    end) evs.

(** The pages that came back. *)
Definition pages_served (evs : list event) : list (list product) :=
  flat_map (fun e =>
    match e with
    | Called (GetProducts _ _ _) (inr data) => [or_empty (products data)]
    | _ => []
    end) evs.

(** The products the loop body was entered for. *)
Definition visits (evs : list event) : list Z :=
  flat_map (fun e =>
    match e with
    | Visited i => [i]
    | Called _ _ => []
    end) evs.

Definition is_failure (e : event) : bool :=
  match e with
  | Called _ (inl _) => true
  | _ => false
  end.

(** No call among the events failed. *)
Definition clean (evs : list event) : Prop :=
  forallb (fun e => negb (is_failure e)) evs = true.

(** The catalog after the calls among the events that went through. *)
Definition replay (evs : list event) (cat : list product) : list product :=
  fold_left (fun c e =>
    match e with
    | Called r (inr _) => store r c
    | _ => c
    end) evs cat.

(** A remote where no call fails. *)
Definition no_faults : list event -> request -> option fault := fun _ _ => None.

(** Pages needed for [n] products served [p] at a time. *)
Definition pages_for (n p : nat) : nat := (n + p - 1) / p.

(** Identifiers strictly ascending, all above the cursor [c]. *)
Fixpoint ascending_from (c : Z) (cat : list product) : Prop :=
  match cat with
  | [] => True
  | p :: rest => c < p_id p /\ ascending_from (p_id p) rest
  end.

(** ** The design document's wording of the two decisions

    These two follow the words of the document, not the code; they are
    what the code's own tests ([up_to_date], [must_hide]) are compared
    with. *)

(** "trimming and collapsing internal whitespace runs to single spaces" *)
Definition spec_normalize (s : ustring) : ustring := collapse_ws (trim s).

(** "then compares a fixed-length prefix (160 characters) of each
    normalized form" *)
Definition spec_same_description (p : product) : Prop :=
  slice0 160 (spec_normalize (or_string (body_html p) []))
  = slice0 160 (spec_normalize (buildDescription p)).

(** "every variant whose inventory is management-tracked ... reports
    quantity <= 0, AND the product's current status is not already the
    hidden state" *)
Definition spec_must_hide (p : product) : Prop :=
  (forall v, In v (or_empty (variants p)) ->
     truthy_management (inventory_management v) = true ->
     quantity_or_zero v <= 0)
  /\ status p <> draft.

(** ** Sample data *)

Definition fresh (cat : list product) : world :=
  {| catalog := cat; events := [] |}.

Definition sample_product (i : Z) (t : string) (body : option ustring)
  (vs : list variant) (st : string) : product :=
  {| p_id := i; title := u t; vendor := None; body_html := body;
     variants := Some vs; status := u st |}.

Definition sample_variant (i : Z) (pr : string) (q : option Z) (tracked : bool)
  : variant :=
  {| v_id := i; price := u pr; inventory_quantity := q;
     inventory_management := Flag tracked |}.

(** A title with two spaces in a row, stored with the description the
    code would write, white space collapsed. *)
Definition spaced_product : product :=
  let p := sample_product 7 "Slow  Feeder" None [] "active" in
  set_body_html (collapse_ws (buildDescription p)) p.

(** One variant, out of stock and not tracked. *)
Definition untracked_product : product :=
  sample_product 8 "Rope Toy" None [sample_variant 81 "4.00" (Some 0) false] "active".

Definition no_description_vars : description_vars :=
  {| d_sinceId := 0; updated := 0; preview := [] |}.

Definition no_hide_vars : hide_vars := {| h_sinceId := 0; hidden := 0 |}.

(** A variant priced "10": a finite number, not in two-decimal form. *)
Definition round_price_catalog : list product :=
  [sample_product 3 "Bowl" None [sample_variant 31 "10" (Some 4) true] "active"].

(** A variant whose price is not a number. *)
Definition unpriced_variant : variant := sample_variant 32 "n/a" (Some 4) true.

(** ** The three runs behind one name *)

Inductive operation :=
| DescribeAll (apply : bool)
| HideOutOfStock
| Reprice (percent : number).

Definition run (cap : nat) (faults : list event -> request -> option fault)
  (op : operation) (fuel : nat) : task run_result :=
  match op with
  | DescribeAll apply => updateAllDescriptions cap faults fuel apply
  | HideOutOfStock => hideOutOfStock cap faults fuel
  | Reprice percent => simpleReprice cap faults fuel percent
  end.

(** How the events of a computation may end: either no call failed and
    the catalog is what the calls made of it, or the last event is the one
    call that failed, the error raised is the error of that call, and the
    catalog is what the calls before it made of it. *)
Definition abort_rule {A : Type} (cat : list product) (evs : list event)
  (cat' : list product) (o : outcome A) : Prop :=
  match o with
  | Raised e =>
      exists pre r f,
        evs = pre ++ [Called r (inl f)] /\ clean pre
        /\ e = error_of r f /\ cat' = replay pre cat
  | _ => clean evs /\ cat' = replay evs cat
  end.

Definition disciplined {A : Type} (m : task A) : Prop :=
  forall w,
    exists evs,
      events (fst (m w)) = events w ++ evs
      /\ abort_rule (catalog w) evs (catalog (fst (m w))) (snd (m w)).

(** The fifth write fails. *)
Definition fifth_write_fails : list event -> request -> option fault :=
  fun evs r =>
    if is_write r && Nat.eqb (List.length (writes evs)) 4
    then Some (Transport (u "socket hang up"))
    else None.

(** Ten products without a description. *)
Definition ten_products : list product :=
  map (fun i => sample_product i "Chew Toy" None [] "active")
      [1; 2; 3; 4; 5; 6; 7; 8; 9; 10].

(** ** The shape the three page steps share *)

(** One turn of [while (true)]: read the page above the cursor, stop on an
    empty page, otherwise run the loop body on every product of it. *)
Definition paged {V : Type} (cap : nat) (faults : list event -> request -> option fault)
  (limit : nat) (fields : option ustring) (cursor : V -> Z)
  (body : product -> V -> task V) (st : V) : task (flow V) :=
  (data <- shopify cap faults (GetProducts limit (cursor st) fields) ;;
   let products := or_empty (products data) in
   match products with
   | [] => ret (Break st)
   | _ :: _ => st' <- for_of products body st ;; ret (Next st')
   end)%task.

(** What a loop body that decides on one write per product leaves behind
    when the write goes through: the events, the stored product, the
    world. *)
Definition write_events (i : Z) (b : option patch) : list event :=
  match b with
  | Some b => [Called (PutProduct i b) (inr {| products := None |})]
  | None => []
  end.

Definition body_events (write_for : product -> option patch) (p : product)
  : list event :=
  Visited (p_id p) :: write_events (p_id p) (write_for p).

Definition patched (write_for : product -> option patch) (p : product) : product :=
  match write_for p with
  | Some b => patch_product b p
  | None => p
  end.

Definition after_body (write_for : product -> option patch) (p : product) (w : world)
  : world :=
  {| catalog :=
       match write_for p with
       | Some b => store (PutProduct (p_id p) b) (catalog w)
       | None => catalog w
       end;
     events := events w ++ body_events write_for p |}.

Definition write_requests (write_for : product -> option patch) (p : product)
  : list request :=
  match write_for p with
  | Some b => [PutProduct (p_id p) b]
  | None => []
  end.

(** The write each run decides on for a product. *)
Definition description_write (apply : bool) (p : product) : option patch :=
  if up_to_date p then None
  else if apply then Some (BodyHtml (buildDescription p)) else None.

Definition hide_write (p : product) : option patch :=
  if must_hide p then Some (Status draft) else None.

(** The loop variables after the body has run for [p]. *)
Definition description_step (apply : bool) (p : product) (st : description_vars)
  : description_vars :=
  if up_to_date p
  then {| d_sinceId := p_id p; updated := updated st; preview := preview st |}
  else if apply
  then {| d_sinceId := p_id p; updated := S (updated st); preview := preview st |}
  else {| d_sinceId := p_id p; updated := updated st;
          preview := preview st ++ [{| item_id := p_id p; item_title := title p |}] |}.

Definition hide_step (p : product) (st : hide_vars) : hide_vars :=
  if must_hide p
  then {| h_sinceId := p_id p; hidden := S (hidden st) |}
  else {| h_sinceId := p_id p; hidden := hidden st |}.

(** The products a description run has to change. *)
Definition stale (cat : list product) : list product :=
  filter (fun p => negb (up_to_date p)) cat.

Definition preview_of (p : product) : preview_item :=
  {| item_id := p_id p; item_title := title p |}.

(** Three products; the second already carries the description the code
    would write. *)
Definition mixed_catalog : list product :=
  [sample_product 1 "Bowl" None [] "active";
   set_body_html
     (buildDescription (sample_product 2 "Leash" None [] "active"))
     (sample_product 2 "Leash" None [] "active");
   sample_product 5 "Toy" (Some (u "<p>old text</p>")) [] "draft"].

(** ** Runs that write nothing *)

(** A price string that is finite and already the two-decimal rendering
    of the number it parses to. *)
Definition settled_price (s : ustring) : Prop :=
  isFinite (parseFloat s) = true /\ toFixed2 (parseFloat s) = s.

Definition settled_catalog (cat : list product) : Prop :=
  forall p v, In p cat -> In v (or_empty (variants p)) -> settled_price (price v).

(** On a catalog that is [ok], the computation leaves the catalog alone,
    issues no write, and what it returns satisfies [R]. *)
Definition silent {A : Type} (ok : list product -> Prop) (R : A -> Prop)
  (m : task A) : Prop :=
  forall w, ok (catalog w) ->
    catalog (fst (m w)) = catalog w
    /\ (exists evs, events (fst (m w)) = events w ++ evs /\ writes evs = [])
    /\ (forall a, snd (m w) = Done a -> R a).

(** What one pass of the loop body leaves when the product is skipped. *)
Definition skipped (p : product) (st : description_vars) (w : world)
  : world * outcome description_vars :=
  ({| catalog := catalog w; events := events w ++ [Visited (p_id p)] |},
   Done {| d_sinceId := p_id p; updated := updated st; preview := preview st |}).


(** ** Pages and the end of the loop *)

(** The computation adds events, none of them a page that came back. *)
Definition pageless {A : Type} (m : task A) : Prop :=
  forall w,
    exists evs, events (fst (m w)) = events w ++ evs /\ pages_served evs = [].

(** How the pages of a paged loop may look: when it has ended, one empty
    page, the last; otherwise no empty page. *)
Definition ends_on_empty_page {A : Type} (evs : list event) (o : outcome A) : Prop :=
  match o with
  | Done _ =>
      exists pgs, pages_served evs = pgs ++ [[]] /\ Forall (fun pg => pg <> []) pgs
  | _ => Forall (fun pg => pg <> []) (pages_served evs)
  end.

Definition stops_on_empty_page {A : Type} (m : task A) : Prop :=
  forall w,
    exists evs,
      events (fst (m w)) = events w ++ evs /\ ends_on_empty_page evs (snd (m w)).



(** ** What a run may write, and what it reports *)

(** The write calls in the text of each run: [updateAllDescriptions] puts
    a description, and only when applying; [hideOutOfStock] puts the
    status "draft"; [simpleReprice] puts variant prices. *)
Definition may_write (op : operation) (r : request) : Prop :=
  match op, r with
  | DescribeAll true, PutProduct _ (BodyHtml _) => True
  | HideOutOfStock, PutProduct _ (Status s) => s = draft
  | Reprice _, PutVariant _ _ => True
  | _, _ => False
  end.

Definition unpriced (v : variant) : variant := set_price [] v.

(** [p'] is [p] but for the field the run owns. *)
Definition kept (op : operation) (p p' : product) : Prop :=
  p_id p' = p_id p /\ title p' = title p /\ vendor p' = vendor p
  /\ match op with
     | DescribeAll _ =>
         variants p' = variants p /\ status p' = status p
     | HideOutOfStock =>
         body_html p' = body_html p /\ variants p' = variants p
         /\ (status p' = status p \/ status p' = draft)
     | Reprice _ =>
         body_html p' = body_html p /\ status p' = status p
         /\ option_map (map unpriced) (variants p')
            = option_map (map unpriced) (variants p)
     end.

(** The counter in the object a run returns; a preview has none. *)
Definition written_count (res : run_result) : option nat :=
  match res with
  | Updated n => Some n
  | Hidden n => Some n
  | Changed n => Some n
  | Preview _ _ => None
  end.

Definition count_of (res : run_result) : nat :=
  match written_count res with
  | Some n => n
  | None => 0%nat
  end.

(** The computation issues only writes that are [ok], the catalog it
    leaves is what its calls made of the one it found, and when it
    returns [a], [count a] is [base] plus the number of writes issued. *)
Definition accounted {A : Type} (ok : request -> Prop) (count : A -> nat)
  (base : nat) (m : task A) : Prop :=
  forall w,
    exists evs,
      events (fst (m w)) = events w ++ evs
      /\ Forall ok (writes evs)
      /\ catalog (fst (m w)) = replay evs (catalog w)
      /\ forall a, snd (m w) = Done a -> count a = (base + List.length (writes evs))%nat.

Definition flow_state {V : Type} (r : flow V) : V :=
  match r with
  | Next st => st
  | Break st => st
  end.



(** ** The control endpoints *)

(** *** [Number(s)] on a string *)

Definition radix_digit (base : Z) (c : N) : option Z :=
  let v :=
    if is_digit c then Some (Z.of_N c - 48)
    else if ((97 <=? c) && (c <=? 102))%N then Some (Z.of_N c - 87)
    else if ((65 <=? c) && (c <=? 70))%N then Some (Z.of_N c - 55)
    else None in
  match v with
  | Some d => if d <? base then Some d else None
  | None => None
  end.

(** The value of [s] when all of it is digits of the base. *)
Fixpoint read_radix (base : Z) (s : ustring) (acc : Z) : option Z :=
  match s with
  | [] => Some acc
  | c :: s' =>
      match radix_digit base c with
      | Some d => read_radix base s' (base * acc + d)
      | None => None
      end
  end.

(** NonDecimalIntegerLiteral: [0x], [0o] or [0b] in either case, then
    at least one digit of the base and nothing else. *)
Definition radix_literal (s : ustring) : option Z :=
  match s with
  | 48%N :: c :: ((_ :: _) as ds) =>
      if ((c =? 120) || (c =? 88))%N then read_radix 16 ds 0
      else if ((c =? 111) || (c =? 79))%N then read_radix 8 ds 0
      else if ((c =? 98) || (c =? 66))%N then read_radix 2 ds 0
      else None
  | _ => None
  end.

(** What is left after the digits is nothing, or an ExponentPart and
    nothing else. *)
Definition read_exponent_only (s : ustring) : option Z :=
  match s with
  | [] => Some 0
  | c :: s1 =>
      if ((c =? 101) || (c =? 69))%N then
        let '(neg, s2) :=
          match s1 with
          | 43%N :: r => (false, r)
          | 45%N :: r => (true, r)
          | _ => (false, s1)
          end in
        let '(len, v, rest) := read_digits s2 0 0 in
        if len =? 0 then None
        else match rest with
             | [] => Some (cond_Zopp neg v)
             | _ :: _ => None
             end
      else None
  end.

(** [Number(s)] for a string [s] (StringToNumber): white space at both
    ends is dropped; nothing left is [+0]; otherwise the whole of what is
    left has to be a numeric literal, or the result is [NaN]. *)
Definition toNumber (s : ustring) : number :=
  let s0 := trim s in
  match s0 with
  | [] => of_Z 0
  | _ :: _ =>
      match radix_literal s0 with
      | Some v => of_Z v
      | None =>
          let '(sign, s1) :=
            match s0 with
            | 43%N :: r => (false, r)
            | 45%N :: r => (true, r)
            | _ => (false, s0)
            end in
          match starts_with (u "Infinity") s1 with
          | Some [] => S754_infinity sign
          | Some (_ :: _) => NaN
          | None =>
              let '(ilen, ival, s2) := read_digits s1 0 0 in
              let '(len, val, s3) :=
                match s2 with
                | 46%N :: r => read_digits r ilen ival
                | _ => (ilen, ival, s2)
                end in
              if len =? 0 then NaN
              else match read_exponent_only s3 with
                   | Some e => of_decimal sign len val (e - (len - ilen))
                   | None => NaN
                   end
          end
      end
  end.

(** *** Requests and responses *)

(** A value of [req.query]: a string, or what a repeated or bracketed
    parameter is parsed to: an array of values, or an object. *)
#[warnings="-register-all"]
Inductive qvalue :=
| QString (s : ustring)
| QArray (items : list qvalue)
| QObject.

(** [items.join(",")] *)
Fixpoint join_comma (l : list ustring) : ustring :=
  match l with
  | [] => []
  | [x] => x
  | x :: rest => x ++ 44%N :: join_comma rest
  end.

(** [v.toString()] *)
Fixpoint q_toString (v : qvalue) : ustring :=
  match v with
  | QString s => s
  | QArray items => join_comma (map q_toString items)
  | QObject => u "[object Object]"
  end.

(** Truthiness of [req.query.name]: an absent parameter and the empty
    string are falsy, every other value is truthy. *)
Definition q_truthy (v : option qvalue) : bool :=
  match v with
  | None => false
  | Some (QString s) => truthy_string (Some s)
  | Some _ => true
  end.

(** What the handlers read of a request. *)
Record http_request := {
  query_key : option qvalue;
  header_key : option ustring;
  query_apply : option qvalue;
  query_percent : option qvalue
}.

Inductive body :=
| ErrorBody (error : ustring)
| ResultBody (res : run_result).

Record response := { code : Z; payload : body }.

(** [(req.query.key || req.headers["x-control-key"] || "").toString()] *)
Definition key_of (req : http_request) : ustring :=
  match query_key req with
  | Some v =>
      if q_truthy (Some v) then q_toString v
      else or_string (header_key req) []
  | None => or_string (header_key req) []
  end.

(** [function guard(req, res, next)]: the response it sends, or [None]
    when it calls [next()]. *)
Definition guard (SECRET_KEY : ustring) (req : http_request) : option response :=
  if negb (truthy_string (Some SECRET_KEY))
  then Some {| code := 500; payload := ErrorBody (u "Missing CONTROL_SECRET") |}
  else
    let k := key_of req in
    if negb (eqb k SECRET_KEY)
    then Some {| code := 401; payload := ErrorBody (u "Unauthorized") |}
    else None.

(** *** The message of an error *)

(** An integer in a template literal. *)
Definition Z_to_ustring (z : Z) : ustring :=
  if z <? 0 then 45%N :: digits_of (- z) else digits_of z.

(** The [path] argument of each call of [shopify]. *)
Definition path_of (r : request) : ustring :=
  match r with
  | GetProducts limit since fields =>
      u "/products.json?limit=" ++ Z_to_ustring (Z.of_nat limit)
      ++ u "&since_id=" ++ Z_to_ustring since
      ++ match fields with
         | Some f => u "&fields=" ++ f
         | None => []
         end
  | PutProduct i _ => u "/products/" ++ Z_to_ustring i ++ u ".json"
  | PutVariant i _ => u "/variants/" ++ Z_to_ustring i ++ u ".json"
  end.

(** [e.message] *)
Definition message_of (e : error) : ustring :=
  match e with
  | ShopifyError st m r txt =>
      u "Shopify " ++ Z_to_ustring st ++ u " " ++ m ++ u " " ++ path_of r
      ++ u ": " ++ txt
  | FetchError msg => msg
  end.

(** *** The three routes *)

(** [try { res.json(await m) } catch (e) { res.status(500).json({ error: e.message }) }] *)
Definition answer (m : task run_result) : task response :=
  fun w =>
    match m w with
    | (w', Done res) => (w', Done {| code := 200; payload := ResultBody res |})
    | (w', Raised e) => (w', Done {| code := 500; payload := ErrorBody (message_of e) |})
    | (w', Running) => (w', Running)
    end.

Inductive route :=
| UpdateDescriptions
| HideOos
| RepriceRoute.

(** [Number(req.query.percent || 0)] *)
Definition percent_of (req : http_request) : number :=
  match query_percent req with
  | Some v => if q_truthy (Some v) then toNumber (q_toString v) else of_Z 0
  | None => of_Z 0
  end.

(** What each route runs: [apply: !!req.query.apply] for the
    descriptions, [percent: Number(req.query.percent || 0)] for the
    prices. *)
Definition operation_of (rt : route) (req : http_request) : operation :=
  match rt with
  | UpdateDescriptions => DescribeAll (q_truthy (query_apply req))
  | HideOos => HideOutOfStock
  | RepriceRoute => Reprice (percent_of req)
  end.

(** [app.post(path, guard, handler)] *)
Definition post (SECRET_KEY : ustring) (cap : nat)
  (faults : list event -> request -> option fault) (fuel : nat)
  (rt : route) (req : http_request) : task response :=
  match guard SECRET_KEY req with
  | Some refusal => ret refusal
  | None => answer (run cap faults (operation_of rt req) fuel)
  end.

(** [const SECRET_KEY = process.env.CONTROL_SECRET || ""] *)
Definition secret_of (env : option ustring) : ustring := or_string env [].

(** A request that carries [k] as its [key] parameter and nothing else. *)
Definition keyed (k : string) : http_request :=
  {| query_key := Some (QString (u k)); header_key := None;
     query_apply := None; query_percent := None |}.



(** ** The paging protocol *)

(** What each run asks for in a page request. *)
Definition limit_of (op : operation) : nat :=
  match op with
  | Reprice _ => 100%nat
  | _ => 250%nat
  end.

Definition fields_of (op : operation) : option ustring :=
  match op with
  | DescribeAll _ => None
  | HideOutOfStock => hide_fields
  | Reprice _ => reprice_fields
  end.

(** Every page request among the events asks for [limit] products with
    [fields], after the product entered last before it ([c] when none
    was). *)
Definition resumes (limit : nat) (fields : option ustring) (c : Z)
  (evs : list event) : Prop :=
  forall pre l s f res post,
    evs = pre ++ Called (GetProducts l s f) res :: post ->
    l = limit /\ f = fields /\ s = last (visits pre) c.

Definition steady {A : Type} (limit : nat) (fields : option ustring)
  (cur : A -> Z) (c : Z) (m : task A) : Prop :=
  forall w,
    exists evs,
      events (fst (m w)) = events w ++ evs
      /\ resumes limit fields c evs
      /\ forall a, snd (m w) = Done a -> cur a = last (visits evs) c.

(** ** Repricing, variant by variant *)

(** The price the variant loop writes for [v], when it writes one:
    lines 98 to 101. *)
Definition new_price (factor : number) (v : variant) : option ustring :=
  let parsed := parseFloat (price v) in
  if negb (isFinite parsed) then None
  else
    let newPrice := toFixed2 (mul parsed factor) in
    if negb (eqb newPrice (price v)) then Some newPrice else None.

Definition repriced (factor : number) (v : variant) : variant :=
  match new_price factor v with
  | Some pr => set_price pr v
  | None => v
  end.

Definition price_writes (factor : number) (vs : list variant) : list request :=
  flat_map (fun v =>
    match new_price factor v with
    | Some pr => [PutVariant (v_id v) pr]
    | None => []
    end) vs.

Definition product_price_writes (factor : number) (p : product) : list request :=
  price_writes factor (or_empty (variants p)).

Definition reprice_product (factor : number) (p : product) : product :=
  match variants p with
  | Some vs => set_variants (Some (map (repriced factor) vs)) p
  | None => p
  end.

(** The loop variables after the body has run for [p], every call having
    gone through. *)
Definition reprice_step (factor : number) (p : product) (st : reprice_vars)
  : reprice_vars :=
  {| r_sinceId := p_id p;
     changed := changed st + List.length (product_price_writes factor p) |}.

(** The identifiers of all variants of the catalog. *)
Definition variant_ids (cat : list product) : list Z :=
  flat_map (fun p => map v_id (or_empty (variants p))) cat.

(** A write that went through, as an event. *)
Definition written (r : request) : event := Called r (inr {| products := None |}).

(** What a loop body that issues the writes [calls p] leaves in the
    trace when they all go through. *)
Definition entered_events (calls : product -> list request) (p : product)
  : list event :=
  Visited (p_id p) :: map written (calls p).

(** What a write does to one product, and to one list of variants. *)
Definition touch (r : request) (q : product) : product :=
  match r with
  | PutVariant i pr => set_variants (option_map (map (reprice_variant i pr)) (variants q)) q
  | PutProduct i b => if p_id q =? i then patch_product b q else q
  | GetProducts _ _ _ => q
  end.

Definition touch_variants (r : request) (vs : list variant) : list variant :=
  match r with
  | PutVariant i pr => map (reprice_variant i pr) vs
  | _ => vs
  end.

(** Two products with three variants: a round price, a settled price and
    one that is not a number. *)
Definition priced_catalog : list product :=
  [sample_product 3 "Bowl" None
     [sample_variant 31 "10" (Some 4) true; sample_variant 32 "4.00" (Some 1) true]
     "active";
   sample_product 6 "Leash" None [sample_variant 61 "n/a" None false] "active"].



(** ** What a run owes to the pages it is served *)

(** The writes the rule of each run decides on for a product as it was
    served. *)
Definition decided (op : operation) (p : product) : list request :=
  match op with
  | DescribeAll apply => write_requests (description_write apply) p
  | HideOutOfStock => write_requests hide_write p
  | Reprice percent => product_price_writes (factor_of percent) p
  end.

(** The computation is not left running and reads no page; what [g]
    retains of its events is [xs], or the start of [xs] when a call
    failed, with [rest] missing. *)
Definition yields {X A : Type} (g : event -> list X) (xs : list X) (m : task A)
  : Prop :=
  forall w,
    snd (m w) <> Running
    /\ exists evs rest,
         events (fst (m w)) = events w ++ evs
         /\ xs = flat_map g evs ++ rest
         /\ pages_served evs = []
         /\ ((forall e, snd (m w) <> Raised e) -> rest = []).

(** What [g] retains of the events is what [f] gives for the products
    of the pages served, in the order served; [rest] is what a failed call
    left undone. *)
Definition keeps_to_pages {X A : Type} (g : event -> list X)
  (f : product -> list X) (m : task A) : Prop :=
  forall w,
    exists evs rest,
      events (fst (m w)) = events w ++ evs
      /\ flat_map f (List.concat (pages_served evs)) = flat_map g evs ++ rest
      /\ ((forall e, snd (m w) <> Raised e) -> rest = []).


(** * Properties *)

(** ** Strings *)

Lemma ustring_eqb_eq (a b : ustring) : eqb a b = true <-> a = b.
Proof.
revert b; induction a as [|x a IH]; intros [|y b]; simpl;
  try (split; [discriminate | discriminate]); try tauto.
rewrite andb_true_iff, N.eqb_eq, IH.
split; [intros [-> ->]; reflexivity | intros H; inversion H; auto].
Qed.

Lemma ustring_eqb_refl (a : ustring) : eqb a a = true.
Proof. apply ustring_eqb_eq; reflexivity. Qed.

Lemma ustring_eqb_neq (a b : ustring) : eqb a b = false <-> a <> b.
Proof.
rewrite <- ustring_eqb_eq. destruct (eqb a b); split; congruence.
Qed.

Lemma trimStart_clean (s : ustring) : starts_clean (trimStart s).
Proof.
induction s as [|c s IH]; simpl; auto.
destruct (is_ws c) eqn:E; simpl; auto.
Qed.

Lemma trimStart_id (s : ustring) : starts_clean s -> trimStart s = s.
Proof. destruct s as [|c s]; simpl; auto. intros ->; reflexivity. Qed.

Lemma trimStart_snoc_clean (s : ustring) (c : N) :
is_ws c = false -> trimStart (s ++ [c]) = trimStart s ++ [c].
Proof.
intros Hc. induction s as [|d s IH]; simpl.
- rewrite Hc; reflexivity.
- destruct (is_ws d); auto.
Qed.

(** Stripping the end of a string leaves a clean start clean. *)
Lemma trimEnd_clean (s : ustring) : starts_clean s -> starts_clean (trimEnd s).
Proof.
unfold trimEnd. destruct s as [|c s]; simpl; auto.
intros Hc. rewrite trimStart_snoc_clean by assumption.
rewrite rev_app_distr; simpl; assumption.
Qed.

Lemma trimEnd_idem (s : ustring) : trimEnd (trimEnd s) = trimEnd s.
Proof.
unfold trimEnd. rewrite rev_involutive.
f_equal. apply trimStart_id, trimStart_clean.
Qed.

Lemma trim_idem (s : ustring) : trim (trim s) = trim s.
Proof.
unfold trim.
rewrite (trimStart_id (trimEnd (trimStart s))).
- apply trimEnd_idem.
- apply trimEnd_clean, trimStart_clean.
Qed.

(** ** Events of a step *)

Lemma issued_app (w w' : world) (evs : list event) :
  events w' = events w ++ evs -> issued w w' = evs.
Proof.
intros H. unfold issued. rewrite H.
rewrite skipn_app, skipn_all, Nat.sub_diag. reflexivity.
Qed.

Lemma snoc_neq {A : Type} (l : list A) (x : A) : l ++ [x] <> l.
Proof.
intros H. apply (f_equal (@List.length A)) in H.
rewrite length_app in H. simpl in H. lia.
Qed.

(** ** The description test (C1) *)

Lemma up_to_date_iff (p : product) :
  up_to_date p = true <->
  collapse_ws (slice0 160 (trim (or_string (body_html p) [])))
  = collapse_ws (slice0 160 (buildDescription p)).
Proof. unfold up_to_date, cur_key, next_key. apply ustring_eqb_eq. Qed.

(** C1, as the code has it: the current description is trimmed, both
    descriptions are cut to their first 160 code units, and only then are
    the white-space runs of the two prefixes collapsed; the product is
    skipped (no write, nothing added to the preview) exactly when the two
    results are equal. *)
Theorem description_skipped_iff_prefix_keys_equal
  (cap : nat) (faults : list event -> request -> option fault)
  (apply : bool) (p : product) (st : description_vars) (w : world) :
  description_body cap faults apply p st w = skipped p st w
  <->
  collapse_ws (slice0 160 (trim (or_string (body_html p) [])))
  = collapse_ws (slice0 160 (buildDescription p)).
Proof.
rewrite <- up_to_date_iff.
unfold description_body, skipped, bind, visit, emit, ret, shopify; simpl.
destruct (up_to_date p) eqn:E.
- split; reflexivity.
- split; [|discriminate]. intros H. exfalso.
  destruct apply.
  + assert (He : events (fst (skipped p st w)) <> events w ++ [Visited (p_id p)]);
      [| apply He; reflexivity].
    unfold skipped. rewrite <- H.
    destruct (faults _ _); simpl; apply snoc_neq.
  + inversion H as [Hp]. revert Hp. apply snoc_neq.
Qed.

Lemma description_skipped_witness :
  description_body 250 no_faults true
    (set_body_html (buildDescription spaced_product) spaced_product)
    no_description_vars (fresh [])
  = skipped (set_body_html (buildDescription spaced_product) spaced_product)
      no_description_vars (fresh []).
Proof.
apply (proj2 (description_skipped_iff_prefix_keys_equal 250 no_faults true
  (set_body_html (buildDescription spaced_product) spaced_product)
  no_description_vars (fresh []))).
vm_compute. reflexivity.
Defined.

(** The document's order (normalize, then cut) is not the code's: for a
    title with a double space the normalized prefixes agree, and the code
    still writes. *)
Lemma normalized_prefix_rule_fails :
  ~ (description_body 250 no_faults true spaced_product no_description_vars (fresh [])
     = skipped spaced_product no_description_vars (fresh [])
     <-> spec_same_description spaced_product).
Proof.
intros [_ H].
assert (Hs : spec_same_description spaced_product) by (vm_compute; reflexivity).
specialize (H Hs).
apply (f_equal (fun r => List.length (events (fst r)))) in H.
vm_compute in H. discriminate.
Qed.

(** ** The hide rule (C2, C8, C10) *)

Lemma allZero_iff (p : product) :
  allZero p = true <->
  Forall (fun v => quantity_or_zero v <= 0
                   /\ truthy_management (inventory_management v) = true)
         (or_empty (variants p)).
Proof.
unfold allZero. rewrite forallb_forall, Forall_forall.
split; intros H v Hv; specialize (H v Hv); unfold zero_and_managed in *.
- apply andb_true_iff in H. destruct H as [H1 H2]. split; [lia | assumption].
- apply andb_true_iff. destruct H as [H1 H2]. split; [lia | assumption].
Qed.

Lemma must_hide_iff (p : product) :
  must_hide p = true <->
  Forall (fun v => quantity_or_zero v <= 0
                   /\ truthy_management (inventory_management v) = true)
         (or_empty (variants p))
  /\ status p <> draft.
Proof.
unfold must_hide. rewrite andb_true_iff, allZero_iff, negb_true_iff, ustring_eqb_neq.
reflexivity.
Qed.

(** The write calls of one pass of the hide loop body. *)
Lemma hide_body_writes
  (cap : nat) (faults : list event -> request -> option fault)
  (p : product) (st : hide_vars) (w : world) :
  writes (issued w (fst (hide_body cap faults p st w)))
  = if must_hide p then [PutProduct (p_id p) (Status draft)] else [].
Proof.
unfold hide_body, bind, visit, emit, ret, shopify; simpl.
destruct (must_hide p).
- destruct (faults _ _); simpl;
    erewrite issued_app by (simpl; rewrite <- app_assoc; reflexivity);
    reflexivity.
- simpl. erewrite issued_app by (simpl; reflexivity). reflexivity.
Qed.

(** C2, as the code has it: the hide step writes the hidden status exactly
    when every variant of the product is management-tracked and reports a
    quantity <= 0 (a product without variants passes vacuously, a variant
    that is not tracked blocks the write) and the status is not already
    ["draft"]; otherwise it writes nothing. *)
Theorem hide_writes_iff_every_variant_tracked_at_zero
  (cap : nat) (faults : list event -> request -> option fault)
  (p : product) (st : hide_vars) (w : world) :
  (writes (issued w (fst (hide_body cap faults p st w)))
     = [PutProduct (p_id p) (Status draft)]
   <->
   Forall (fun v => quantity_or_zero v <= 0
                    /\ truthy_management (inventory_management v) = true)
          (or_empty (variants p))
   /\ status p <> draft)
  /\
  (writes (issued w (fst (hide_body cap faults p st w))) = []
   <->
   ~ (Forall (fun v => quantity_or_zero v <= 0
                       /\ truthy_management (inventory_management v) = true)
             (or_empty (variants p))
      /\ status p <> draft)).
Proof.
rewrite hide_body_writes, <- must_hide_iff.
destruct (must_hide p); split; split; intros H;
  try reflexivity; try discriminate; try congruence.
Qed.

Lemma hide_writes_witness :
  writes (issued (fresh [])
    (fst (hide_body 250 no_faults untracked_product no_hide_vars (fresh [])))) = [].
Proof.
apply (proj2 (proj2 (hide_writes_iff_every_variant_tracked_at_zero 250 no_faults
  untracked_product no_hide_vars (fresh [])))).
intros [H _]. inversion H as [|v l [_ Hv] Hl]. vm_compute in Hv. discriminate.
Defined.

(** The document's rule lets variants without tracking pass; the code does
    not: a product whose only variant is untracked meets the document's
    condition and is left alone. *)
Lemma untracked_variants_do_count :
  ~ (writes (issued (fresh [])
       (fst (hide_body 250 no_faults untracked_product no_hide_vars (fresh []))))
     = [PutProduct (p_id untracked_product) (Status draft)]
     <-> spec_must_hide untracked_product).
Proof.
intros [_ H].
assert (Hs : spec_must_hide untracked_product).
{ split.
  - intros v [<- | []] Hv. vm_compute in Hv. discriminate.
  - vm_compute. discriminate. }
specialize (H Hs). vm_compute in H. discriminate.
Qed.

(** C8: the three products of the hide rule.  Two tracked variants at
    zero and status "active": the hidden status is written (and stored
    when the call goes through).  One tracked variant with five in stock:
    nothing is written, whatever the status.  One untracked variant at
    zero and status "active": nothing is written. *)
Theorem hide_rule_examples
  (cap : nat) (faults : list event -> request -> option fault)
  (i : Z) (t : ustring) (vd body : option ustring)
  (i1 i2 : Z) (pr1 pr2 : ustring) (st : hide_vars) (w : world) (some_status : ustring) :
  let tracked_zero (j : Z) (pr : ustring) :=
    {| v_id := j; price := pr; inventory_quantity := Some 0;
       inventory_management := Flag true |} in
  let with_variants (vs : list variant) (s : ustring) :=
    {| p_id := i; title := t; vendor := vd; body_html := body;
       variants := Some vs; status := s |} in
  let sold_out := with_variants [tracked_zero i1 pr1; tracked_zero i2 pr2] (u "active") in
  let in_stock :=
    with_variants [{| v_id := i1; price := pr1; inventory_quantity := Some 5;
                      inventory_management := Flag true |}] some_status in
  let untracked :=
    with_variants [{| v_id := i1; price := pr1; inventory_quantity := Some 0;
                      inventory_management := Flag false |}] (u "active") in
  writes (issued w (fst (hide_body cap faults sold_out st w)))
    = [PutProduct i (Status draft)]
  /\ catalog (fst (hide_body cap no_faults sold_out st w))
     = map (fun q => if p_id q =? i then set_status draft q else q) (catalog w)
  /\ writes (issued w (fst (hide_body cap faults in_stock st w))) = []
  /\ catalog (fst (hide_body cap faults in_stock st w)) = catalog w
  /\ writes (issued w (fst (hide_body cap faults untracked st w))) = []
  /\ catalog (fst (hide_body cap faults untracked st w)) = catalog w.
Proof.
intros tracked_zero with_variants sold_out in_stock untracked.
rewrite !hide_body_writes.
repeat split; reflexivity.
Qed.


(** ** Loops *)

Lemma for_of_app {A V : Type} (a b : list A) (body : A -> V -> task V) (st : V) (w : world) :
  for_of (a ++ b) body st w = bind (for_of a body st) (for_of b body) w.
Proof.
revert st w. induction a as [|x a IH]; intros st w; simpl.
- reflexivity.
- unfold bind. destruct (body x st w) as [w' [s'| e |]].
  + rewrite IH. reflexivity.
  + reflexivity.
  + reflexivity.
Qed.

(** ** Prices that are not numbers (C9) *)

(** C9: a variant whose price does not parse as a finite number is passed
    over: its step issues no call, changes nothing and does not raise; the
    loop over the variants, and with it the pass over the product, goes on
    as if the variant were not there. *)
Theorem non_finite_price_is_skipped
  (cap : nat) (faults : list event -> request -> option fault)
  (factor : number) (v : variant) (before after : list variant)
  (changed : nat) (w : world) :
  isFinite (parseFloat (price v)) = false ->
  reprice_variant_body cap faults factor v changed w = (w, Done changed)
  /\ for_of (before ++ v :: after) (reprice_variant_body cap faults factor) changed w
     = for_of (before ++ after) (reprice_variant_body cap faults factor) changed w
  /\ forall p st,
       reprice_body cap faults factor (set_variants (Some (before ++ v :: after)) p) st w
       = reprice_body cap faults factor (set_variants (Some (before ++ after)) p) st w.
Proof.
intros Hnf.
assert (Hstep : forall c w0,
  reprice_variant_body cap faults factor v c w0 = (w0, Done c)).
{ intros c w0. unfold reprice_variant_body. rewrite Hnf. reflexivity. }
assert (Hloop : forall c w0,
  for_of (before ++ v :: after) (reprice_variant_body cap faults factor) c w0
  = for_of (before ++ after) (reprice_variant_body cap faults factor) c w0).
{ intros c w0. rewrite !for_of_app. unfold bind.
  destruct (for_of before _ c w0) as [w' [c'| e |]]; try reflexivity.
  simpl. unfold bind. rewrite Hstep. reflexivity. }
split; [apply Hstep|]. split; [apply Hloop|].
intros p st. unfold reprice_body, bind, visit, emit. simpl.
rewrite Hloop. reflexivity.
Qed.

Lemma non_finite_price_witness :
  reprice_variant_body 250 no_faults (factor_of (of_Z 10)) unpriced_variant 0 (fresh [])
    = (fresh [], Done 0%nat)
  /\ for_of ([sample_variant 30 "5.00" None true] ++ unpriced_variant :: [])
       (reprice_variant_body 250 no_faults (factor_of (of_Z 10))) 0%nat (fresh [])
     = for_of ([sample_variant 30 "5.00" None true] ++ [])
       (reprice_variant_body 250 no_faults (factor_of (of_Z 10))) 0%nat (fresh [])
  /\ forall p st,
       reprice_body 250 no_faults (factor_of (of_Z 10))
         (set_variants (Some ([sample_variant 30 "5.00" None true] ++ unpriced_variant :: [])) p)
         st (fresh [])
       = reprice_body 250 no_faults (factor_of (of_Z 10))
           (set_variants (Some ([sample_variant 30 "5.00" None true] ++ [])) p)
           st (fresh []).
Proof.
apply (non_finite_price_is_skipped 250 no_faults (factor_of (of_Z 10))
         unpriced_variant [sample_variant 30 "5.00" None true] [] 0 (fresh [])).
vm_compute. reflexivity.
Defined.

(** ** Failure of a call (C4) *)

Lemma clean_app (a b : list event) : clean (a ++ b) <-> clean a /\ clean b.
Proof. unfold clean. rewrite forallb_app, andb_true_iff. reflexivity. Qed.

Lemma replay_app (a b : list event) (cat : list product) :
  replay (a ++ b) cat = replay b (replay a cat).
Proof. unfold replay. apply fold_left_app. Qed.

Lemma disciplined_ret {A : Type} (a : A) : disciplined (ret a).
Proof.
intros w. exists []. simpl. rewrite app_nil_r. repeat split.
Qed.

Lemma disciplined_visit (i : Z) : disciplined (visit i).
Proof. intros w. exists [Visited i]. simpl. repeat split. Qed.

Lemma disciplined_shopify cap faults (r : request) : disciplined (shopify cap faults r).
Proof.
intros w. unfold shopify. destruct (faults (events w) r) as [f|]; simpl.
- exists [Called r (inl f)]. split; [reflexivity|].
  exists [], r, f. repeat split.
- exists [Called r (inr (serve cap r (catalog w)))]. repeat split.
Qed.

Lemma disciplined_bind {A B : Type} (m : task A) (k : A -> task B) :
  disciplined m -> (forall a, disciplined (k a)) -> disciplined (bind m k).
Proof.
intros Hm Hk w. destruct (Hm w) as (evs1 & E1 & R1).
unfold bind. destruct (m w) as [w1 [a| e |]]; simpl in *.
- destruct (Hk a w1) as (evs2 & E2 & R2).
  exists (evs1 ++ evs2). rewrite E2, E1, app_assoc. split; [reflexivity|].
  destruct R1 as [C1 Hc1]. rewrite Hc1 in R2.
  destruct (snd (k a w1)); simpl in *.
  + destruct R2 as [C2 Hc2]. rewrite clean_app, replay_app. auto.
  + destruct R2 as (pre & r & f & Hev & C2 & He & Hc2).
    exists (evs1 ++ pre), r, f. rewrite clean_app, replay_app, Hev, app_assoc. auto.
  + destruct R2 as [C2 Hc2]. rewrite clean_app, replay_app. auto.
- exists evs1. auto.
- exists evs1. auto.
Qed.

Lemma disciplined_for_of {A V : Type} (items : list A) (body : A -> V -> task V) :
  (forall x st, disciplined (body x st)) ->
  forall st, disciplined (for_of items body st).
Proof.
intros Hb. induction items as [|x items IH]; intros st; simpl.
- apply disciplined_ret.
- apply disciplined_bind; auto.
Qed.

Lemma disciplined_while_true {V : Type} (fuel : nat) (body : V -> task (flow V)) :
  (forall st, disciplined (body st)) ->
  forall st, disciplined (while_true fuel body st).
Proof.
intros Hb. induction fuel as [|fuel IH]; intros st; simpl.
- intros w. exists []. simpl. rewrite app_nil_r. repeat split.
- apply disciplined_bind; [apply Hb|].
  intros [st'|st']; [apply IH | apply disciplined_ret].
Qed.

Lemma disciplined_run cap faults (op : operation) (fuel : nat) :
  disciplined (run cap faults op fuel).
Proof.
destruct op as [apply| |percent]; simpl.
- unfold updateAllDescriptions.
  apply disciplined_bind; [|intros; apply disciplined_ret].
  apply disciplined_while_true. intros st. unfold description_page.
  apply disciplined_bind; [apply disciplined_shopify|]. intros data.
  destruct (or_empty (products data)) as [|p ps]; [apply disciplined_ret|].
  apply disciplined_bind; [|intros; apply disciplined_ret].
  apply disciplined_for_of. intros q s. unfold description_body.
  apply disciplined_bind; [apply disciplined_visit|]. intros _.
  destruct (up_to_date q); [apply disciplined_ret|].
  destruct apply; [|apply disciplined_ret].
  apply disciplined_bind; [apply disciplined_shopify|intros; apply disciplined_ret].
- unfold hideOutOfStock.
  apply disciplined_bind; [|intros; apply disciplined_ret].
  apply disciplined_while_true. intros st. unfold hide_page.
  apply disciplined_bind; [apply disciplined_shopify|]. intros data.
  destruct (or_empty (products data)) as [|p ps]; [apply disciplined_ret|].
  apply disciplined_bind; [|intros; apply disciplined_ret].
  apply disciplined_for_of. intros q s. unfold hide_body.
  apply disciplined_bind; [apply disciplined_visit|]. intros _.
  destruct (must_hide q); [|apply disciplined_ret].
  apply disciplined_bind; [apply disciplined_shopify|intros; apply disciplined_ret].
- unfold simpleReprice.
  apply disciplined_bind; [|intros; apply disciplined_ret].
  apply disciplined_while_true. intros st. unfold reprice_page.
  apply disciplined_bind; [apply disciplined_shopify|]. intros data.
  destruct (or_empty (products data)) as [|p ps]; [apply disciplined_ret|].
  apply disciplined_bind; [|intros; apply disciplined_ret].
  apply disciplined_for_of. intros q s. unfold reprice_body.
  apply disciplined_bind; [apply disciplined_visit|]. intros _.
  apply disciplined_bind; [|intros; apply disciplined_ret].
  apply disciplined_for_of. intros v c. unfold reprice_variant_body.
  destruct (negb (isFinite _)); [apply disciplined_ret|].
  destruct (negb (eqb _ _)); [|apply disciplined_ret].
  apply disciplined_bind; [apply disciplined_shopify|intros; apply disciplined_ret].
Qed.

Lemma clean_not_failed (evs : list event) (r : request) (f : fault) :
  clean evs -> ~ In (Called r (inl f)) evs.
Proof.
unfold clean. rewrite forallb_forall. intros H Hin.
specialize (H _ Hin). discriminate.
Qed.

(** C4: when a call of a run fails (a write in particular; a page read
    just as well), the run raises the error of that call and so returns no
    run result; the failed call is the last event of the run, so no call is
    issued after it; and the catalog is the one the calls before it left
    behind: what was written stays written. *)
Theorem failed_call_aborts_the_run
  (cap : nat) (faults : list event -> request -> option fault)
  (op : operation) (fuel : nat) (w : world) (r : request) (f : fault) :
  In (Called r (inl f)) (issued w (fst (run cap faults op fuel w))) ->
  snd (run cap faults op fuel w) = Raised (error_of r f)
  /\ exists before,
       issued w (fst (run cap faults op fuel w)) = before ++ [Called r (inl f)]
       /\ clean before
       /\ catalog (fst (run cap faults op fuel w)) = replay before (catalog w).
Proof.
destruct (disciplined_run cap faults op fuel w) as (evs & E & R).
rewrite (issued_app _ _ _ E). intros Hin.
destruct (snd (run cap faults op fuel w)) as [res| e |]; simpl in R.
- destruct R as [C _]. exfalso. exact (clean_not_failed _ _ _ C Hin).
- destruct R as (pre & r' & f' & -> & C & -> & Hcat).
  apply in_app_or in Hin. destruct Hin as [Hin | [Heq | []]].
  + exfalso. exact (clean_not_failed _ _ _ C Hin).
  + inversion Heq; subst. split; [reflexivity|].
    exists pre. auto.
- destruct R as [C _]. exfalso. exact (clean_not_failed _ _ _ C Hin).
Qed.

Lemma failed_call_witness :
  let p5 := sample_product 5 "Chew Toy" None [] "active" in
  let r5 := PutProduct 5 (BodyHtml (buildDescription p5)) in
  let f5 := Transport (u "socket hang up") in
  let w := fresh ten_products in
  snd (run 250 fifth_write_fails (DescribeAll true) 3 w) = Raised (error_of r5 f5)
  /\ exists before,
       issued w (fst (run 250 fifth_write_fails (DescribeAll true) 3 w))
         = before ++ [Called r5 (inl f5)]
       /\ clean before
       /\ catalog (fst (run 250 fifth_write_fails (DescribeAll true) 3 w))
          = replay before (catalog w).
Proof.
intros p5 r5 f5 w.
apply (failed_call_aborts_the_run 250 fifth_write_fails (DescribeAll true) 3 w r5 f5).
vm_compute. repeat (first [left; reflexivity | right]).
Defined.

(** ** Traversal of a well-behaved store *)

Lemma ascending_above (l : list product) :
  forall c, ascending_from c l -> Forall (fun p => c < p_id p) l.
Proof.
induction l as [|p l IH]; intros c H; constructor.
- apply H.
- destruct H as [Hc Hl]. apply IH in Hl.
  eapply Forall_impl; [|exact Hl]. simpl. intros q Hq. lia.
Qed.

Lemma ascending_NoDup (l : list product) :
  forall c, ascending_from c l -> NoDup (map p_id l).
Proof.
induction l as [|p l IH]; intros c H; simpl; constructor.
- destruct H as [_ H]. apply ascending_above in H.
  rewrite in_map_iff. intros (q & Hq & Hin).
  rewrite Forall_forall in H. specialize (H q Hin). lia.
- destruct H as [_ H]. eapply IH; eassumption.
Qed.

Lemma filter_none {A : Type} (f : A -> bool) (l : list A) :
  Forall (fun x => f x = false) l -> filter f l = [].
Proof.
induction 1 as [|x l Hx Hl IH]; simpl; [reflexivity|]. rewrite Hx. assumption.
Qed.

Lemma filter_all {A : Type} (f : A -> bool) (l : list A) :
  Forall (fun x => f x = true) l -> filter f l = l.
Proof.
induction 1 as [|x l Hx Hl IH]; simpl; [reflexivity|]. rewrite Hx, IH. reflexivity.
Qed.

Lemma page_above_cursor (cap limit : nat) (c : Z) (pre rest : list product) :
  Forall (fun q => p_id q <= c) pre ->
  ascending_from c rest ->
  page cap limit c (pre ++ rest) = firstn (Nat.min limit cap) rest.
Proof.
intros Hpre Hrest. unfold page. rewrite filter_app.
rewrite filter_none, filter_all; [reflexivity | |].
- apply ascending_above in Hrest.
  eapply Forall_impl; [|exact Hrest]. simpl. intros q Hq. apply Z.ltb_lt. lia.
- eapply Forall_impl; [|exact Hpre]. simpl. intros q Hq. apply Z.ltb_ge. lia.
Qed.

Lemma map_unchanged {A : Type} (f : A -> A) (l : list A) :
  Forall (fun x => f x = x) l -> map f l = l.
Proof.
induction 1 as [|x l Hx Hl IH]; simpl; [reflexivity|]. rewrite Hx, IH. reflexivity.
Qed.

Lemma store_put_here (b : patch) (p : product) (pre rest : list product) (c : Z) :
  Forall (fun q => p_id q <= c) pre -> c < p_id p ->
  ascending_from (p_id p) rest ->
  store (PutProduct (p_id p) b) (pre ++ p :: rest)
  = pre ++ patch_product b p :: rest.
Proof.
intros Hpre Hc Hrest. simpl. rewrite map_app. simpl.
rewrite Z.eqb_refl. f_equal; [|f_equal]; apply map_unchanged.
- eapply Forall_impl; [|exact Hpre]. simpl. intros q Hq.
  destruct (Z.eqb_spec (p_id q) (p_id p)); [lia | reflexivity].
- apply ascending_above in Hrest.
  eapply Forall_impl; [|exact Hrest]. simpl. intros q Hq.
  destruct (Z.eqb_spec (p_id q) (p_id p)); [lia | reflexivity].
Qed.

Lemma patch_keeps_id (b : patch) (p : product) : p_id (patch_product b p) = p_id p.
Proof. destruct b; reflexivity. Qed.

Lemma patched_keeps_id (write_for : product -> option patch) (p : product) :
  p_id (patched write_for p) = p_id p.
Proof. unfold patched. destruct (write_for p); [apply patch_keeps_id | reflexivity]. Qed.

Lemma visits_app (a b : list event) : visits (a ++ b) = visits a ++ visits b.
Proof. apply flat_map_app. Qed.

Lemma writes_app (a b : list event) : writes (a ++ b) = writes a ++ writes b.
Proof. apply flat_map_app. Qed.

Lemma page_requests_app (a b : list event) :
  page_requests (a ++ b) = page_requests a ++ page_requests b.
Proof. apply flat_map_app. Qed.

Lemma pages_served_app (a b : list event) :
  pages_served (a ++ b) = pages_served a ++ pages_served b.
Proof. apply flat_map_app. Qed.

Lemma pages_for_nil (p : nat) : (0 < p)%nat -> pages_for 0 p = 0%nat.
Proof. intros Hp. unfold pages_for. apply Nat.div_small. lia. Qed.

Lemma pages_for_skip (n p : nat) :
  (0 < p)%nat -> (0 < n)%nat -> pages_for n p = S (pages_for (n - p) p).
Proof.
intros Hp Hn. unfold pages_for.
destruct (Nat.le_gt_cases p n) as [Hle|Hgt].
- replace (n + p - 1)%nat with ((n - p + p - 1) + 1 * p)%nat by lia.
  rewrite Nat.div_add by lia. lia.
- replace (n - p)%nat with 0%nat by lia. simpl.
  rewrite (Nat.div_small (p - 1)) by lia.
  replace (n + p - 1)%nat with ((n - 1) + 1 * p)%nat by lia.
  rewrite Nat.div_add by lia. rewrite Nat.div_small by lia. reflexivity.
Qed.

Section Traversal.

Variable cap : nat.
Variable V : Type.
Variables (limit : nat) (fields : option ustring) (cursor : V -> Z).
Variable body : product -> V -> task V.
Variable step : product -> V -> V.
Variable write_for : product -> option patch.

(** The body visits the product, issues the one write it decides on, and
    moves the cursor to the product. *)
Hypothesis body_spec : forall p st w,
  body p st w = (after_body write_for p w, Done (step p st)).
Hypothesis cursor_step : forall p st, cursor (step p st) = p_id p.

Let P : nat := Nat.min limit cap.
Let steps (ps : list product) (st : V) : V := fold_left (fun s p => step p s) ps st.
Let turn : V -> task (flow V) := paged cap no_faults limit fields cursor body.

Lemma visits_body_events (ps : list product) :
  visits (flat_map (body_events write_for) ps) = map p_id ps.
Proof.
induction ps as [|p ps IH]; simpl; [reflexivity|].
rewrite visits_app, IH. unfold write_events.
destruct (write_for p); reflexivity.
Qed.

Lemma writes_body_events (ps : list product) :
  writes (flat_map (body_events write_for) ps) = flat_map (write_requests write_for) ps.
Proof.
induction ps as [|p ps IH]; simpl; [reflexivity|].
rewrite writes_app, IH. unfold write_events, write_requests.
destruct (write_for p); reflexivity.
Qed.

Lemma page_requests_body_events (ps : list product) :
  page_requests (flat_map (body_events write_for) ps) = [].
Proof.
induction ps as [|p ps IH]; simpl; [reflexivity|].
rewrite page_requests_app, IH. unfold write_events.
destruct (write_for p); reflexivity.
Qed.

Lemma pages_served_body_events (ps : list product) :
  pages_served (flat_map (body_events write_for) ps) = [].
Proof.
induction ps as [|p ps IH]; simpl; [reflexivity|].
rewrite pages_served_app, IH. unfold write_events.
destruct (write_for p); reflexivity.
Qed.

(** The loop body over one page: every product of the page is visited in
    order, its write is stored in place, and the products behind the page
    are untouched. *)
Lemma for_of_page (pg : list product) :
  forall (pre rest : list product) (st : V) (w : world),
    catalog w = pre ++ pg ++ rest ->
    Forall (fun q => p_id q <= cursor st) pre ->
    ascending_from (cursor st) (pg ++ rest) ->
    exists w',
      for_of pg body st w = (w', Done (steps pg st))
      /\ catalog w' = (pre ++ map (patched write_for) pg) ++ rest
      /\ events w' = events w ++ flat_map (body_events write_for) pg
      /\ Forall (fun q => p_id q <= cursor (steps pg st)) (pre ++ map (patched write_for) pg)
      /\ ascending_from (cursor (steps pg st)) rest.
Proof.
induction pg as [|p pg IH]; intros pre rest st w Hcat Hpre Hasc.
- exists w. simpl. rewrite !app_nil_r. auto.
- simpl in Hasc. destruct Hasc as [Hc Hasc].
  assert (Hcat1 : catalog (after_body write_for p w)
                  = (pre ++ [patched write_for p]) ++ pg ++ rest).
  { unfold after_body, patched; simpl. rewrite <- app_assoc. simpl.
    destruct (write_for p) as [b|].
    - rewrite Hcat. simpl. apply (store_put_here b p pre (pg ++ rest) (cursor st)); auto.
    - exact Hcat. }
  assert (Hpre1 : Forall (fun q => p_id q <= cursor (step p st)) (pre ++ [patched write_for p])).
  { rewrite cursor_step. apply Forall_app. split.
    - eapply Forall_impl; [|exact Hpre]. simpl. intros q Hq. lia.
    - constructor; [|constructor]. rewrite patched_keeps_id. lia. }
  assert (Hasc1 : ascending_from (cursor (step p st)) (pg ++ rest)).
  { rewrite cursor_step. exact Hasc. }
  destruct (IH _ _ _ _ Hcat1 Hpre1 Hasc1) as (w' & Hrun & Hc' & He' & Hp' & Ha').
  exists w'. split.
  { simpl. unfold bind. rewrite body_spec, Hrun. reflexivity. }
  split.
  { rewrite Hc'. simpl. rewrite <- !app_assoc. reflexivity. }
  split.
  { rewrite He'. unfold after_body. simpl. rewrite <- app_assoc. reflexivity. }
  split.
  { simpl.
    change (pre ++ patched write_for p :: map (patched write_for) pg)
      with (pre ++ [patched write_for p] ++ map (patched write_for) pg).
    rewrite app_assoc. exact Hp'. }
  exact Ha'.
Qed.

Lemma turn_on_empty (pre : list product) (st : V) (w : world) :
  catalog w = pre ->
  Forall (fun q => p_id q <= cursor st) pre ->
  turn st w
  = ({| catalog := catalog w;
        events := events w ++ [Called (GetProducts limit (cursor st) fields)
                                      (inr {| products := Some [] |})] |},
     Done (Break st)).
Proof.
intros Hcat Hpre.
pose proof (page_above_cursor cap limit (cursor st) pre [] Hpre I) as Hpg.
rewrite app_nil_r, firstn_nil, <- Hcat in Hpg.
unfold turn, paged, bind, shopify, no_faults. simpl.
rewrite Hpg. reflexivity.
Qed.

Lemma turn_on_page (pre rest : list product) (st : V) (w : world) :
  (0 < P)%nat -> rest <> [] ->
  catalog w = pre ++ rest ->
  Forall (fun q => p_id q <= cursor st) pre ->
  ascending_from (cursor st) rest ->
  exists w',
    turn st w = (w', Done (Next (steps (firstn P rest) st)))
    /\ catalog w' = (pre ++ map (patched write_for) (firstn P rest)) ++ skipn P rest
    /\ events w'
       = events w
         ++ Called (GetProducts limit (cursor st) fields)
                   (inr {| products := Some (firstn P rest) |})
         :: flat_map (body_events write_for) (firstn P rest)
    /\ Forall (fun q => p_id q <= cursor (steps (firstn P rest) st))
              (pre ++ map (patched write_for) (firstn P rest))
    /\ ascending_from (cursor (steps (firstn P rest) st)) (skipn P rest).
Proof.
intros HP Hne Hcat Hpre Hasc.
set (w1 := {| catalog := catalog w;
              events := events w ++ [Called (GetProducts limit (cursor st) fields)
                                            (inr {| products := Some (firstn P rest) |})] |}).
assert (Hcat1 : catalog w1 = pre ++ firstn P rest ++ skipn P rest).
{ simpl. rewrite firstn_skipn. exact Hcat. }
assert (Hasc1 : ascending_from (cursor st) (firstn P rest ++ skipn P rest)).
{ rewrite firstn_skipn. exact Hasc. }
destruct (for_of_page (firstn P rest) pre (skipn P rest) st w1 Hcat1 Hpre Hasc1)
  as (w' & Hrun & Hc' & He' & Hp' & Ha').
exists w'. split; [|repeat split; auto].
- pose proof (page_above_cursor cap limit (cursor st) pre rest Hpre Hasc) as Hpg.
  rewrite <- Hcat in Hpg. fold P in Hpg.
  unfold turn, paged, bind, shopify, no_faults. simpl.
  rewrite Hpg. unfold w1 in Hrun.
  destruct (firstn P rest) as [|p0 pg0] eqn:Hfirst.
  + exfalso. destruct rest as [|r0 rest0]; [congruence|].
    destruct P; [lia | discriminate].
  + rewrite Hrun. reflexivity.
- rewrite He'. unfold w1. simpl. rewrite <- app_assoc. reflexivity.
Qed.

Lemma steps_split (n : nat) (rest : list product) (st : V) :
  steps (skipn n rest) (steps (firstn n rest) st) = steps rest st.
Proof.
unfold steps. rewrite <- fold_left_app, firstn_skipn. reflexivity.
Qed.

(** With fuel for one turn more than there are pages, the loop ends: the
    pages served are the catalog cut into non-empty pages, followed by one
    empty page; every product is visited once, in order. *)
Lemma traverse_all (fuel : nat) :
  forall (pre rest : list product) (st : V) (w : world),
    (0 < P)%nat ->
    catalog w = pre ++ rest ->
    Forall (fun q => p_id q <= cursor st) pre ->
    ascending_from (cursor st) rest ->
    (pages_for (List.length rest) P < fuel)%nat ->
    exists w' evs pgs,
      while_true fuel turn st w = (w', Done (steps rest st))
      /\ catalog w' = pre ++ map (patched write_for) rest
      /\ events w' = events w ++ evs
      /\ visits evs = map p_id rest
      /\ writes evs = flat_map (write_requests write_for) rest
      /\ List.length (page_requests evs) = S (pages_for (List.length rest) P)
      /\ pages_served evs = pgs ++ [[]]
      /\ Forall (fun pg => pg <> []) pgs
      /\ List.concat pgs = rest.
Proof.
induction fuel as [|fuel IH]; intros pre rest st w HP Hcat Hpre Hasc Hfuel; [lia|].
destruct rest as [|r0 rest0] eqn:Hrest.
- rewrite app_nil_r in Hcat.
  eexists _, [_], []. simpl. unfold bind.
  rewrite (turn_on_empty pre st w Hcat Hpre). simpl.
  rewrite app_nil_r, pages_for_nil by exact HP.
  repeat split; auto.
- rewrite <- Hrest in *.
  assert (Hne : rest <> []) by (rewrite Hrest; discriminate).
  destruct (turn_on_page pre rest st w HP Hne Hcat Hpre Hasc)
    as (w1 & Hturn & Hc1 & He1 & Hp1 & Ha1).
  assert (Hlen : (0 < List.length rest)%nat)
    by (rewrite Hrest; simpl; lia).
  assert (Hfuel1 : (pages_for (List.length (skipn P rest)) P < fuel)%nat).
  { rewrite length_skipn. rewrite (pages_for_skip (List.length rest) P HP Hlen) in Hfuel. lia. }
  destruct (IH _ _ _ _ HP Hc1 Hp1 Ha1 Hfuel1)
    as (w' & evs & pgs & Hrun & Hc' & He' & Hv & Hw & Hg & Hs & Hn & Hcc).
  exists w',
    (Called (GetProducts limit (cursor st) fields)
            (inr {| products := Some (firstn P rest) |})
     :: flat_map (body_events write_for) (firstn P rest) ++ evs),
    (firstn P rest :: pgs).
  split.
  { simpl. unfold bind. rewrite Hturn. rewrite Hrun, steps_split. reflexivity. }
  split.
  { rewrite Hc', <- app_assoc, <- map_app, firstn_skipn. reflexivity. }
  split.
  { rewrite He', He1, <- app_assoc. reflexivity. }
  split.
  { simpl. rewrite visits_app, visits_body_events, Hv, <- map_app, firstn_skipn.
    reflexivity. }
  split.
  { simpl. rewrite writes_app, writes_body_events, Hw, <- flat_map_app, firstn_skipn.
    reflexivity. }
  split.
  { simpl. rewrite page_requests_app, page_requests_body_events. simpl.
    rewrite Hg, length_skipn, (pages_for_skip (List.length rest) P HP Hlen).
    reflexivity. }
  split.
  { simpl. rewrite pages_served_app, pages_served_body_events, Hs. reflexivity. }
  split.
  { constructor; [|exact Hn].
    rewrite Hrest. destruct P; [lia | discriminate]. }
  simpl. rewrite Hcc. apply firstn_skipn.
Qed.

(** With less fuel the loop is still running, and no page served so far
    was empty. *)
Lemma traverse_short (fuel : nat) :
  forall (pre rest : list product) (st : V) (w : world),
    (0 < P)%nat ->
    catalog w = pre ++ rest ->
    Forall (fun q => p_id q <= cursor st) pre ->
    ascending_from (cursor st) rest ->
    (fuel <= pages_for (List.length rest) P)%nat ->
    exists w' evs,
      while_true fuel turn st w = (w', Running)
      /\ events w' = events w ++ evs
      /\ Forall (fun pg => pg <> []) (pages_served evs)
      /\ incl (writes evs) (flat_map (write_requests write_for) rest).
Proof.
induction fuel as [|fuel IH]; intros pre rest st w HP Hcat Hpre Hasc Hfuel.
- exists w, []. simpl. rewrite app_nil_r. repeat split; auto. intros r [].
- destruct rest as [|r0 rest0] eqn:Hrest.
  { simpl in Hfuel. rewrite pages_for_nil in Hfuel by exact HP. lia. }
  rewrite <- Hrest in *.
  assert (Hne : rest <> []) by (rewrite Hrest; discriminate).
  destruct (turn_on_page pre rest st w HP Hne Hcat Hpre Hasc)
    as (w1 & Hturn & Hc1 & He1 & Hp1 & Ha1).
  assert (Hlen : (0 < List.length rest)%nat)
    by (rewrite Hrest; simpl; lia).
  assert (Hfuel1 : (fuel <= pages_for (List.length (skipn P rest)) P)%nat).
  { rewrite length_skipn. rewrite (pages_for_skip (List.length rest) P HP Hlen) in Hfuel. lia. }
  destruct (IH _ _ _ _ HP Hc1 Hp1 Ha1 Hfuel1) as (w' & evs & Hrun & He' & Hn & Hw).
  exists w',
    (Called (GetProducts limit (cursor st) fields)
            (inr {| products := Some (firstn P rest) |})
     :: flat_map (body_events write_for) (firstn P rest) ++ evs).
  split.
  { simpl. unfold bind. rewrite Hturn. exact Hrun. }
  split.
  { rewrite He', He1, <- app_assoc. reflexivity. }
  split.
  { simpl. rewrite pages_served_app, pages_served_body_events. simpl.
    constructor; [|exact Hn].
    rewrite Hrest. destruct P; [lia | discriminate]. }
  simpl. rewrite writes_app, writes_body_events.
  replace (flat_map (write_requests write_for) rest)
    with (flat_map (write_requests write_for) (firstn P rest)
          ++ flat_map (write_requests write_for) (skipn P rest))
    by (rewrite <- flat_map_app, firstn_skipn; reflexivity).
  apply incl_app_app; [apply incl_refl | exact Hw].
Qed.

End Traversal.

(** ** The two product-level runs as traversals *)

Lemma description_body_spec (cap : nat) (apply : bool)
  (p : product) (st : description_vars) (w : world) :
  description_body cap no_faults apply p st w
  = (after_body (description_write apply) p w, Done (description_step apply p st)).
Proof.
unfold description_body, after_body, description_write, description_step,
  body_events, write_events, bind, visit, emit, ret, shopify, no_faults.
simpl. destruct (up_to_date p); [reflexivity|].
destruct apply; simpl; [|reflexivity].
rewrite <- app_assoc. reflexivity.
Qed.

Lemma hide_body_spec (cap : nat) (p : product) (st : hide_vars) (w : world) :
  hide_body cap no_faults p st w
  = (after_body hide_write p w, Done (hide_step p st)).
Proof.
unfold hide_body, after_body, hide_write, hide_step,
  body_events, write_events, bind, visit, emit, ret, shopify, no_faults.
simpl. destruct (must_hide p); simpl; [|reflexivity].
rewrite <- app_assoc. reflexivity.
Qed.

Lemma description_cursor (apply : bool) (p : product) (st : description_vars) :
  d_sinceId (description_step apply p st) = p_id p.
Proof.
unfold description_step. destruct (up_to_date p); [|destruct apply]; reflexivity.
Qed.

Lemma hide_cursor (p : product) (st : hide_vars) :
  h_sinceId (hide_step p st) = p_id p.
Proof. unfold hide_step. destruct (must_hide p); reflexivity. Qed.

Lemma description_steps_apply (cat : list product) (st : description_vars) :
  updated (fold_left (fun s p => description_step true p s) cat st)
  = (updated st + List.length (stale cat))%nat.
Proof.
revert st. induction cat as [|p cat IH]; intros st; simpl; [lia|].
rewrite IH. unfold description_step.
destruct (up_to_date p); simpl; lia.
Qed.

Lemma description_steps_preview (cat : list product) (st : description_vars) :
  preview (fold_left (fun s p => description_step false p s) cat st)
  = preview st ++ map preview_of (stale cat).
Proof.
revert st. induction cat as [|p cat IH]; intros st; simpl.
- rewrite app_nil_r. reflexivity.
- rewrite IH. unfold description_step.
  destruct (up_to_date p); simpl; [reflexivity|].
  rewrite <- app_assoc. reflexivity.
Qed.

Lemma description_writes_apply (cat : list product) :
  flat_map (write_requests (description_write true)) cat
  = map (fun p => PutProduct (p_id p) (BodyHtml (buildDescription p))) (stale cat).
Proof.
induction cat as [|p cat IH]; simpl; [reflexivity|].
rewrite IH. unfold write_requests, description_write.
destruct (up_to_date p); reflexivity.
Qed.

Lemma description_writes_preview (cat : list product) :
  flat_map (write_requests (description_write false)) cat = [].
Proof.
induction cat as [|p cat IH]; simpl; [reflexivity|].
rewrite IH. unfold write_requests, description_write.
destruct (up_to_date p); reflexivity.
Qed.

Lemma description_patched_preview (cat : list product) :
  map (patched (description_write false)) cat = cat.
Proof.
apply map_unchanged. apply Forall_forall. intros p _.
unfold patched, description_write. destruct (up_to_date p); reflexivity.
Qed.

(** A description run on a well-behaved store without failures. *)
Lemma description_run_complete (cap : nat) (apply : bool) (fuel : nat) (w : world) :
  (0 < cap)%nat ->
  ascending_from 0 (catalog w) ->
  (pages_for (List.length (catalog w)) (Nat.min 250 cap) < fuel)%nat ->
  exists w' evs pgs,
    updateAllDescriptions cap no_faults fuel apply w
    = (w', Done (if apply then Updated (List.length (stale (catalog w)))
                 else Preview (List.length (stale (catalog w)))
                              (map preview_of (stale (catalog w)))))
    /\ catalog w' = map (patched (description_write apply)) (catalog w)
    /\ events w' = events w ++ evs
    /\ visits evs = map p_id (catalog w)
    /\ writes evs = flat_map (write_requests (description_write apply)) (catalog w)
    /\ List.length (page_requests evs)
       = S (pages_for (List.length (catalog w)) (Nat.min 250 cap))
    /\ pages_served evs = pgs ++ [[]]
    /\ Forall (fun pg => pg <> []) pgs
    /\ List.concat pgs = catalog w.
Proof.
intros Hcap Hasc Hfuel.
destruct (traverse_all cap description_vars 250%nat None d_sinceId
            (description_body cap no_faults apply) (description_step apply)
            (description_write apply)
            (description_body_spec cap apply) (description_cursor apply)
            fuel [] (catalog w) {| d_sinceId := 0; updated := 0; preview := [] |} w)
  as (w' & evs & pgs & Hrun & Hrest); auto; try lia.
exists w', evs, pgs. split; [|exact Hrest].
unfold updateAllDescriptions, bind.
change (while_true fuel (description_page cap no_faults apply))
  with (while_true fuel (paged cap no_faults 250 None d_sinceId
                           (description_body cap no_faults apply))).
rewrite Hrun. unfold ret.
destruct apply.
- rewrite description_steps_apply. reflexivity.
- rewrite description_steps_preview. simpl. rewrite length_map. reflexivity.
Qed.

Lemma description_run_short (cap : nat) (apply : bool) (fuel : nat) (w : world) :
  (0 < cap)%nat ->
  ascending_from 0 (catalog w) ->
  (fuel <= pages_for (List.length (catalog w)) (Nat.min 250 cap))%nat ->
  exists w' evs,
    updateAllDescriptions cap no_faults fuel apply w = (w', Running)
    /\ events w' = events w ++ evs
    /\ Forall (fun pg => pg <> []) (pages_served evs)
    /\ incl (writes evs)
            (flat_map (write_requests (description_write apply)) (catalog w)).
Proof.
intros Hcap Hasc Hfuel.
destruct (traverse_short cap description_vars 250%nat None d_sinceId
            (description_body cap no_faults apply) (description_step apply)
            (description_write apply)
            (description_body_spec cap apply) (description_cursor apply)
            fuel [] (catalog w) {| d_sinceId := 0; updated := 0; preview := [] |} w)
  as (w' & evs & Hrun & Hrest); auto; try lia.
exists w', evs. split; [|exact Hrest].
unfold updateAllDescriptions, bind.
change (while_true fuel (description_page cap no_faults apply))
  with (while_true fuel (paged cap no_faults 250 None d_sinceId
                           (description_body cap no_faults apply))).
rewrite Hrun. reflexivity.
Qed.

Lemma hide_run_complete (cap : nat) (fuel : nat) (w : world) :
  (0 < cap)%nat ->
  ascending_from 0 (catalog w) ->
  (pages_for (List.length (catalog w)) (Nat.min 250 cap) < fuel)%nat ->
  exists w' evs pgs res,
    hideOutOfStock cap no_faults fuel w = (w', Done res)
    /\ events w' = events w ++ evs
    /\ visits evs = map p_id (catalog w)
    /\ List.length (page_requests evs)
       = S (pages_for (List.length (catalog w)) (Nat.min 250 cap))
    /\ pages_served evs = pgs ++ [[]]
    /\ Forall (fun pg => pg <> []) pgs
    /\ List.concat pgs = catalog w.
Proof.
intros Hcap Hasc Hfuel.
destruct (traverse_all cap hide_vars 250%nat hide_fields h_sinceId
            (hide_body cap no_faults) hide_step hide_write
            (hide_body_spec cap) hide_cursor
            fuel [] (catalog w) {| h_sinceId := 0; hidden := 0 |} w)
  as (w' & evs & pgs & Hrun & _ & He & Hv & _ & Hg & Hs & Hn & Hc); auto; try lia.
eexists w', evs, pgs, _. split; [|auto 10].
unfold hideOutOfStock, bind.
change (while_true fuel (hide_page cap no_faults))
  with (while_true fuel (paged cap no_faults 250 hide_fields h_sinceId
                           (hide_body cap no_faults))).
rewrite Hrun. reflexivity.
Qed.

Lemma hide_run_short (cap : nat) (fuel : nat) (w : world) :
  (0 < cap)%nat ->
  ascending_from 0 (catalog w) ->
  (fuel <= pages_for (List.length (catalog w)) (Nat.min 250 cap))%nat ->
  exists w' evs,
    hideOutOfStock cap no_faults fuel w = (w', Running)
    /\ events w' = events w ++ evs
    /\ Forall (fun pg => pg <> []) (pages_served evs)
    /\ incl (writes evs) (flat_map (write_requests hide_write) (catalog w)).
Proof.
intros Hcap Hasc Hfuel.
destruct (traverse_short cap hide_vars 250%nat hide_fields h_sinceId
            (hide_body cap no_faults) hide_step hide_write
            (hide_body_spec cap) hide_cursor
            fuel [] (catalog w) {| h_sinceId := 0; hidden := 0 |} w)
  as (w' & evs & Hrun & Hrest); auto; try lia.
exists w', evs. split; [|exact Hrest].
unfold hideOutOfStock, bind.
change (while_true fuel (hide_page cap no_faults))
  with (while_true fuel (paged cap no_faults 250 hide_fields h_sinceId
                           (hide_body cap no_faults))).
rewrite Hrun. reflexivity.
Qed.

(** ** The loop ends on an empty page, on any store *)

Lemma pageless_ret {A : Type} (a : A) : pageless (ret a).
Proof. intros w. exists []. simpl. rewrite app_nil_r. auto. Qed.

Lemma pageless_visit (i : Z) : pageless (visit i).
Proof. intros w. exists [Visited i]. auto. Qed.

Lemma pageless_write cap faults (r : request) :
  is_write r = true -> pageless (shopify cap faults r).
Proof.
intros Hr w. unfold shopify. destruct (faults (events w) r) as [f|]; simpl.
- exists [Called r (inl f)]. split; [reflexivity|]. destruct r; reflexivity.
- eexists [Called r _]. split; [reflexivity|]. destruct r; [discriminate | |]; reflexivity.
Qed.

Lemma pageless_bind {A B : Type} (m : task A) (k : A -> task B) :
  pageless m -> (forall a, pageless (k a)) -> pageless (bind m k).
Proof.
intros Hm Hk w. destruct (Hm w) as (evs1 & E1 & P1).
unfold bind. destruct (m w) as [w1 [a| e |]]; simpl in *.
- destruct (Hk a w1) as (evs2 & E2 & P2).
  exists (evs1 ++ evs2). rewrite E2, E1, app_assoc, pages_served_app, P1, P2. auto.
- exists evs1. auto.
- exists evs1. auto.
Qed.

Lemma pageless_for_of {A V : Type} (items : list A) (body : A -> V -> task V) :
  (forall x st, pageless (body x st)) -> forall st, pageless (for_of items body st).
Proof.
intros Hb. induction items as [|x items IH]; intros st; simpl.
- apply pageless_ret.
- apply pageless_bind; auto.
Qed.

(** One turn of the loop: the page read is its only page; the turn says
    [Break] exactly when that page is empty. *)
Lemma paged_turn {V : Type} cap faults (limit : nat) (fields : option ustring)
  (cursor : V -> Z) (body : product -> V -> task V) (st : V) (w : world) :
  (forall p s, pageless (body p s)) ->
  exists evs,
    events (fst (paged cap faults limit fields cursor body st w)) = events w ++ evs
    /\ match snd (paged cap faults limit fields cursor body st w) with
       | Done (Break _) => pages_served evs = [[]]
       | Done (Next _) => exists pg, pg <> [] /\ pages_served evs = [pg]
       | _ => Forall (fun pg => pg <> []) (pages_served evs)
       end.
Proof.
intros Hb. unfold paged, bind, shopify.
destruct (faults (events w) (GetProducts limit (cursor st) fields)) as [f|].
- exists [Called (GetProducts limit (cursor st) fields) (inl f)]. simpl. auto.
- set (data := serve cap (GetProducts limit (cursor st) fields) (catalog w)).
  set (w1 := {| catalog := store (GetProducts limit (cursor st) fields) (catalog w);
                events := events w ++ [Called (GetProducts limit (cursor st) fields) (inr data)] |}).
  cbv zeta. destruct (or_empty (products data)) as [|p0 ps] eqn:Hpg.
  + exists [Called (GetProducts limit (cursor st) fields) (inr data)].
    cbn [ret fst snd events pages_served flat_map app].
    rewrite Hpg. auto.
  + destruct (pageless_for_of (p0 :: ps) body Hb st w1) as (evs & He & Hp).
    exists (Called (GetProducts limit (cursor st) fields) (inr data) :: evs).
    assert (Hev : forall w2, events w2 = events w1 ++ evs ->
              events w2 = events w
                ++ Called (GetProducts limit (cursor st) fields) (inr data) :: evs).
    { intros w2 ->. unfold w1. cbn [events]. rewrite <- app_assoc. reflexivity. }
    assert (Hps : pages_served
                    (Called (GetProducts limit (cursor st) fields) (inr data) :: evs)
                  = [p0 :: ps]).
    { cbn [pages_served flat_map]. fold (pages_served evs). rewrite Hpg, Hp. reflexivity. }
    rewrite Hps.
    destruct (for_of (p0 :: ps) body st w1) as [w2 [st'| e |]];
      cbn [ret fst snd] in *.
    * split; [apply Hev; exact He|]. exists (p0 :: ps). split; [discriminate | reflexivity].
    * split; [apply Hev; exact He|]. constructor; [discriminate | constructor].
    * split; [apply Hev; exact He|]. constructor; [discriminate | constructor].
Qed.

Lemma paged_loop {V : Type} cap faults (limit : nat) (fields : option ustring)
  (cursor : V -> Z) (body : product -> V -> task V) (fuel : nat) :
  (forall p s, pageless (body p s)) ->
  forall st, stops_on_empty_page (while_true fuel (paged cap faults limit fields cursor body) st).
Proof.
intros Hb. induction fuel as [|fuel IH]; intros st w.
- exists []. simpl. rewrite app_nil_r. split; [reflexivity | constructor].
- destruct (paged_turn cap faults limit fields cursor body st w Hb) as (evs1 & E1 & T1).
  simpl. unfold bind.
  destruct (paged cap faults limit fields cursor body st w) as [w1 [[st'|st']| e |]];
    simpl in *.
  + destruct (IH st' w1) as (evs2 & E2 & T2).
    destruct T1 as (pg & Hpg & P1).
    exists (evs1 ++ evs2). rewrite E2, E1, app_assoc. split; [reflexivity|].
    unfold ends_on_empty_page in *. rewrite pages_served_app, P1.
    destruct (snd (while_true fuel _ st' w1)).
    * destruct T2 as (pgs & Hs & Hn). exists (pg :: pgs). rewrite Hs. split; auto.
    * simpl. constructor; assumption.
    * simpl. constructor; assumption.
  + exists evs1. split; [exact E1|]. exists []. rewrite T1. split; [reflexivity | constructor].
  + exists evs1. auto.
  + exists evs1. auto.
Qed.

Lemma stops_then_ret {A B : Type} (m : task A) (f : A -> B) :
  stops_on_empty_page m -> stops_on_empty_page (bind m (fun a => ret (f a))).
Proof.
intros Hm w. destruct (Hm w) as (evs & E & T). exists evs.
unfold bind. destruct (m w) as [w1 [a| e |]]; simpl in *; auto.
Qed.

Lemma run_stops_on_empty_page cap faults (op : operation) (fuel : nat) :
  stops_on_empty_page (run cap faults op fuel).
Proof.
destruct op as [apply| |percent]; simpl.
- unfold updateAllDescriptions.
  apply (stops_then_ret _ (fun st : description_vars =>
           if apply then Updated (updated st)
           else Preview (List.length (preview st)) (preview st))).
  apply (paged_loop cap faults 250 None d_sinceId (description_body cap faults apply)).
  intros q s. unfold description_body.
  apply pageless_bind; [apply pageless_visit|]. intros _.
  destruct (up_to_date q); [apply pageless_ret|].
  destruct apply; [|apply pageless_ret].
  apply pageless_bind; [apply pageless_write; reflexivity | intros; apply pageless_ret].
- unfold hideOutOfStock.
  apply (stops_then_ret _ (fun st : hide_vars => Hidden (hidden st))).
  apply (paged_loop cap faults 250 hide_fields h_sinceId (hide_body cap faults)).
  intros q s. unfold hide_body.
  apply pageless_bind; [apply pageless_visit|]. intros _.
  destruct (must_hide q); [|apply pageless_ret].
  apply pageless_bind; [apply pageless_write; reflexivity | intros; apply pageless_ret].
- unfold simpleReprice.
  apply (stops_then_ret _ (fun st : reprice_vars => Changed (changed st))).
  apply (paged_loop cap faults 100 reprice_fields r_sinceId
           (reprice_body cap faults (factor_of percent))).
  intros q s. unfold reprice_body.
  apply pageless_bind; [apply pageless_visit|]. intros _.
  apply pageless_bind; [|intros; apply pageless_ret].
  apply pageless_for_of. intros v c. unfold reprice_variant_body.
  destruct (negb (isFinite _)); [apply pageless_ret|].
  destruct (negb (eqb _ _)); [|apply pageless_ret].
  apply pageless_bind; [apply pageless_write; reflexivity | intros; apply pageless_ret].
Qed.

(** On any store, with or without failures, a run has ended exactly when
    an empty page has come back. *)
Lemma run_ends_iff_empty_page cap faults (op : operation) (fuel : nat) (w : world) :
  (exists res, snd (run cap faults op fuel w) = Done res)
  <-> In [] (pages_served (issued w (fst (run cap faults op fuel w)))).
Proof.
destruct (run_stops_on_empty_page cap faults op fuel w) as (evs & E & T).
rewrite (issued_app _ _ _ E). unfold ends_on_empty_page in T.
destruct (snd (run cap faults op fuel w)) as [res| e |].
- destruct T as (pgs & Hs & _). split; [|eauto].
  intros _. rewrite Hs. apply in_or_app. right. left. reflexivity.
- split; [intros [res H]; discriminate|].
  intros Hin. rewrite Forall_forall in T. exfalso. exact (T _ Hin eq_refl).
- split; [intros [res H]; discriminate|].
  intros Hin. rewrite Forall_forall in T. exfalso. exact (T _ Hin eq_refl).
Qed.

(** ** Pagination (C5) *)

(** [pages_for n p] is the ceiling of [n / p]. *)
Lemma pages_for_ceiling (n p : nat) :
  (0 < p)%nat -> (n <= pages_for n p * p < n + p)%nat.
Proof.
intros Hp. unfold pages_for.
pose proof (Nat.div_mod_eq (n + p - 1) p) as E.
pose proof (Nat.mod_upper_bound (n + p - 1) p ltac:(lia)) as B.
nia.
Qed.

Lemma traversal_summary (w : world) (result : world * outcome run_result)
  (cat : list product) (pages fuel : nat) :
  ((pages < fuel)%nat ->
   exists w' evs pgs res,
     result = (w', Done res)
     /\ events w' = events w ++ evs
     /\ visits evs = map p_id cat
     /\ List.length (page_requests evs) = S pages
     /\ pages_served evs = pgs ++ [[]]
     /\ Forall (fun pg => pg <> []) pgs
     /\ List.concat pgs = cat) ->
  ((fuel <= pages)%nat ->
   exists w' evs,
     result = (w', Running)
     /\ events w' = events w ++ evs
     /\ Forall (fun pg => pg <> []) (pages_served evs)) ->
  NoDup (map p_id cat) ->
  ((exists res, snd result = Done res) <-> In [] (pages_served (issued w (fst result))))
  /\ ((exists res, snd result = Done res) <-> (pages < fuel)%nat)
  /\ ((pages < fuel)%nat ->
      visits (issued w (fst result)) = map p_id cat
      /\ NoDup (visits (issued w (fst result)))
      /\ List.length (page_requests (issued w (fst result))) = S pages
      /\ exists pgs,
           pages_served (issued w (fst result)) = pgs ++ [[]]
           /\ Forall (fun pg => pg <> []) pgs
           /\ List.concat pgs = cat).
Proof.
intros Hall Hshort Hnd.
destruct (Nat.lt_ge_cases pages fuel) as [Hlt|Hge].
- destruct (Hall Hlt) as (w' & evs & pgs & res & -> & He & Hv & Hg & Hs & Hn & Hc).
  simpl. rewrite (issued_app _ _ _ He).
  split; [|split].
  + split; [|intros _; eauto]. intros _. rewrite Hs. apply in_or_app. right. left. reflexivity.
  + split; [auto | intros _; eauto].
  + intros _. rewrite Hv. repeat split; auto. exists pgs. auto.
- destruct (Hshort Hge) as (w' & evs & -> & He & Hn).
  simpl. rewrite (issued_app _ _ _ He).
  split; [|split].
  + split; [intros [res Hres]; discriminate|].
    intros Hin. rewrite Forall_forall in Hn. exfalso. exact (Hn _ Hin eq_refl).
  + split; [intros [res Hres]; discriminate | lia].
  + lia.
Qed.



(** ** Runs that write nothing *)

Lemma silent_ret {A : Type} (ok : list product -> Prop) (R : A -> Prop) (a : A) :
  R a -> silent ok R (ret a).
Proof.
intros Ha w _. simpl. split; [reflexivity|]. split.
- exists []. rewrite app_nil_r. auto.
- intros a' H. inversion H. subst. exact Ha.
Qed.

Lemma silent_visit (ok : list product -> Prop) (i : Z) :
  silent ok (fun _ => True) (visit i).
Proof.
intros w _. simpl. split; [reflexivity|]. split; [|auto].
exists [Visited i]. auto.
Qed.

Lemma page_in_catalog (cap limit : nat) (c : Z) (cat : list product) (p : product) :
  In p (page cap limit c cat) -> In p cat.
Proof.
unfold page. intros H.
assert (Hin : In p (filter (fun q => c <? p_id q) cat)).
{ rewrite <- (firstn_skipn (Nat.min limit cap)). apply in_or_app. left. exact H. }
apply filter_In in Hin. apply Hin.
Qed.

Lemma silent_get (cap : nat) (faults : list event -> request -> option fault)
  (ok : list product -> Prop) (limit : nat) (c : Z) (fields : option ustring) :
  silent ok
    (fun data => forall p, In p (or_empty (products data)) ->
                 exists cat', ok cat' /\ In p cat')
    (shopify cap faults (GetProducts limit c fields)).
Proof.
intros w Hok. unfold shopify.
destruct (faults (events w) (GetProducts limit c fields)) as [f|]; simpl.
- split; [reflexivity|]. split; [eexists; split; [reflexivity | reflexivity]|].
  intros a H. discriminate.
- split; [reflexivity|]. split; [eexists; split; [reflexivity | reflexivity]|].
  intros a H. inversion H. subst. simpl. intros p Hp.
  exists (catalog w). split; [exact Hok|]. eapply page_in_catalog. exact Hp.
Qed.

Lemma silent_bind {A B : Type} (ok : list product -> Prop)
  (R : A -> Prop) (R' : B -> Prop) (m : task A) (k : A -> task B) :
  silent ok R m -> (forall a, R a -> silent ok R' (k a)) -> silent ok R' (bind m k).
Proof.
intros Hm Hk w Hok. destruct (Hm w Hok) as (Hc & (evs & He & Hw) & HR).
unfold bind. destruct (m w) as [w1 [a| e |]]; simpl in *.
- assert (Hok1 : ok (catalog w1)) by (rewrite Hc; exact Hok).
  destruct (Hk a (HR a eq_refl) w1 Hok1) as (Hc2 & (evs2 & He2 & Hw2) & HR2).
  split; [congruence|]. split; [|exact HR2].
  exists (evs ++ evs2). rewrite He2, He, app_assoc, writes_app, Hw, Hw2. auto.
- split; [exact Hc|]. split; [eauto|]. intros b H. discriminate.
- split; [exact Hc|]. split; [eauto|]. intros b H. discriminate.
Qed.

Lemma silent_for_of {A V : Type} (ok : list product -> Prop)
  (items : list A) (body : A -> V -> task V) :
  (forall x st, In x items -> silent ok (fun _ => True) (body x st)) ->
  forall st, silent ok (fun _ => True) (for_of items body st).
Proof.
induction items as [|x items IH]; intros Hb st; simpl.
- apply silent_ret. exact I.
- apply (silent_bind ok (fun _ => True)).
  + apply Hb. left. reflexivity.
  + intros st' _. apply IH. intros y s Hy. apply Hb. right. exact Hy.
Qed.

Lemma silent_while_true {V : Type} (ok : list product -> Prop)
  (fuel : nat) (body : V -> task (flow V)) :
  (forall st, silent ok (fun _ => True) (body st)) ->
  forall st, silent ok (fun _ => True) (while_true fuel body st).
Proof.
intros Hb. induction fuel as [|fuel IH]; intros st; simpl.
- intros w _. simpl. split; [reflexivity|]. split.
  + exists []. rewrite app_nil_r. auto.
  + intros a H. discriminate.
- apply (silent_bind ok (fun _ => True)); [apply Hb|].
  intros [st'|st'] _; [apply IH | apply silent_ret; exact I].
Qed.

(** A dry run never writes, whatever the store does. *)
Lemma dry_run_writes_nothing
  (cap : nat) (faults : list event -> request -> option fault)
  (fuel : nat) (w : world) :
  writes (issued w (fst (updateAllDescriptions cap faults fuel false w))) = []
  /\ catalog (fst (updateAllDescriptions cap faults fuel false w)) = catalog w.
Proof.
assert (H : silent (fun _ => True) (fun _ => True)
              (updateAllDescriptions cap faults fuel false)).
{ unfold updateAllDescriptions.
  apply (silent_bind _ (fun _ => True)); [|intros; apply silent_ret; exact I].
  apply silent_while_true. intros st. unfold description_page.
  eapply silent_bind; [apply silent_get|]. intros data _.
  destruct (or_empty (products data)) as [|p0 ps]; [apply silent_ret; exact I|].
  apply (silent_bind _ (fun _ => True)); [|intros; apply silent_ret; exact I].
  apply silent_for_of. intros q s _. unfold description_body.
  apply (silent_bind _ (fun _ => True)); [apply silent_visit|]. intros _ _.
  destruct (up_to_date q); apply silent_ret; exact I. }
destruct (H w I) as (Hc & (evs & He & Hw) & _).
rewrite (issued_app _ _ _ He). auto.
Qed.

(** ** Preview and apply (C6) *)



(** ** Running the description rewrite twice (C7) *)

Lemma buildDescription_set_body_html (h : ustring) (p : product) :
  buildDescription (set_body_html h p) = buildDescription p.
Proof. reflexivity. Qed.

Lemma or_string_some (s : ustring) : or_string (Some s) [] = s.
Proof. destruct s; reflexivity. Qed.

(** What the code writes passes the code's own test. *)
Lemma up_to_date_after_write (p : product) :
  up_to_date (set_body_html (buildDescription p) p) = true.
Proof.
unfold up_to_date, cur_key, next_key.
rewrite buildDescription_set_body_html. simpl body_html.
rewrite or_string_some. unfold buildDescription at 1.
rewrite trim_idem. apply ustring_eqb_refl.
Qed.

Lemma up_to_date_patched (p : product) :
  up_to_date (patched (description_write true) p) = true.
Proof.
unfold patched, description_write.
destruct (up_to_date p) eqn:E; [exact E|].
simpl. apply up_to_date_after_write.
Qed.

Lemma stale_after_apply (cat : list product) :
  stale (map (patched (description_write true)) cat) = [].
Proof.
unfold stale. apply filter_none. apply Forall_forall. intros q Hq.
apply in_map_iff in Hq. destruct Hq as (p & <- & _).
rewrite up_to_date_patched. reflexivity.
Qed.

Lemma ascending_map (f : product -> product) (cat : list product) :
  (forall p, p_id (f p) = p_id p) ->
  forall c, ascending_from c cat -> ascending_from c (map f cat).
Proof.
intros Hf. induction cat as [|p cat IH]; intros c H; simpl; [exact I|].
destruct H as [Hc H]. rewrite Hf. split; [exact Hc | apply IH; exact H].
Qed.

Lemma incl_nil_eq {A : Type} (l : list A) : incl l [] -> l = [].
Proof.
destruct l as [|x l]; [reflexivity|]. intros H. destruct (H x (or_introl eq_refl)).
Qed.



(** ** Numbers: what rounding to binary64 returns *)

Lemma fexp_eq (x : Z) : fexp prec emax x = Z.max (x - 53) (-1074).
Proof. reflexivity. Qed.

Lemma digits2_bounds (p : positive) :
  2 ^ (Z.pos (digits2_pos p) - 1) <= Z.pos p < 2 ^ Z.pos (digits2_pos p).
Proof.
induction p as [p IH|p IH|]; simpl digits2_pos.
- rewrite Pos2Z.inj_succ, (Pos2Z.inj_xI p).
  replace (Z.succ (Z.pos (digits2_pos p)) - 1) with (Z.succ (Z.pos (digits2_pos p) - 1)) by lia.
  rewrite !Z.pow_succ_r by lia. lia.
- rewrite Pos2Z.inj_succ, (Pos2Z.inj_xO p).
  replace (Z.succ (Z.pos (digits2_pos p)) - 1) with (Z.succ (Z.pos (digits2_pos p) - 1)) by lia.
  rewrite !Z.pow_succ_r by lia. lia.
- simpl. lia.
Qed.

Lemma Zdigits2_bounds (m : Z) :
  0 < m -> 2 ^ (Zdigits2 m - 1) <= m < 2 ^ Zdigits2 m.
Proof.
destruct m as [|p|p]; try lia. intros _. apply digits2_bounds.
Qed.

Lemma Zdigits2_pos (m : Z) : 0 < m -> 0 < Zdigits2 m.
Proof. destruct m; simpl; lia. Qed.

Lemma Zdigits2_unique (m k : Z) :
  0 < k -> 2 ^ (k - 1) <= m < 2 ^ k -> Zdigits2 m = k.
Proof.
intros Hk [Hlo Hhi].
assert (Hm : 0 < m) by (pose proof (Z.pow_pos_nonneg 2 (k - 1)); lia).
pose proof (Zdigits2_bounds m Hm) as [Hlo' Hhi'].
pose proof (Zdigits2_pos m Hm) as Hd.
destruct (Z.lt_trichotomy (Zdigits2 m) k) as [Hlt | [Heq | Hgt]]; [|exact Heq|].
- pose proof (Z.pow_le_mono_r 2 (Zdigits2 m) (k - 1)). lia.
- pose proof (Z.pow_le_mono_r 2 k (Zdigits2 m - 1)). lia.
Qed.

Lemma Zdigits2_mul_pow2 (m k : Z) :
  0 < m -> 0 <= k -> Zdigits2 (m * 2 ^ k) = Zdigits2 m + k.
Proof.
intros Hm Hk. pose proof (Zdigits2_bounds m Hm) as [Hlo Hhi].
pose proof (Zdigits2_pos m Hm) as Hd.
apply Zdigits2_unique; [lia|].
replace (Zdigits2 m + k - 1) with ((Zdigits2 m - 1) + k) by lia.
rewrite !Z.pow_add_r by lia.
pose proof (Z.pow_pos_nonneg 2 k). nia.
Qed.

Lemma Zdigits2_div_pow2 (m n : Z) :
  0 < m -> 0 <= n -> n < Zdigits2 m -> Zdigits2 (m / 2 ^ n) = Zdigits2 m - n.
Proof.
intros Hm Hn Hlt. pose proof (Zdigits2_bounds m Hm) as [Hlo Hhi].
pose proof (Z.pow_pos_nonneg 2 n ltac:(lia) Hn) as Hp.
apply Zdigits2_unique; [lia|]. split.
- apply Z.div_le_lower_bound; [lia|].
  rewrite <- Z.pow_add_r by lia.
  replace (n + (Zdigits2 m - n - 1)) with (Zdigits2 m - 1) by lia. exact Hlo.
- apply Z.div_lt_upper_bound; [lia|].
  rewrite <- Z.pow_add_r by lia.
  replace (n + (Zdigits2 m - n)) with (Zdigits2 m) by lia. exact Hhi.
Qed.

Lemma Zdigits2_mono (a b : Z) : 0 < a -> a <= b -> Zdigits2 a <= Zdigits2 b.
Proof.
intros Ha Hab.
pose proof (Zdigits2_bounds a Ha) as [Hlo _].
pose proof (Zdigits2_bounds b ltac:(lia)) as [_ Hhi].
destruct (Z.le_gt_cases (Zdigits2 a) (Zdigits2 b)) as [H|H]; [exact H|].
pose proof (Z.pow_le_mono_r 2 (Zdigits2 b) (Zdigits2 a - 1)).
pose proof (Zdigits2_pos b ltac:(lia)). lia.
Qed.

Lemma shr_1_m (mrs : shr_record) :
  0 <= shr_m mrs -> shr_m (shr_1 mrs) = shr_m mrs / 2.
Proof.
destruct mrs as [m r s]. simpl. intros Hm.
destruct m as [|[p|p|]|p]; simpl; try lia; try reflexivity.
- rewrite (Pos2Z.inj_xI p). apply (Z.div_unique _ 2 _ 1); lia.
- rewrite (Pos2Z.inj_xO p). apply (Z.div_unique _ 2 _ 0); lia.
Qed.

Lemma iter_shr_m (p : positive) :
  forall mrs, 0 <= shr_m mrs ->
    shr_m (iter_pos shr_1 p mrs) = shr_m mrs / 2 ^ Z.pos p.
Proof.
induction p as [p IH|p IH|]; intros mrs Hm; simpl iter_pos.
- assert (H1 : 0 <= shr_m (shr_1 mrs))
    by (rewrite shr_1_m by exact Hm; apply Z.div_pos; lia).
  assert (H2 : 0 <= shr_m (iter_pos shr_1 p (shr_1 mrs)))
    by (rewrite IH by exact H1; apply Z.div_pos; [lia | apply Z.pow_pos_nonneg; lia]).
  rewrite IH by exact H2. rewrite IH by exact H1. rewrite shr_1_m by exact Hm.
  rewrite !Z.div_div by (try apply Z.pow_pos_nonneg; lia).
  rewrite (Pos2Z.inj_xI p). f_equal.
  replace (2 * Z.pos p + 1) with (1 + Z.pos p + Z.pos p) by lia.
  rewrite !Z.pow_add_r by lia. simpl (2 ^ 1). lia.
- assert (H2 : 0 <= shr_m (iter_pos shr_1 p mrs))
    by (rewrite IH by exact Hm; apply Z.div_pos; [lia | apply Z.pow_pos_nonneg; lia]).
  rewrite IH by exact H2. rewrite IH by exact Hm.
  rewrite !Z.div_div by (try apply Z.pow_pos_nonneg; lia).
  rewrite (Pos2Z.inj_xO p). f_equal.
  replace (2 * Z.pos p) with (Z.pos p + Z.pos p) by lia.
  rewrite !Z.pow_add_r by lia. reflexivity.
- rewrite shr_1_m by exact Hm. reflexivity.
Qed.

(** Shifting right by [n >= 0] places: the mantissa is divided, the
    exponent raised. *)
Lemma shr_spec (mrs : shr_record) (e n : Z) :
  0 <= shr_m mrs -> 0 <= n ->
  shr_m (fst (shr mrs e n)) = shr_m mrs / 2 ^ n /\ snd (shr mrs e n) = e + n.
Proof.
intros Hm Hn. destruct n as [|p|p]; try lia; simpl.
- rewrite Z.div_1_r. split; [reflexivity | lia].
- split; [apply iter_shr_m; exact Hm | reflexivity].
Qed.

Lemma shr_record_of_loc_m (m : Z) (l : location) : shr_m (shr_record_of_loc m l) = m.
Proof. destruct l as [|[| |]]; reflexivity. Qed.

Lemma round_nearest_even_bounds (m : Z) (l : location) :
  m <= round_nearest_even m l <= m + 1.
Proof.
unfold round_nearest_even. destruct l as [|[| |]]; try lia.
destruct (Z.even m); lia.
Qed.

Lemma shr_zero (mrs : shr_record) (e n : Z) :
  shr_m mrs = 0 -> shr_m (fst (shr mrs e n)) = 0.
Proof.
intros Hm. destruct n as [|p|p]; simpl; try exact Hm.
rewrite iter_shr_m by lia. rewrite Hm. apply Z.div_0_l.
pose proof (Z.pow_pos_nonneg 2 (Z.pos p)). lia.
Qed.

(** A mantissa that is not shorter than its exponent allows comes out of
    rounding as a well-formed binary64 value. *)
Lemma round_aux_valid (s : bool) (m e : Z) (l : location) :
  0 <= m -> e <= fexp prec emax (Zdigits2 m + e) ->
  valid_binary prec emax (binary_round_aux prec emax s m e l) = true.
Proof.
intros Hm He. unfold binary_round_aux, shr_fexp.
set (n := fexp prec emax (Zdigits2 m + e) - e).
assert (Hn : 0 <= n) by (unfold n; lia).
pose proof (shr_spec (shr_record_of_loc m l) e n) as H1.
rewrite shr_record_of_loc_m in H1. specialize (H1 Hm Hn).
destruct (shr (shr_record_of_loc m l) e n) as [mrs1 e1]. simpl in H1.
destruct H1 as [Hm1 He1].
set (m1 := round_nearest_even (shr_m mrs1) (loc_of_shr_record mrs1)).
pose proof (round_nearest_even_bounds (shr_m mrs1) (loc_of_shr_record mrs1)) as Hr.
fold m1 in Hr. rewrite Hm1 in Hr.
assert (Hq : 0 <= m / 2 ^ n) by (apply Z.div_pos; [lia | apply Z.pow_pos_nonneg; lia]).
set (n2 := fexp prec emax (Zdigits2 m1 + e1) - e1).
destruct (Z.eq_dec m1 0) as [Hz|Hnz].
- pose proof (shr_zero (shr_record_of_loc m1 loc_Exact) e1 n2) as H2.
  rewrite shr_record_of_loc_m in H2. specialize (H2 Hz).
  destruct (shr (shr_record_of_loc m1 loc_Exact) e1 n2) as [mrs2 e2]. simpl in H2.
  rewrite H2. reflexivity.
- assert (Hpos : 0 < m1) by lia.
  assert (Hn2 : 0 <= n2).
  { unfold n2. rewrite He1. unfold n.
    replace (e + (fexp prec emax (Zdigits2 m + e) - e))
      with (fexp prec emax (Zdigits2 m + e)) by lia.
    rewrite !fexp_eq.
    assert (Hd : Zdigits2 m - n <= Zdigits2 m1).
    { destruct (Z.lt_ge_cases n (Zdigits2 m)) as [Hlt|Hge].
      - assert (Hmp : 0 < m) by (destruct m; simpl in Hlt; lia).
        rewrite <- (Zdigits2_div_pow2 m n Hmp Hn Hlt).
        assert (Hqp : 0 < m / 2 ^ n).
        { pose proof (Zdigits2_bounds m Hmp) as [Hlo _].
          apply Z.div_str_pos. split; [apply Z.pow_pos_nonneg; lia|].
          pose proof (Z.pow_le_mono_r 2 n (Zdigits2 m - 1)). lia. }
        apply Zdigits2_mono; lia.
      - pose proof (Zdigits2_pos m1 Hpos). lia. }
    unfold n in Hd. rewrite fexp_eq in Hd. lia. }
  pose proof (shr_spec (shr_record_of_loc m1 loc_Exact) e1 n2) as H2.
  rewrite shr_record_of_loc_m in H2. specialize (H2 ltac:(lia) Hn2).
  destruct (shr (shr_record_of_loc m1 loc_Exact) e1 n2) as [mrs2 e2]. simpl in H2.
  destruct H2 as [Hm2 He2].
  destruct (shr_m mrs2) as [|p|p] eqn:Hp; try reflexivity.
  destruct (e2 <=? emax - prec) eqn:Hle; [|reflexivity].
  simpl. unfold bounded. rewrite Hle, andb_true_r.
  unfold canonical_mantissa. apply Z.eqb_eq.
  change (Z.pos (digits2_pos p)) with (Zdigits2 (Z.pos p)).
  rewrite Hm2.
  assert (Hlt : n2 < Zdigits2 m1).
  { destruct (Z.lt_ge_cases n2 (Zdigits2 m1)) as [H|H]; [exact H|]. exfalso.
    pose proof (Zdigits2_bounds m1 Hpos) as [_ Hhi].
    pose proof (Z.pow_le_mono_r 2 (Zdigits2 m1) n2 ltac:(lia) H).
    rewrite Z.div_small in Hm2 by lia. discriminate. }
  rewrite (Zdigits2_div_pow2 m1 n2 Hpos Hn2 Hlt), He2.
  replace (Zdigits2 m1 - n2 + (e1 + n2)) with (Zdigits2 m1 + e1) by lia.
  unfold n2. lia.
Qed.

Lemma iter_xO_pow2 (d : positive) (m : positive) :
  Z.pos (Pos.iter xO m d) = Z.pos m * 2 ^ Z.pos d.
Proof.
induction d as [|d IH] using Pos.peano_ind.
- simpl. lia.
- rewrite Pos.iter_succ, Pos2Z.inj_succ, Z.pow_succ_r by lia.
  rewrite (Pos2Z.inj_xO (Pos.iter xO m d)), IH. lia.
Qed.

Lemma binary_round_valid (s : bool) (m : positive) (e : Z) :
  valid_binary prec emax (binary_round prec emax s m e) = true.
Proof.
unfold binary_round, shl_align.
destruct (fexp prec emax (Z.pos (digits2_pos m) + e) - e) as [|d|d] eqn:Hd.
- apply round_aux_valid; [lia|]. simpl Zdigits2. lia.
- apply round_aux_valid; [lia|]. simpl Zdigits2. lia.
- apply round_aux_valid; [lia|].
  rewrite iter_xO_pow2.
  rewrite (Zdigits2_mul_pow2 (Z.pos m) (Z.pos d)) by lia.
  simpl (Zdigits2 (Z.pos m)).
  replace (Z.pos (digits2_pos m) + Z.pos d + fexp prec emax (Z.pos (digits2_pos m) + e))
    with (Z.pos (digits2_pos m) + e) by lia.
  lia.
Qed.

Lemma binary_normalize_valid (m e : Z) (s : bool) :
  valid_binary prec emax (binary_normalize prec emax m e s) = true.
Proof.
destruct m; simpl; [reflexivity | apply binary_round_valid | apply binary_round_valid].
Qed.

Lemma Zdigits2_pow2 (t : Z) : 0 <= t -> Zdigits2 (2 ^ t) = t + 1.
Proof.
intros Ht. apply Zdigits2_unique; [lia|].
replace (t + 1 - 1) with t by lia.
rewrite Z.pow_add_r by lia. pose proof (Z.pow_pos_nonneg 2 t). lia.
Qed.

Lemma shift_for_division (m s : Z) :
  0 <= s ->
  match s with Z.pos _ => Z.shiftl m s | 0 => m | Z.neg _ => 0 end = m * 2 ^ s.
Proof.
intros Hs. destruct s as [|p|p]; try lia.
apply Z.shiftl_mul_pow2. lia.
Qed.

(** The quotient that division prepares for rounding is long enough. *)
Lemma div_core_ready (m den : Z) :
  0 < m -> 0 < den ->
  let '(q, e, _) := SFdiv_core_binary prec emax m 0 den 0 in
  0 <= q /\ e <= fexp prec emax (Zdigits2 q + e).
Proof.
intros Hm Hden. unfold SFdiv_core_binary.
set (d1 := Zdigits2 m). set (d2 := Zdigits2 den).
set (e' := Z.min (fexp prec emax (d1 + 0 - (d2 + 0))) (0 - 0)).
set (s := 0 - 0 - e').
assert (Hs : 0 <= s) by (unfold s, e'; lia).
set (m' := match s with Z.pos _ => Z.shiftl m s | 0 => m | Z.neg _ => 0 end).
assert (Hm' : m' = m * 2 ^ s) by (apply shift_for_division; exact Hs).
assert (He' : e' = Z.min (Z.max (d1 - d2 - 53) (-1074)) 0)
  by (unfold e'; rewrite fexp_eq; lia).
assert (Hsd : s = - e') by (unfold s; lia).
clearbody m' s e'.
pose proof (Z_div_mod m' den ltac:(lia)) as Hdm.
unfold Z.div_eucl in *. fold (Z.div_eucl m' den) in *.
destruct (Z.div_eucl m' den) as [q r]. destruct Hdm as [Heq Hr].
pose proof (Zdigits2_bounds m Hm) as [Hmlo Hmhi]. fold d1 in Hmlo, Hmhi.
pose proof (Zdigits2_bounds den Hden) as [Hdlo Hdhi]. fold d2 in Hdlo, Hdhi.
pose proof (Zdigits2_pos m Hm) as Hd1. fold d1 in Hd1.
pose proof (Zdigits2_pos den Hden) as Hd2. fold d2 in Hd2.
pose proof (Z.pow_pos_nonneg 2 s ltac:(lia) Hs) as Hps.
assert (Hq : 0 <= q) by nia.
split; [exact Hq|].
assert (Hlong : forall t, 0 <= t -> t = d1 + s - d2 - 1 -> 2 ^ t <= q).
{ intros t Ht Htd.
  assert (H1 : 2 ^ t * 2 ^ d2 = 2 ^ (d1 - 1) * 2 ^ s).
  { rewrite <- !Z.pow_add_r by lia. f_equal. lia. }
  pose proof (Z.pow_pos_nonneg 2 t ltac:(lia) Ht) as Hpt.
  destruct (Z.le_gt_cases (2 ^ t) q) as [H|H]; [exact H|]. exfalso.
  assert (q + 1 <= 2 ^ t) by lia.
  assert (m' < 2 ^ t * den) by nia.
  nia. }
rewrite !fexp_eq.
destruct (Z.eq_dec q 0) as [Hz|Hnz].
- subst q. simpl Zdigits2.
  assert (Hsm : m' < den) by lia.
  assert (Hpow : 2 ^ (d1 - 1 + s) < 2 ^ d2).
  { rewrite Z.pow_add_r by lia. nia. }
  assert (d1 - 1 + s < d2).
  { destruct (Z.lt_ge_cases (d1 - 1 + s) d2) as [H|H]; [exact H|].
    pose proof (Z.pow_le_mono_r 2 d2 (d1 - 1 + s) ltac:(lia) H). lia. }
  lia.
- assert (Hqpos : 0 < q) by lia.
  assert (Hdq : d1 + s - d2 <= Zdigits2 q).
  { destruct (Z.le_gt_cases 0 (d1 + s - d2 - 1)) as [Ht|Ht].
    - pose proof (Hlong (d1 + s - d2 - 1) Ht eq_refl) as Hle.
      pose proof (Zdigits2_mono (2 ^ (d1 + s - d2 - 1)) q
                    ltac:(apply Z.pow_pos_nonneg; lia) Hle) as Hmono.
      rewrite Zdigits2_pow2 in Hmono by lia. lia.
    - pose proof (Zdigits2_pos q Hqpos). lia. }
  lia.
Qed.

Lemma of_decimal_valid (sign : bool) (nd m k : Z) :
  0 <= m -> valid_binary prec emax (of_decimal sign nd m k) = true.
Proof.
intros Hm. unfold of_decimal.
destruct (m =? 0) eqn:Hz; [reflexivity|]. apply Z.eqb_neq in Hz.
destruct (310 <? k); [reflexivity|].
destruct (nd + k <? -330); [reflexivity|].
destruct (0 <=? k) eqn:Hk.
- apply binary_normalize_valid.
- apply Z.leb_gt in Hk.
  pose proof (div_core_ready m (10 ^ (- k)) ltac:(lia)
                ltac:(apply Z.pow_pos_nonneg; lia)) as H.
  destruct (SFdiv_core_binary prec emax m 0 (10 ^ (- k)) 0) as [[q e] l].
  destruct H as [Hq He]. apply round_aux_valid; assumption.
Qed.

Lemma read_digits_nonneg (s : ustring) :
  forall len acc, 0 <= acc -> 0 <= snd (fst (read_digits s len acc)).
Proof.
induction s as [|c s IH]; intros len acc Hacc; [exact Hacc|].
cbn [read_digits]. destruct (is_digit c) eqn:Hc; [|exact Hacc].
apply IH. unfold is_digit in Hc. apply andb_true_iff in Hc.
destruct Hc as [Hlo _]. apply N.leb_le in Hlo. lia.
Qed.

(** Whatever the string, [parseFloat] returns a well-formed binary64
    value. *)
Lemma parseFloat_valid (s : ustring) :
  valid_binary prec emax (parseFloat s) = true.
Proof.
unfold parseFloat.
set (s0 := trimStart s).
destruct (match s0 with
          | 43%N :: r => (false, r)
          | 45%N :: r => (true, r)
          | _ => (false, s0)
          end) as [sign s1].
destruct (starts_with (u "Infinity") s1); [reflexivity|].
pose proof (read_digits_nonneg s1 0 0 ltac:(lia)) as H1.
destruct (read_digits s1 0 0) as [[ilen ival] s2]. simpl in H1.
assert (H2 : 0 <= snd (fst (match s2 with
                            | 46%N :: r => read_digits r ilen ival
                            | _ => (ilen, ival, s2)
                            end))).
{ destruct s2 as [|c r]; [exact H1|].
  destruct c as [|p]; [exact H1|].
  do 6 (try destruct p as [p|p|]);
    first [exact H1 | apply read_digits_nonneg; exact H1]. }
destruct (match s2 with
          | 46%N :: r => read_digits r ilen ival
          | _ => (ilen, ival, s2)
          end) as [[len val] s3]. simpl in H2.
destruct (len =? 0); [reflexivity|].
apply of_decimal_valid. exact H2.
Qed.

Lemma zero_percent_factor :
  factor_of (of_Z 0) = S754_finite false 4503599627370496 (-52).
Proof. reflexivity. Qed.

Lemma iter_shr_exact (p : positive) :
  forall m, 0 <= m ->
    iter_pos shr_1 p (Build_shr_record (m * 2 ^ Z.pos p) false false)
    = Build_shr_record m false false.
Proof.
assert (Hone : forall m, 0 <= m ->
          shr_1 (Build_shr_record (2 * m) false false) = Build_shr_record m false false).
{ intros m Hm. destruct m as [|q|q]; try lia; reflexivity. }
induction p as [p IH|p IH|]; intros m Hm; cbn [iter_pos].
- rewrite (Pos2Z.inj_xI p).
  replace (m * 2 ^ (2 * Z.pos p + 1)) with (2 * (m * 2 ^ Z.pos p * 2 ^ Z.pos p))
    by (replace (2 * Z.pos p + 1) with (Z.pos p + Z.pos p + 1) by lia;
        rewrite !Z.pow_add_r by lia; rewrite Z.pow_1_r; ring).
  pose proof (Z.pow_pos_nonneg 2 (Z.pos p)) as Hp.
  rewrite Hone by nia. rewrite IH by nia. apply IH. exact Hm.
- rewrite (Pos2Z.inj_xO p).
  replace (m * 2 ^ (2 * Z.pos p)) with (m * 2 ^ Z.pos p * 2 ^ Z.pos p)
    by (replace (2 * Z.pos p) with (Z.pos p + Z.pos p) by lia;
        rewrite Z.pow_add_r by lia; ring).
  pose proof (Z.pow_pos_nonneg 2 (Z.pos p)) as Hp.
  rewrite IH by nia. apply IH. exact Hm.
- rewrite Z.pow_1_r, Z.mul_comm. apply Hone. exact Hm.
Qed.

(** A well-formed value written with [k] more low zero bits rounds back
    to itself. *)
Lemma round_aux_exact (s : bool) (m : positive) (e k mk : Z) :
  bounded prec emax m e = true -> 0 <= k -> mk = Z.pos m * 2 ^ k ->
  binary_round_aux prec emax s mk (e - k) loc_Exact = S754_finite s m e.
Proof.
intros Hv Hk ->. unfold bounded in Hv. apply andb_true_iff in Hv.
destruct Hv as [Hc Hb]. unfold canonical_mantissa in Hc. apply Z.eqb_eq in Hc.
change (Z.pos (digits2_pos m)) with (Zdigits2 (Z.pos m)) in Hc.
unfold binary_round_aux, shr_fexp.
rewrite (Zdigits2_mul_pow2 (Z.pos m) k) by lia.
replace (Zdigits2 (Z.pos m) + k + (e - k)) with (Zdigits2 (Z.pos m) + e) by lia.
rewrite Hc. replace (e - (e - k)) with k by lia.
cbn [shr_record_of_loc].
assert (H1 : shr (Build_shr_record (Z.pos m * 2 ^ k) false false) (e - k) k
             = (Build_shr_record (Z.pos m) false false, e)).
{ destruct k as [|p|p]; [ | | lia].
  - cbn [shr]. rewrite Z.pow_0_r, Z.mul_1_r. f_equal. lia.
  - cbn [shr]. rewrite (iter_shr_exact p (Z.pos m)) by lia. f_equal. lia. }
rewrite H1. cbn [loc_of_shr_record shr_m round_nearest_even shr_record_of_loc].
rewrite Hc, Z.sub_diag. cbn [shr shr_m]. rewrite Hb. reflexivity.
Qed.

(** Multiplying a well-formed value by the factor of 0 percent returns
    the value. *)
Lemma mul_zero_percent_factor (x : number) :
  valid_binary prec emax x = true -> mul x (factor_of (of_Z 0)) = x.
Proof.
intros Hv. rewrite zero_percent_factor. unfold mul.
destruct x as [s|s| |s m e]; cbn [SFmul].
- destruct s; reflexivity.
- destruct s; reflexivity.
- reflexivity.
- rewrite xorb_false_r. change (e + -52) with (e - 52).
  apply round_aux_exact; [exact Hv | lia | reflexivity].
Qed.

(** ** A reprice by 0 percent (C3) *)

(** A settled price survives the step of a 0 percent run untouched. *)
Lemma settled_variant_is_kept
  (cap : nat) (faults : list event -> request -> option fault)
  (v : variant) (changed : nat) (w : world) :
  settled_price (price v) ->
  reprice_variant_body cap faults (factor_of (of_Z 0)) v changed w = (w, Done changed).
Proof.
intros [Hfin Hfix]. unfold reprice_variant_body.
rewrite Hfin. cbn [negb].
rewrite mul_zero_percent_factor by apply parseFloat_valid.
rewrite Hfix, ustring_eqb_refl. reflexivity.
Qed.

(** The writes of one variant step of a 0 percent run. *)
Lemma zero_percent_variant_writes
  (cap : nat) (faults : list event -> request -> option fault)
  (v : variant) (changed : nat) (w : world) :
  writes (issued w (fst (reprice_variant_body cap faults (factor_of (of_Z 0)) v changed w)))
  = if isFinite (parseFloat (price v))
       && negb (eqb (toFixed2 (parseFloat (price v))) (price v))
    then [PutVariant (v_id v) (toFixed2 (parseFloat (price v)))]
    else [].
Proof.
unfold reprice_variant_body.
rewrite mul_zero_percent_factor by apply parseFloat_valid.
destruct (isFinite (parseFloat (price v))); cbn [negb andb].
- destruct (eqb (toFixed2 (parseFloat (price v))) (price v)); cbn [negb].
  + unfold ret. cbn [fst]. rewrite (issued_app w w []); [reflexivity|].
    rewrite app_nil_r. reflexivity.
  + unfold bind, shopify, ret.
    destruct (faults (events w) _) as [f|]; cbn [fst];
      erewrite issued_app by (cbn [events]; reflexivity); reflexivity.
- unfold ret. cbn [fst]. rewrite (issued_app w w []); [reflexivity|].
  rewrite app_nil_r. reflexivity.
Qed.

Lemma silent_reprice (cap : nat) (faults : list event -> request -> option fault)
  (fuel : nat) :
  silent settled_catalog (fun _ => True) (simpleReprice cap faults fuel (of_Z 0)).
Proof.
unfold simpleReprice.
apply (silent_bind settled_catalog (fun _ => True)); [|intros; apply silent_ret; exact I].
apply silent_while_true. intros st. unfold reprice_page.
eapply silent_bind; [apply silent_get|]. intros data Hdata.
destruct (or_empty (products data)) as [|p0 ps] eqn:Hps; [apply silent_ret; exact I|].
apply (silent_bind settled_catalog (fun _ => True)); [|intros; apply silent_ret; exact I].
apply silent_for_of. intros q s Hq. unfold reprice_body.
apply (silent_bind settled_catalog (fun _ => True)); [apply silent_visit|]. intros _ _.
apply (silent_bind settled_catalog (fun _ => True)); [|intros; apply silent_ret; exact I].
apply silent_for_of. intros v c Hv w Hok.
rewrite <- Hps in Hq.
destruct (Hdata q Hq) as (cat' & Hok' & Hin').
rewrite (settled_variant_is_kept cap faults v c w (Hok' q v Hin' Hv)). simpl.
split; [reflexivity|]. split; [|auto].
exists []. rewrite app_nil_r. auto.
Qed.

(** C3, as the code has it: when every price string in the catalog parses
    as a finite number and is already the two-decimal rendering of that
    number (as "10.00" is and "10" is not), a reprice by 0 percent issues
    no write and leaves the catalog as it was, however far the run gets.
    Variant by variant, the step of a 0 percent run writes exactly when the
    price is a finite number and not its own two-decimal rendering. *)
Theorem zero_percent_reprice_writes_nothing
  (cap : nat) (faults : list event -> request -> option fault)
  (fuel : nat) (w : world) :
  (forall p v, In p (catalog w) -> In v (or_empty (variants p)) ->
     isFinite (parseFloat (price v)) = true
     /\ toFixed2 (parseFloat (price v)) = price v) ->
  writes (issued w (fst (simpleReprice cap faults fuel (of_Z 0) w))) = []
  /\ catalog (fst (simpleReprice cap faults fuel (of_Z 0) w)) = catalog w
  /\ (forall v changed w',
        writes (issued w'
          (fst (reprice_variant_body cap faults (factor_of (of_Z 0)) v changed w'))) = []
        <-> (isFinite (parseFloat (price v)) = false
             \/ toFixed2 (parseFloat (price v)) = price v)).
Proof.
intros Hok.
destruct (silent_reprice cap faults fuel w Hok) as (Hc & (evs & He & Hw) & _).
rewrite (issued_app _ _ _ He).
split; [exact Hw|]. split; [exact Hc|].
intros v changed w'. rewrite zero_percent_variant_writes.
rewrite <- ustring_eqb_eq.
destruct (isFinite (parseFloat (price v)));
  destruct (eqb (toFixed2 (parseFloat (price v))) (price v)); cbn [negb andb];
  split; intros H; auto; try discriminate.
destruct H; discriminate.
Qed.

Lemma zero_percent_reprice_witness :
  let cat := [sample_product 3 "Bowl" None
                [sample_variant 31 "10.00" (Some 4) true;
                 sample_variant 32 "19.99" None false] "active"] in
  writes (issued (fresh cat) (fst (simpleReprice 250 no_faults 2 (of_Z 0) (fresh cat)))) = []
  /\ catalog (fst (simpleReprice 250 no_faults 2 (of_Z 0) (fresh cat))) = cat
  /\ (forall v changed w',
        writes (issued w'
          (fst (reprice_variant_body 250 no_faults (factor_of (of_Z 0)) v changed w'))) = []
        <-> (isFinite (parseFloat (price v)) = false
             \/ toFixed2 (parseFloat (price v)) = price v)).
Proof.
intros cat.
apply (zero_percent_reprice_writes_nothing 250 no_faults 2 (fresh cat)).
intros p v [<- | []] [<- | [<- | []]]; vm_compute; split; reflexivity.
Defined.

(** A price that parses as a finite number is not enough: "10" is
    rewritten to "10.00" by a 0 percent run. *)
Lemma finite_price_is_not_enough :
  ~ ((forall p v, In p (catalog (fresh round_price_catalog)) ->
        In v (or_empty (variants p)) ->
        isFinite (parseFloat (price v)) = true) ->
     writes (issued (fresh round_price_catalog)
        (fst (simpleReprice 250 no_faults 2 (of_Z 0) (fresh round_price_catalog)))) = []).
Proof.
intros H.
assert (Hfin : forall p v, In p (catalog (fresh round_price_catalog)) ->
          In v (or_empty (variants p)) -> isFinite (parseFloat (price v)) = true).
{ intros p v [<- | []] [<- | []]. vm_compute. reflexivity. }
specialize (H Hfin). vm_compute in H. discriminate.
Qed.

(** * Further properties of the runs *)

(** ** What a completed hide run does *)

Lemma hide_steps_count (cat : list product) (st : hide_vars) :
  hidden (fold_left (fun s p => hide_step p s) cat st)
  = (hidden st + List.length (filter must_hide cat))%nat.
Proof.
revert st. induction cat as [|p cat IH]; intros st; simpl; [lia|].
rewrite IH. unfold hide_step. destruct (must_hide p); simpl; lia.
Qed.

Lemma hide_writes_list (cat : list product) :
  flat_map (write_requests hide_write) cat
  = map (fun p => PutProduct (p_id p) (Status draft)) (filter must_hide cat).
Proof.
induction cat as [|p cat IH]; simpl; [reflexivity|].
rewrite IH. unfold write_requests, hide_write. destruct (must_hide p); reflexivity.
Qed.

Lemma hide_patched (p : product) :
  patched hide_write p = if must_hide p then set_status draft p else p.
Proof. unfold patched, hide_write. destruct (must_hide p); reflexivity. Qed.

Lemma hide_run_effect (cap : nat) (fuel : nat) (w : world) :
  (0 < cap)%nat ->
  ascending_from 0 (catalog w) ->
  (pages_for (List.length (catalog w)) (Nat.min 250 cap) < fuel)%nat ->
  exists w' evs,
    hideOutOfStock cap no_faults fuel w
    = (w', Done (Hidden (List.length (filter must_hide (catalog w)))))
    /\ events w' = events w ++ evs
    /\ writes evs = map (fun p => PutProduct (p_id p) (Status draft))
                        (filter must_hide (catalog w))
    /\ catalog w' = map (fun p => if must_hide p then set_status draft p else p)
                        (catalog w).
Proof.
intros Hcap Hasc Hfuel.
destruct (traverse_all cap hide_vars 250%nat hide_fields h_sinceId
            (hide_body cap no_faults) hide_step hide_write
            (hide_body_spec cap) hide_cursor
            fuel [] (catalog w) {| h_sinceId := 0; hidden := 0 |} w)
  as (w' & evs & pgs & Hrun & Hc & He & _ & Hw & _); auto; try lia.
exists w', evs. split; [|split; [exact He | split]].
- unfold hideOutOfStock, bind.
  change (while_true fuel (hide_page cap no_faults))
    with (while_true fuel (paged cap no_faults 250 hide_fields h_sinceId
                             (hide_body cap no_faults))).
  rewrite Hrun. unfold ret. rewrite hide_steps_count. reflexivity.
- rewrite Hw. apply hide_writes_list.
- rewrite Hc. simpl. apply map_ext. intros p. apply hide_patched.
Qed.



Lemma must_hide_after_hide (p : product) :
  must_hide (if must_hide p then set_status draft p else p) = false.
Proof.
destruct (must_hide p) eqn:E; [|exact E].
unfold must_hide, set_status. cbn [status]. rewrite ustring_eqb_refl.
apply andb_false_r.
Qed.



(** ** What a completed applying description run leaves *)

Lemma description_patched_apply (p : product) :
  patched (description_write true) p
  = if up_to_date p then p else set_body_html (buildDescription p) p.
Proof. unfold patched, description_write. destruct (up_to_date p); reflexivity. Qed.



(** ** What any run leaves alone, and what it reports *)

Lemma accounted_ret {A : Type} (ok : request -> Prop) (count : A -> nat) (a : A) :
  accounted ok count (count a) (ret a).
Proof.
intros w. exists []. simpl. rewrite app_nil_r.
repeat split; auto. intros a' H. inversion H. lia.
Qed.

Lemma accounted_visit (ok : request -> Prop) (base : nat) (i : Z) :
  accounted ok (fun _ => base) base (visit i).
Proof.
intros w. exists [Visited i]. simpl. repeat split; auto.
Qed.

Lemma accounted_get cap faults (ok : request -> Prop) (base : nat) (r : request) :
  is_write r = false ->
  accounted ok (fun _ => base) base (shopify cap faults r).
Proof.
intros Hr w. unfold shopify. destruct (faults (events w) r) as [f|]; cbn [fst snd events catalog].
- exists [Called r (inl f)]. unfold writes. simpl. rewrite Hr. simpl.
  repeat split; auto.
- exists [Called r (inr (serve cap r (catalog w)))]. unfold writes. simpl. rewrite Hr. simpl.
  repeat split; auto.
Qed.

Lemma accounted_put cap faults (ok : request -> Prop) (base : nat) (r : request) :
  is_write r = true -> ok r ->
  accounted ok (fun _ => S base) base (shopify cap faults r).
Proof.
intros Hr Hok w. unfold shopify. destruct (faults (events w) r) as [f|]; cbn [fst snd events catalog].
- exists [Called r (inl f)]. unfold writes. simpl. rewrite Hr. simpl.
  repeat split; auto. intros a H. discriminate.
- exists [Called r (inr (serve cap r (catalog w)))]. unfold writes. simpl. rewrite Hr. simpl.
  repeat split; auto. intros a _. lia.
Qed.

Lemma accounted_bind {A B : Type} (ok : request -> Prop)
  (g : A -> nat) (count : B -> nat) (base : nat) (m : task A) (k : A -> task B) :
  accounted ok g base m ->
  (forall a, accounted ok count (g a) (k a)) ->
  accounted ok count base (bind m k).
Proof.
intros Hm Hk w. destruct (Hm w) as (evs1 & E1 & O1 & C1 & N1).
unfold bind. destruct (m w) as [w1 [a| e |]]; cbn [fst snd] in *.
- destruct (Hk a w1) as (evs2 & E2 & O2 & C2 & N2).
  exists (evs1 ++ evs2). rewrite writes_app, replay_app, E2, E1, app_assoc, C2, C1.
  split; [reflexivity|]. split; [apply Forall_app; auto|]. split; [reflexivity|].
  intros b Hb. rewrite (N2 b Hb), (N1 a eq_refl), length_app. lia.
- exists evs1. repeat split; auto. intros b Hb. discriminate.
- exists evs1. repeat split; auto. intros b Hb. discriminate.
Qed.

Lemma accounted_for_of {A V : Type} (ok : request -> Prop) (count : V -> nat)
  (items : list A) (body : A -> V -> task V) :
  (forall x st, accounted ok count (count st) (body x st)) ->
  forall st, accounted ok count (count st) (for_of items body st).
Proof.
intros Hb. induction items as [|x items IH]; intros st; cbn [for_of].
- apply accounted_ret.
- apply (accounted_bind ok count count); [apply Hb | exact IH].
Qed.

Lemma accounted_while_true {V : Type} (ok : request -> Prop) (count : V -> nat)
  (fuel : nat) (body : V -> task (flow V)) :
  (forall st, accounted ok (fun r => count (flow_state r)) (count st) (body st)) ->
  forall st, accounted ok count (count st) (while_true fuel body st).
Proof.
intros Hb. induction fuel as [|fuel IH]; intros st; cbn [while_true].
- intros w. exists []. simpl. rewrite app_nil_r. repeat split; auto.
  intros a H. discriminate.
- apply (accounted_bind ok (fun r => count (flow_state r)) count); [apply Hb|].
  intros [st'|st']; cbn [flow_state]; [apply IH | apply accounted_ret].
Qed.

Lemma accounted_paged {V : Type} cap faults (ok : request -> Prop) (count : V -> nat)
  (limit : nat) (fields : option ustring) (cursor : V -> Z)
  (body : product -> V -> task V) :
  (forall p st, accounted ok count (count st) (body p st)) ->
  forall st,
    accounted ok (fun r => count (flow_state r)) (count st)
      (paged cap faults limit fields cursor body st).
Proof.
intros Hb st. unfold paged.
apply (accounted_bind ok (fun _ => count st)); [apply accounted_get; reflexivity|].
intros data. destruct (or_empty (products data)) as [|p ps].
- apply (accounted_ret ok (fun r => count (flow_state r)) (Break st)).
- apply (accounted_bind ok count); [apply accounted_for_of; exact Hb|].
  intros st'. apply (accounted_ret ok (fun r => count (flow_state r)) (Next st')).
Qed.

Lemma run_accounted cap faults (op : operation) (fuel : nat) :
  accounted (may_write op) count_of 0 (run cap faults op fuel).
Proof.
destruct op as [[|]| |percent]; cbn [run].
- unfold updateAllDescriptions.
  apply (accounted_bind _ updated); [|intros st; apply (accounted_ret _ count_of (Updated (updated st)))].
  apply (accounted_while_true _ updated fuel (description_page cap faults true)).
  intros st.
  apply (accounted_paged cap faults _ updated 250 None d_sinceId
           (description_body cap faults true)).
  intros p s. unfold description_body.
  apply (accounted_bind _ (fun _ => updated s)); [apply accounted_visit|]. intros _.
  destruct (up_to_date p).
  + apply (accounted_ret _ updated
             {| d_sinceId := p_id p; updated := updated s; preview := preview s |}).
  + apply (accounted_bind _ (fun _ => S (updated s)));
      [apply accounted_put; [reflexivity | exact I]|].
    intros _.
    apply (accounted_ret _ updated
             {| d_sinceId := p_id p; updated := S (updated s); preview := preview s |}).
- unfold updateAllDescriptions.
  apply (accounted_bind _ (fun _ => 0%nat));
    [|intros st; apply (accounted_ret _ count_of (Preview _ _))].
  apply (accounted_while_true _ (fun _ : description_vars => 0%nat) fuel
           (description_page cap faults false)).
  intros st.
  apply (accounted_paged cap faults _ (fun _ : description_vars => 0%nat) 250 None d_sinceId
           (description_body cap faults false)).
  intros p s. unfold description_body.
  apply (accounted_bind _ (fun _ => 0%nat)); [apply accounted_visit|]. intros _.
  destruct (up_to_date p).
  + apply (accounted_ret _ (fun _ : description_vars => 0%nat)).
  + apply (accounted_ret _ (fun _ : description_vars => 0%nat)).
- unfold hideOutOfStock.
  apply (accounted_bind _ hidden); [|intros st; apply (accounted_ret _ count_of (Hidden (hidden st)))].
  apply (accounted_while_true _ hidden fuel (hide_page cap faults)).
  intros st.
  apply (accounted_paged cap faults _ hidden 250 hide_fields h_sinceId (hide_body cap faults)).
  intros p s. unfold hide_body.
  apply (accounted_bind _ (fun _ => hidden s)); [apply accounted_visit|]. intros _.
  destruct (must_hide p).
  + apply (accounted_bind _ (fun _ => S (hidden s)));
      [apply accounted_put; [reflexivity | reflexivity]|].
    intros _.
    apply (accounted_ret _ hidden {| h_sinceId := p_id p; hidden := S (hidden s) |}).
  + apply (accounted_ret _ hidden {| h_sinceId := p_id p; hidden := hidden s |}).
- unfold simpleReprice.
  apply (accounted_bind _ changed); [|intros st; apply (accounted_ret _ count_of (Changed (changed st)))].
  apply (accounted_while_true _ changed fuel (reprice_page cap faults (factor_of percent))).
  intros st.
  apply (accounted_paged cap faults _ changed 100 reprice_fields r_sinceId
           (reprice_body cap faults (factor_of percent))).
  intros p s. unfold reprice_body.
  apply (accounted_bind _ (fun _ => changed s)); [apply accounted_visit|]. intros _.
  apply (accounted_bind _ (fun c : nat => c));
    [|intros c; apply (accounted_ret _ changed {| r_sinceId := p_id p; changed := c |})].
  apply (accounted_for_of _ (fun c : nat => c)).
  intros v c. unfold reprice_variant_body.
  destruct (negb (isFinite _)); [apply (accounted_ret _ (fun c : nat => c))|].
  destruct (negb (eqb _ _)); [|apply (accounted_ret _ (fun c : nat => c))].
  apply (accounted_bind _ (fun _ => S c));
    [apply accounted_put; [reflexivity | exact I]|].
  intros _. apply (accounted_ret _ (fun c : nat => c) (S c)).
Qed.

Lemma kept_refl (op : operation) (p : product) : kept op p p.
Proof. unfold kept. destruct op; repeat split; auto. Qed.

Lemma kept_trans (op : operation) (p q r : product) :
  kept op p q -> kept op q r -> kept op p r.
Proof.
unfold kept. intros (H1 & H2 & H3 & H4) (K1 & K2 & K3 & K4).
split; [congruence|]. split; [congruence|]. split; [congruence|].
destruct op.
- destruct H4, K4. split; congruence.
- destruct H4 as (? & ? & Hs), K4 as (? & ? & Ks).
  split; [congruence|]. split; [congruence|].
  destruct Ks as [Ks|Ks]; [|right; exact Ks].
  destruct Hs as [Hs|Hs]; [left | right]; congruence.
- destruct H4 as (? & ? & ?), K4 as (? & ? & ?). repeat split; congruence.
Qed.

Lemma Forall2_refl_of {A : Type} (R : A -> A -> Prop) (l : list A) :
  (forall x, R x x) -> Forall2 R l l.
Proof. intros H. induction l; constructor; auto. Qed.

Lemma Forall2_trans_of {A : Type} (R : A -> A -> Prop) :
  (forall x y z, R x y -> R y z -> R x z) ->
  forall a b c, Forall2 R a b -> Forall2 R b c -> Forall2 R a c.
Proof.
intros HR a b c Hab. revert c. induction Hab; intros c Hbc; inversion Hbc; subst.
- constructor.
- constructor; eauto.
Qed.

Lemma Forall2_map_of {A : Type} (R : A -> A -> Prop) (g : A -> A) (l : list A) :
  (forall x, R x (g x)) -> Forall2 R l (map g l).
Proof. intros H. induction l; simpl; constructor; auto. Qed.

Lemma store_kept (op : operation) (r : request) (cat : list product) :
  is_write r = true -> may_write op r -> Forall2 (kept op) cat (store r cat).
Proof.
intros Hw Hok. destruct r as [l s f | i b | i pr]; [discriminate| |]; cbn [store].
- apply Forall2_map_of. intros p. destruct (p_id p =? i); [|apply kept_refl].
  destruct op as [[|]| |percent], b as [h|s]; cbn [may_write] in Hok; try contradiction.
  + unfold kept. cbn. repeat split; reflexivity.
  + subst s. unfold kept. cbn. repeat split; auto.
- apply Forall2_map_of. intros p.
  destruct op as [[|]| |percent]; cbn [may_write] in Hok; try contradiction.
  unfold kept. cbn [set_variants p_id title vendor body_html status variants].
  repeat split. destruct (variants p) as [vs|]; [|reflexivity].
  cbn [option_map]. f_equal. rewrite map_map. apply map_ext. intros v.
  unfold reprice_variant. destruct (v_id v =? i); reflexivity.
Qed.

Lemma replay_kept (op : operation) (evs : list event) :
  Forall (may_write op) (writes evs) ->
  forall cat, Forall2 (kept op) cat (replay evs cat).
Proof.
induction evs as [|e evs IH]; intros H cat.
- apply Forall2_refl_of. apply kept_refl.
- change (replay (e :: evs) cat) with (replay evs (replay [e] cat)).
  change (e :: evs) with ([e] ++ evs) in H. rewrite writes_app in H.
  apply Forall_app in H. destruct H as [He Hevs].
  apply (Forall2_trans_of _ (kept_trans op) _ (replay [e] cat)); [|apply IH; exact Hevs].
  destruct e as [r [f|data] | i]; cbn [replay fold_left];
    try (apply Forall2_refl_of; apply kept_refl).
  destruct (is_write r) eqn:Hw.
  + apply store_kept; [exact Hw|]. unfold writes in He. simpl in He. rewrite Hw in He.
    inversion He; assumption.
  + destruct r; try discriminate. apply Forall2_refl_of. apply kept_refl.
Qed.

(** Whatever the store answers and however far the run gets (to its end,
    to a failed call, or still running), a run issues only the writes of
    its own kind, and the catalog it leaves has the same products in the
    same order, each with its identifier, title and vendor as before: a
    description run changes nothing but descriptions, and none when it
    does not apply; a hide run changes nothing but the status, and that
    only to "draft"; a reprice run changes nothing but the prices of
    variants. *)
Theorem run_changes_only_its_own_field
  (cap : nat) (faults : list event -> request -> option fault)
  (op : operation) (fuel : nat) (w : world) :
  Forall (may_write op) (writes (issued w (fst (run cap faults op fuel w))))
  /\ Forall2 (kept op) (catalog w) (catalog (fst (run cap faults op fuel w))).
Proof.
destruct (run_accounted cap faults op fuel w) as (evs & E & Hok & Hcat & _).
rewrite (issued_app _ _ _ E), Hcat. split; [exact Hok|].
apply replay_kept. exact Hok.
Qed.

(** When a run returns its counter ([updated], [hidden] or [changed]),
    the counter is the number of write calls the run issued, and every
    call of the run went through; this on any store, whatever its pages
    look like. *)
Theorem reported_count_is_the_number_of_writes
  (cap : nat) (faults : list event -> request -> option fault)
  (op : operation) (fuel : nat) (w : world) (res : run_result) (n : nat) :
  snd (run cap faults op fuel w) = Done res ->
  written_count res = Some n ->
  n = List.length (writes (issued w (fst (run cap faults op fuel w))))
  /\ clean (issued w (fst (run cap faults op fuel w))).
Proof.
intros Hres Hn.
destruct (run_accounted cap faults op fuel w) as (evs & E & _ & _ & Hcount).
destruct (disciplined_run cap faults op fuel w) as (evs' & E' & R).
rewrite (issued_app _ _ _ E). split.
- specialize (Hcount res Hres). unfold count_of in Hcount. rewrite Hn in Hcount.
  exact Hcount.
- rewrite <- (issued_app _ _ _ E), (issued_app _ _ _ E').
  rewrite Hres in R. destruct R as [C _]. exact C.
Qed.

Lemma reported_count_witness :
  let w := fresh [sample_product 1 "Bowl" None [sample_variant 11 "4.00" (Some 0) true] "active";
                  untracked_product] in
  1%nat = List.length (writes (issued w (fst (run 250 no_faults HideOutOfStock 2 w))))
  /\ clean (issued w (fst (run 250 no_faults HideOutOfStock 2 w))).
Proof.
intros w.
apply (reported_count_is_the_number_of_writes 250 no_faults HideOutOfStock 2 w (Hidden 1) 1).
- vm_compute. reflexivity.
- reflexivity.
Defined.


(** ** The description and the vendor *)

Lemma trim_wrapped (c d : N) (s : ustring) :
  is_ws c = false -> is_ws d = false ->
  trim (nl ++ (c :: s ++ [d]) ++ nl) = c :: s ++ [d].
Proof.
intros Hc Hd. unfold trim, trimEnd, nl.
change (trimStart ([10%N] ++ (c :: s ++ [d]) ++ [10%N]))
  with (trimStart ((c :: s ++ [d]) ++ [10%N])).
cbn [app trimStart]. rewrite Hc.
change (c :: (s ++ [d]) ++ [10%N]) with ((c :: s ++ [d]) ++ [10%N]).
rewrite rev_app_distr. cbn [rev app].
change (trimStart (10%N :: rev (s ++ [d]) ++ [c])) with (trimStart (rev (s ++ [d]) ++ [c])).
rewrite rev_app_distr. cbn [rev app trimStart]. rewrite Hd.
change (d :: rev s ++ [c]) with ((d :: rev s) ++ [c]).
rewrite rev_app_distr. cbn [rev app]. rewrite rev_involutive.
reflexivity.
Qed.

Lemma buildDescription_shape :
  exists mid tail : ustring,
    (149 <= List.length mid)%nat
    /\ forall p,
         buildDescription p
         = u "<p><strong>" ++ title p ++ mid
           ++ or_string (vendor p) (u "FuzzleToys") ++ tail.
Proof.
exists (u "</strong> " ++ [em_dash] ++
        u " designed for happy, healthy pets.</p>" ++ nl ++
        u "<h3>Key Benefits</h3>" ++ nl ++
        u "<ul>" ++ nl ++
        u "<li>Supports healthy posture</li>" ++ nl ++
        u "<li>Reduces mess & choking</li>" ++ nl ++
        u "<li>Durable for daily use</li>" ++ nl ++
        u "<li>Easy to clean</li>" ++ nl ++
        u "</ul>" ++ nl ++
        u "<h3>Product Details</h3>" ++ nl ++
        u "<ul>" ++ nl ++
        u "<li>Brand: ").
exists (u "</li>" ++ nl ++
        u "<li>Material: Pet-safe materials</li>" ++ nl ++
        u "</ul>" ++ nl ++
        u "<h3>Shipping & Returns</h3>" ++ nl ++
        u "<p>Fast US shipping. 30-day hassle-free returns.</p>").
split; [vm_compute; lia|].
intros p. unfold buildDescription.
set (V := or_string (vendor p) (u "FuzzleToys")).
set (T := title p).
transitivity (trim (nl ++ (60%N :: (u "p><strong>" ++ T ++
        (u "</strong> " ++ [em_dash] ++
        u " designed for happy, healthy pets.</p>" ++ nl ++
        u "<h3>Key Benefits</h3>" ++ nl ++
        u "<ul>" ++ nl ++
        u "<li>Supports healthy posture</li>" ++ nl ++
        u "<li>Reduces mess & choking</li>" ++ nl ++
        u "<li>Durable for daily use</li>" ++ nl ++
        u "<li>Easy to clean</li>" ++ nl ++
        u "</ul>" ++ nl ++
        u "<h3>Product Details</h3>" ++ nl ++
        u "<ul>" ++ nl ++
        u "<li>Brand: ") ++ V ++
        (u "</li>" ++ nl ++
        u "<li>Material: Pet-safe materials</li>" ++ nl ++
        u "</ul>" ++ nl ++
        u "<h3>Shipping & Returns</h3>" ++ nl ++
        u "<p>Fast US shipping. 30-day hassle-free returns.</p")) ++ [62%N]) ++ nl)).
- f_equal. unfold description_template. fold V. fold T.
  cbn [app]. rewrite <- !app_assoc. reflexivity.
- rewrite trim_wrapped by reflexivity.
  rewrite <- !app_assoc. reflexivity.
Qed.

Lemma next_key_by_title (p q : product) :
  title q = title p -> next_key q = next_key p.
Proof.
intros Ht. unfold next_key.
destruct buildDescription_shape as (mid & tail & Hlen & Hshape).
rewrite (Hshape p), (Hshape q), Ht. f_equal. unfold slice0.
rewrite !(app_assoc (u "<p><strong>")), !(app_assoc _ mid).
rewrite !(firstn_app 160 (_ ++ mid)).
assert (Hz : (160 - List.length ((u "<p><strong>" ++ title p) ++ mid) = 0)%nat).
{ rewrite !length_app. change (List.length (u "<p><strong>")) with 11%nat. lia. }
rewrite Hz. reflexivity.
Qed.

(** The verdict of the description test depends on a product's title and
    stored description only: the line that names the vendor lies beyond
    the 160 units the test compares, so two products that differ in their
    vendor alone are both skipped or both rewritten, and a vendor that
    changed does not make a stored description stale. *)
Theorem description_test_ignores_the_vendor (p q : product) :
  title q = title p ->
  body_html q = body_html p ->
  up_to_date q = up_to_date p.
Proof.
intros Ht Hb. unfold up_to_date.
rewrite (next_key_by_title p q Ht). unfold cur_key. rewrite Hb. reflexivity.
Qed.

Lemma description_test_vendor_witness :
  let p := set_body_html
             (buildDescription (sample_product 2 "Leash" None [] "active"))
             (sample_product 2 "Leash" None [] "active") in
  let q := {| p_id := p_id p; title := title p; vendor := Some (u "Acme");
              body_html := body_html p; variants := variants p; status := status p |} in
  up_to_date q = up_to_date p.
Proof.
intros p q. apply (description_test_ignores_the_vendor p q); reflexivity.
Defined.

(** ** Running again after a run that stopped *)

Lemma kept_ids (op : operation) (a b : list product) :
  Forall2 (kept op) a b -> map p_id b = map p_id a.
Proof.
induction 1 as [|p q a b Hpq _ IH]; simpl; [reflexivity|].
destruct Hpq as [Hid _]. rewrite Hid, IH. reflexivity.
Qed.

Lemma ascending_same_ids (a b : list product) :
  map p_id b = map p_id a ->
  forall c, ascending_from c a -> ascending_from c b.
Proof.
revert b. induction a as [|p a IH]; intros [|q b] H c Ha; simpl in *;
  try discriminate; [exact I|].
inversion H as [[Hq Hrest]]. destruct Ha as [Hc Ha].
rewrite Hq. split; [exact Hc|]. apply IH; assumption.
Qed.



(** ** The control endpoints *)

Lemma guard_passes_iff (SECRET_KEY : ustring) (req : http_request) :
  guard SECRET_KEY req = None <-> SECRET_KEY <> [] /\ key_of req = SECRET_KEY.
Proof.
unfold guard. destruct SECRET_KEY as [|c s]; cbn [truthy_string negb].
- split; [discriminate | intros [H _]; contradiction].
- destruct (eqb (key_of req) (c :: s)) eqn:E; cbn [negb].
  + apply ustring_eqb_eq in E. split; [intros _; split; [discriminate | exact E] | reflexivity].
  + split; [discriminate|]. intros [_ H]. rewrite H, ustring_eqb_refl in E. discriminate.
Qed.

Lemma answer_world (m : task run_result) (w : world) :
  fst (answer m w) = fst (m w).
Proof. unfold answer. destruct (m w) as [w' [res|e|]]; reflexivity. Qed.







(** ** A percentage that is not a number *)

Lemma mul_NaN (x : number) : mul x NaN = NaN.
Proof. destruct x as [s|s| |s m e]; reflexivity. Qed.

Lemma factor_of_NaN : factor_of NaN = NaN.
Proof. reflexivity. Qed.

Lemma finite_price_is_not_NaN (v : variant) :
  isFinite (parseFloat (price v)) = true -> eqb (u "NaN") (price v) = false.
Proof.
intros H. apply ustring_eqb_neq. intros E. rewrite <- E in H.
vm_compute in H. discriminate.
Qed.

Lemma reprice_NaN_accounted cap faults (fuel : nat) :
  accounted (fun r => exists i, r = PutVariant i (u "NaN")) changed 0
    (while_true fuel (reprice_page cap faults NaN) {| r_sinceId := 0; changed := 0 |}).
Proof.
refine (accounted_while_true _ changed fuel (reprice_page cap faults NaN) _
          {| r_sinceId := 0; changed := 0 |}).
intros st.
apply (accounted_paged cap faults _ changed 100 reprice_fields r_sinceId
         (reprice_body cap faults NaN)).
intros p s. unfold reprice_body.
apply (accounted_bind _ (fun _ => changed s)); [apply accounted_visit|]. intros _.
apply (accounted_bind _ (fun c : nat => c));
  [|intros c; apply (accounted_ret _ changed {| r_sinceId := p_id p; changed := c |})].
apply (accounted_for_of _ (fun c : nat => c)).
intros v c. unfold reprice_variant_body. rewrite mul_NaN.
destruct (negb (isFinite _)); [apply (accounted_ret _ (fun c : nat => c))|].
destruct (negb (eqb _ _)); [|apply (accounted_ret _ (fun c : nat => c))].
apply (accounted_bind _ (fun _ => S c));
  [apply accounted_put; [reflexivity | exists (v_id v); reflexivity]|].
intros _. apply (accounted_ret _ (fun c : nat => c) (S c)).
Qed.

(** When the [percent] parameter does not read as a number ("10%" does
    not), the factor is [NaN]: for every variant whose price is a finite
    number the loop body issues a write of the price "NaN", and every write
    an authorized request to the reprice route issues is such a write,
    whatever the store answers. *)
Theorem reprice_route_with_a_non_number_writes_NaN
  (SECRET_KEY : ustring) (cap : nat) (faults : list event -> request -> option fault)
  (fuel : nat) (req : http_request) (w : world) :
  SECRET_KEY <> [] ->
  key_of req = SECRET_KEY ->
  percent_of req = NaN ->
  Forall (fun r => exists i, r = PutVariant i (u "NaN"))
    (writes (issued w (fst (post SECRET_KEY cap faults fuel RepriceRoute req w))))
  /\ forall (v : variant) (c : nat) (w0 : world),
       isFinite (parseFloat (price v)) = true ->
       writes (issued w0 (fst (reprice_variant_body cap faults
                                 (factor_of (percent_of req)) v c w0)))
       = [PutVariant (v_id v) (u "NaN")].
Proof.
intros Hs Hk Hp. split.
- unfold post. rewrite (proj2 (guard_passes_iff SECRET_KEY req) (conj Hs Hk)).
  rewrite answer_world. cbn [operation_of run]. rewrite Hp.
  unfold simpleReprice. rewrite factor_of_NaN.
  destruct (reprice_NaN_accounted cap faults fuel w) as (evs & E & Hok & _).
  unfold bind.
  destruct (while_true fuel (reprice_page cap faults NaN)
              {| r_sinceId := 0; changed := 0 |} w) as [w' [st|e|]];
    cbn [fst snd ret] in *; rewrite (issued_app _ _ _ E); exact Hok.
- intros v c w0 Hfin. rewrite Hp, factor_of_NaN.
  unfold reprice_variant_body. rewrite mul_NaN, Hfin. cbn [negb].
  change (toFixed2 NaN) with (u "NaN").
  rewrite (finite_price_is_not_NaN v Hfin). cbn [negb].
  unfold bind, shopify.
  destruct (faults (events w0) (PutVariant (v_id v) (u "NaN"))) as [f|];
    cbn [fst snd ret events].
  + erewrite issued_app; [|cbn [events]; reflexivity]. reflexivity.
  + erewrite issued_app; [|cbn [events]; reflexivity]. reflexivity.
Qed.

Lemma reprice_route_NaN_witness :
  let req := {| query_key := Some (QString (u "s3cret")); header_key := None;
                query_apply := None; query_percent := Some (QString (u "10%")) |} in
  let w := fresh round_price_catalog in
  Forall (fun r => exists i, r = PutVariant i (u "NaN"))
    (writes (issued w (fst (post (u "s3cret") 250 no_faults 2 RepriceRoute req w))))
  /\ forall (v : variant) (c : nat) (w0 : world),
       isFinite (parseFloat (price v)) = true ->
       writes (issued w0 (fst (reprice_variant_body 250 no_faults
                                 (factor_of (percent_of req)) v c w0)))
       = [PutVariant (v_id v) (u "NaN")].
Proof.
intros req w.
apply (reprice_route_with_a_non_number_writes_NaN (u "s3cret") 250 no_faults 2 req w).
- discriminate.
- reflexivity.
- vm_compute. reflexivity.
Defined.

(** ** The paging protocol, on any store *)

Lemma last_default {A : Type} (l : list A) (d1 d2 : A) :
  l <> [] -> last l d1 = last l d2.
Proof.
induction l as [|z l IH]; intros Hl; [contradiction|].
destruct l; [reflexivity|]. apply IH. discriminate.
Qed.

Lemma last_app_default {A : Type} (a b : list A) (d : A) :
  last (a ++ b) d = last b (last a d).
Proof.
induction a as [|x a IH]; [reflexivity|].
destruct a as [|y a].
- destruct b as [|z b]; [reflexivity|].
  change (last ([x] ++ z :: b) d) with (last (z :: b) d).
  apply last_default. discriminate.
- change (last ((x :: y :: a) ++ b) d) with (last ((y :: a) ++ b) d).
  rewrite IH. reflexivity.
Qed.

Lemma resumes_nil (limit : nat) (fields : option ustring) (c : Z) :
  resumes limit fields c [].
Proof. intros [|x pre] l s f res post H; discriminate. Qed.

Lemma resumes_single (limit : nat) (fields : option ustring) (c : Z) (e : event) :
  (forall l s f res, e = Called (GetProducts l s f) res ->
     l = limit /\ f = fields /\ s = c) ->
  resumes limit fields c [e].
Proof.
intros He [|x pre] l s f res post H.
- inversion H; subst. apply (He l s f res). reflexivity.
- destruct pre; discriminate.
Qed.

Lemma resumes_app (limit : nat) (fields : option ustring) (c : Z)
  (a b : list event) :
  resumes limit fields c a ->
  resumes limit fields (last (visits a) c) b ->
  resumes limit fields c (a ++ b).
Proof.
intros Ha Hb pre l s f res post H.
apply app_eq_app in H. destruct H as (t & [[H1 H2] | [H1 H2]]).
- destruct t as [|x t].
  + simpl in H2. rewrite app_nil_r in H1. subst pre.
    apply (Hb [] l s f res post). symmetry. exact H2.
  + inversion H2; subst. apply (Ha pre l s f res t). reflexivity.
- subst pre. rewrite visits_app, last_app_default.
  apply (Hb t l s f res post). exact H2.
Qed.

Lemma steady_ret {A : Type} limit fields (cur : A -> Z) (a : A) :
  steady limit fields cur (cur a) (ret a).
Proof.
intros w. exists []. simpl. rewrite app_nil_r.
split; [reflexivity|]. split; [apply resumes_nil|].
intros a' H. inversion H. reflexivity.
Qed.

Lemma steady_visit limit fields (c i : Z) :
  steady limit fields (fun _ : unit => i) c (visit i).
Proof.
intros w. exists [Visited i]. simpl.
split; [reflexivity|]. split; [|reflexivity].
apply resumes_single. intros l s f res H. discriminate.
Qed.

Lemma steady_put cap faults limit fields (c : Z) (r : request) :
  is_write r = true ->
  steady limit fields (fun _ : json => c) c (shopify cap faults r).
Proof.
intros Hr w. unfold shopify.
destruct (faults (events w) r) as [f|]; cbn [fst snd events].
- exists [Called r (inl f)]. split; [reflexivity|]. split.
  + apply resumes_single. intros l s f0 res H. inversion H; subst. discriminate.
  + intros a H. discriminate.
- exists [Called r (inr (serve cap r (catalog w)))]. split; [reflexivity|]. split.
  + apply resumes_single. intros l s f0 res H. inversion H; subst. discriminate.
  + intros a _. reflexivity.
Qed.

Lemma steady_get cap faults limit fields (c : Z) :
  steady limit fields (fun _ : json => c) c
    (shopify cap faults (GetProducts limit c fields)).
Proof.
intros w. unfold shopify.
destruct (faults (events w) (GetProducts limit c fields)) as [f|]; cbn [fst snd events].
- eexists [_]. split; [reflexivity|]. split.
  + apply resumes_single. intros l s f0 res H. inversion H; subst. auto.
  + intros a H. discriminate.
- eexists [_]. split; [reflexivity|]. split.
  + apply resumes_single. intros l s f0 res H. inversion H; subst. auto.
  + intros a _. reflexivity.
Qed.

Lemma steady_bind {A B : Type} limit fields (g : A -> Z) (cur : B -> Z) (c : Z)
  (m : task A) (k : A -> task B) :
  steady limit fields g c m ->
  (forall a, steady limit fields cur (g a) (k a)) ->
  steady limit fields cur c (bind m k).
Proof.
intros Hm Hk w. destruct (Hm w) as (evs1 & E1 & R1 & N1).
unfold bind. destruct (m w) as [w1 [a| e |]]; cbn [fst snd] in *.
- destruct (Hk a w1) as (evs2 & E2 & R2 & N2).
  exists (evs1 ++ evs2). rewrite E2, E1, app_assoc. split; [reflexivity|].
  rewrite (N1 a eq_refl) in R2, N2. split; [apply resumes_app; assumption|].
  intros b Hb. rewrite visits_app, last_app_default. apply N2. exact Hb.
- exists evs1. split; [exact E1|]. split; [exact R1|]. intros b Hb. discriminate.
- exists evs1. split; [exact E1|]. split; [exact R1|]. intros b Hb. discriminate.
Qed.

Lemma steady_for_of {A V : Type} limit fields (cur : V -> Z)
  (items : list A) (body : A -> V -> task V) :
  (forall x st, steady limit fields cur (cur st) (body x st)) ->
  forall st, steady limit fields cur (cur st) (for_of items body st).
Proof.
intros Hb. induction items as [|x items IH]; intros st; cbn [for_of].
- apply steady_ret.
- apply (steady_bind limit fields cur cur); [apply Hb | exact IH].
Qed.

Lemma steady_while_true {V : Type} limit fields (cur : V -> Z)
  (fuel : nat) (body : V -> task (flow V)) :
  (forall st, steady limit fields (fun r => cur (flow_state r)) (cur st) (body st)) ->
  forall st, steady limit fields cur (cur st) (while_true fuel body st).
Proof.
intros Hb. induction fuel as [|fuel IH]; intros st; cbn [while_true].
- intros w. exists []. simpl. rewrite app_nil_r.
  split; [reflexivity|]. split; [apply resumes_nil|]. intros a H. discriminate.
- apply (steady_bind limit fields (fun r => cur (flow_state r)) cur); [apply Hb|].
  intros [st'|st']; cbn [flow_state]; [apply IH | apply steady_ret].
Qed.

Lemma steady_paged {V : Type} cap faults limit fields (cur : V -> Z)
  (body : product -> V -> task V) :
  (forall p st, steady limit fields cur (cur st) (body p st)) ->
  forall st,
    steady limit fields (fun r => cur (flow_state r)) (cur st)
      (paged cap faults limit fields cur body st).
Proof.
intros Hb st. unfold paged.
apply (steady_bind limit fields (fun _ => cur st)); [apply steady_get|].
intros data. destruct (or_empty (products data)) as [|p ps].
- apply (steady_ret limit fields (fun r => cur (flow_state r)) (Break st)).
- apply (steady_bind limit fields cur); [apply steady_for_of; exact Hb|].
  intros st'. apply (steady_ret limit fields (fun r => cur (flow_state r)) (Next st')).
Qed.

Lemma description_turn_steady cap faults (apply : bool) (st : description_vars) :
  steady 250 None (fun r => d_sinceId (flow_state r)) (d_sinceId st)
    (description_page cap faults apply st).
Proof.
apply (steady_paged cap faults 250 None d_sinceId (description_body cap faults apply)).
intros p s. unfold description_body.
apply (steady_bind _ _ (fun _ => p_id p)); [apply steady_visit|]. intros _.
destruct (up_to_date p).
- apply (steady_ret _ _ d_sinceId
           {| d_sinceId := p_id p; updated := updated s; preview := preview s |}).
- destruct apply.
  + apply (steady_bind _ _ (fun _ => p_id p)); [apply steady_put; reflexivity|].
    intros _.
    apply (steady_ret _ _ d_sinceId
             {| d_sinceId := p_id p; updated := S (updated s); preview := preview s |}).
  + apply (steady_ret _ _ d_sinceId
             {| d_sinceId := p_id p; updated := updated s;
                preview := preview s ++ [{| item_id := p_id p; item_title := title p |}] |}).
Qed.

Lemma hide_turn_steady cap faults (st : hide_vars) :
  steady 250 hide_fields (fun r => h_sinceId (flow_state r)) (h_sinceId st)
    (hide_page cap faults st).
Proof.
apply (steady_paged cap faults 250 hide_fields h_sinceId (hide_body cap faults)).
intros p s. unfold hide_body.
apply (steady_bind _ _ (fun _ => p_id p)); [apply steady_visit|]. intros _.
destruct (must_hide p).
- apply (steady_bind _ _ (fun _ => p_id p)); [apply steady_put; reflexivity|].
  intros _.
  apply (steady_ret _ _ h_sinceId {| h_sinceId := p_id p; hidden := S (hidden s) |}).
- apply (steady_ret _ _ h_sinceId {| h_sinceId := p_id p; hidden := hidden s |}).
Qed.

Lemma reprice_turn_steady cap faults (factor : number) (st : reprice_vars) :
  steady 100 reprice_fields (fun r => r_sinceId (flow_state r)) (r_sinceId st)
    (reprice_page cap faults factor st).
Proof.
apply (steady_paged cap faults 100 reprice_fields r_sinceId
         (reprice_body cap faults factor)).
intros p s. unfold reprice_body.
apply (steady_bind _ _ (fun _ => p_id p)); [apply steady_visit|]. intros _.
apply (steady_bind _ _ (fun _ : nat => p_id p));
  [|intros c; apply (steady_ret _ _ r_sinceId {| r_sinceId := p_id p; changed := c |})].
apply (steady_for_of _ _ (fun _ : nat => p_id p)).
intros v c. unfold reprice_variant_body.
destruct (negb (isFinite _)); [apply (steady_ret _ _ (fun _ : nat => p_id p))|].
destruct (negb (eqb _ _)); [|apply (steady_ret _ _ (fun _ : nat => p_id p))].
apply (steady_bind _ _ (fun _ => p_id p)); [apply steady_put; reflexivity|].
intros _. apply (steady_ret _ _ (fun _ : nat => p_id p) (S c)).
Qed.

Lemma run_resumes cap faults (op : operation) (fuel : nat) (w : world) :
  exists evs,
    events (fst (run cap faults op fuel w)) = events w ++ evs
    /\ resumes (limit_of op) (fields_of op) 0 evs.
Proof.
destruct op as [apply| |percent]; cbn [run limit_of fields_of].
- unfold updateAllDescriptions, bind.
  destruct (steady_while_true 250 None d_sinceId fuel (description_page cap faults apply)
              (description_turn_steady cap faults apply)
              {| d_sinceId := 0; updated := 0; preview := [] |} w) as (evs & E & R & _).
  exists evs.
  destruct (while_true fuel (description_page cap faults apply) _ w) as [w' [st|e|]];
    split; assumption.
- unfold hideOutOfStock, bind.
  destruct (steady_while_true 250 hide_fields h_sinceId fuel (hide_page cap faults)
              (hide_turn_steady cap faults)
              {| h_sinceId := 0; hidden := 0 |} w) as (evs & E & R & _).
  exists evs.
  destruct (while_true fuel (hide_page cap faults) _ w) as [w' [st|e|]];
    split; assumption.
- unfold simpleReprice, bind.
  destruct (steady_while_true 100 reprice_fields r_sinceId fuel
              (reprice_page cap faults (factor_of percent))
              (reprice_turn_steady cap faults (factor_of percent))
              {| r_sinceId := 0; changed := 0 |} w) as (evs & E & R & _).
  exists evs.
  destruct (while_true fuel (reprice_page cap faults (factor_of percent)) _ w)
    as [w' [st|e|]]; split; assumption.
Qed.

(** On any store, whatever it answers: every page request of a run asks
    for the run's own page size (250 products, 100 when repricing) and
    fields, and for the products after the one the loop body was entered
    for last (after 0 when there was none yet). *)
Theorem page_request_resumes_after_the_last_product
  (cap : nat) (faults : list event -> request -> option fault)
  (op : operation) (fuel : nat) (w : world)
  (pre post : list event) (l : nat) (s : Z) (f : option ustring) (res : fault + json) :
  issued w (fst (run cap faults op fuel w))
  = pre ++ Called (GetProducts l s f) res :: post ->
  l = limit_of op /\ f = fields_of op /\ s = last (visits pre) 0.
Proof.
destruct (run_resumes cap faults op fuel w) as (evs & E & R).
rewrite (issued_app _ _ _ E). apply R.
Qed.

Lemma page_request_witness :
  let p := sample_product 4 "Bowl" None [] "draft" in
  250%nat = limit_of HideOutOfStock /\ hide_fields = fields_of HideOutOfStock
  /\ 4 = last (visits [Called (GetProducts 250 0 hide_fields)
                          (inr {| products := Some [p] |});
                       Visited 4]) 0.
Proof.
intros p.
apply (page_request_resumes_after_the_last_product 250 no_faults HideOutOfStock 2
         (fresh [p])
         [Called (GetProducts 250 0 hide_fields) (inr {| products := Some [p] |});
          Visited 4]
         [] 250 4 hide_fields (inr {| products := Some [] |})).
vm_compute. reflexivity.
Defined.

(** ** The three runs do not interfere *)

Lemma Forall2_map_eq {A B : Type} (R : A -> A -> Prop) (f : A -> B) (l l' : list A) :
  (forall x y, R x y -> f y = f x) -> Forall2 R l l' -> map f l' = map f l.
Proof.
intros H. induction 1 as [|x y l l' Hxy _ IH]; simpl; [reflexivity|].
rewrite (H x y Hxy), IH. reflexivity.
Qed.

Lemma up_to_date_by_title_and_body (p q : product) :
  title q = title p -> body_html q = body_html p -> up_to_date q = up_to_date p.
Proof.
intros Ht Hb. unfold up_to_date.
rewrite (next_key_by_title p q Ht). unfold cur_key. rewrite Hb. reflexivity.
Qed.

Lemma allZero_unpriced (p : product) :
  allZero p
  = forallb zero_and_managed (or_empty (option_map (map unpriced) (variants p))).
Proof.
unfold allZero. destruct (variants p) as [vs|]; [|reflexivity].
cbn [option_map or_empty]. induction vs as [|v vs IH]; [reflexivity|].
cbn [map forallb]. rewrite IH. reflexivity.
Qed.

Lemma must_hide_by_stock_and_status (p q : product) :
  option_map (map unpriced) (variants q) = option_map (map unpriced) (variants p) ->
  status q = status p ->
  must_hide q = must_hide p.
Proof.
intros Hv Hs. unfold must_hide. rewrite !allZero_unpriced, Hv, Hs. reflexivity.
Qed.

(** What a run does to the catalog never changes what the other two
    operations would do with it, whatever the store answered and however
    far the run got: after a description run every product has the
    variants it had and is to be hidden exactly if it was before; after a
    hide run every product has the variants it had and passes the
    description test exactly if it did before; after a reprice run both
    verdicts are as before. *)
Theorem runs_do_not_interfere
  (cap : nat) (faults : list event -> request -> option fault)
  (op : operation) (fuel : nat) (w : world) :
  match op with
  | DescribeAll _ =>
      map must_hide (catalog (fst (run cap faults op fuel w))) = map must_hide (catalog w)
      /\ map variants (catalog (fst (run cap faults op fuel w))) = map variants (catalog w)
  | HideOutOfStock =>
      map up_to_date (catalog (fst (run cap faults op fuel w))) = map up_to_date (catalog w)
      /\ map variants (catalog (fst (run cap faults op fuel w))) = map variants (catalog w)
  | Reprice _ =>
      map up_to_date (catalog (fst (run cap faults op fuel w))) = map up_to_date (catalog w)
      /\ map must_hide (catalog (fst (run cap faults op fuel w))) = map must_hide (catalog w)
  end.
Proof.
assert (Hkept : Forall2 (kept op) (catalog w) (catalog (fst (run cap faults op fuel w)))).
{ destruct (run_accounted cap faults op fuel w) as (evs & _ & Hok & Hcat & _).
  rewrite Hcat. apply replay_kept. exact Hok. }
destruct op as [apply| |percent]; split;
  refine (Forall2_map_eq _ _ _ _ _ Hkept);
  intros p q (Hid & Ht & Hvd & Hrest).
- destruct Hrest as [Hv Hs]. apply must_hide_by_stock_and_status; [rewrite Hv|]; auto.
- destruct Hrest as [Hv Hs]. exact Hv.
- destruct Hrest as (Hb & Hv & Hs). apply up_to_date_by_title_and_body; auto.
- destruct Hrest as (Hb & Hv & Hs). exact Hv.
- destruct Hrest as (Hb & Hs & Hv). apply up_to_date_by_title_and_body; auto.
- destruct Hrest as (Hb & Hs & Hv). apply must_hide_by_stock_and_status; auto.
Qed.

(** ** A reprice run on a well-behaved store *)

Lemma world_eta (w : world) :
  {| catalog := catalog w; events := events w |} = w.
Proof. destruct w; reflexivity. Qed.

Lemma price_writes_cons (factor : number) (v : variant) (vs : list variant) :
  price_writes factor (v :: vs)
  = match new_price factor v with
    | Some pr => [PutVariant (v_id v) pr]
    | None => []
    end ++ price_writes factor vs.
Proof. reflexivity. Qed.

(** The variant loop of one product, when every call goes through. *)
Lemma variant_loop (cap : nat) (factor : number) (vs : list variant) :
  forall (c : nat) (w : world),
    for_of vs (reprice_variant_body cap no_faults factor) c w
    = ({| catalog := fold_left (fun cat r => store r cat) (price_writes factor vs) (catalog w);
          events := events w ++ map written (price_writes factor vs) |},
       Done (c + List.length (price_writes factor vs))%nat).
Proof.
induction vs as [|v vs IH]; intros c w.
- cbn. rewrite app_nil_r, Nat.add_0_r, world_eta. reflexivity.
- cbn [for_of]. unfold bind. rewrite price_writes_cons.
  unfold reprice_variant_body at 1. unfold new_price.
  destruct (negb (isFinite (parseFloat (price v)))).
  + unfold ret. rewrite IH. reflexivity.
  + destruct (negb (eqb (toFixed2 (mul (parseFloat (price v)) factor)) (price v))).
    * unfold bind, shopify, no_faults, ret. rewrite IH.
      cbn [catalog events app fold_left map List.length serve].
      rewrite <- app_assoc. f_equal. f_equal. lia.
    * unfold ret. rewrite IH. reflexivity.
Qed.

Lemma reprice_variant_other (i : Z) (pr : ustring) (vs : list variant) :
  ~ In i (map v_id vs) -> map (reprice_variant i pr) vs = vs.
Proof.
intros H. apply map_unchanged. apply Forall_forall. intros v Hv.
unfold reprice_variant. destruct (Z.eqb_spec (v_id v) i) as [E|E]; [|reflexivity].
exfalso. apply H. rewrite <- E. apply in_map. exact Hv.
Qed.

Lemma set_variants_same (q : product) : set_variants (variants q) q = q.
Proof. destruct q; reflexivity. Qed.

Lemma touch_other (i : Z) (pr : ustring) (q : product) :
  ~ In i (map v_id (or_empty (variants q))) -> touch (PutVariant i pr) q = q.
Proof.
intros H. cbn [touch]. destruct (variants q) as [vs|] eqn:E; cbn [option_map].
- cbn [or_empty] in H. rewrite (reprice_variant_other i pr vs H), <- E.
  apply set_variants_same.
- rewrite <- E. apply set_variants_same.
Qed.

Lemma in_variant_ids (i : Z) (cat : list product) :
  In i (variant_ids cat)
  <-> exists q, In q cat /\ In i (map v_id (or_empty (variants q))).
Proof. unfold variant_ids. apply in_flat_map. Qed.

Lemma touch_others (i : Z) (pr : ustring) (cat : list product) :
  ~ In i (variant_ids cat) -> map (touch (PutVariant i pr)) cat = cat.
Proof.
intros H. apply map_unchanged. apply Forall_forall. intros q Hq.
apply touch_other. intros Hi. apply H. apply in_variant_ids. exists q. auto.
Qed.

Lemma store_is_touch (r : request) (cat : list product) :
  store r cat = map (touch r) cat.
Proof. destruct r; cbn [store touch]; [symmetry; apply map_id | reflexivity | reflexivity]. Qed.

(** Writes addressed to variants of [q] alone change [q] alone. *)
Lemma store_fold_local (rs : list request) :
  forall (pre rest : list product) (q : product),
    Forall (fun r => exists i pr, r = PutVariant i pr
                     /\ ~ In i (variant_ids pre) /\ ~ In i (variant_ids rest)) rs ->
    fold_left (fun cat r => store r cat) rs (pre ++ q :: rest)
    = pre ++ fold_left (fun q r => touch r q) rs q :: rest.
Proof.
induction rs as [|r rs IH]; intros pre rest q H; [reflexivity|].
inversion H as [|r' rs' (i & pr & -> & Hpre & Hrest) Hrs]; subst.
cbn [fold_left]. rewrite store_is_touch, map_app. cbn [map].
rewrite (touch_others i pr pre Hpre), (touch_others i pr rest Hrest).
apply IH. exact Hrs.
Qed.

Lemma touch_fold_variants (rs : list request) :
  forall (vs : list variant) (p : product),
    Forall (fun r => exists i pr, r = PutVariant i pr) rs ->
    fold_left (fun q r => touch r q) rs (set_variants (Some vs) p)
    = set_variants (Some (fold_left (fun l r => touch_variants r l) rs vs)) p.
Proof.
induction rs as [|r rs IH]; intros vs p H; [reflexivity|].
inversion H as [|r' rs' (i & pr & ->) Hrs]; subst.
cbn [fold_left touch touch_variants]. 
change (set_variants (option_map (map (reprice_variant i pr))
                        (variants (set_variants (Some vs) p)))
          (set_variants (Some vs) p))
  with (set_variants (Some (map (reprice_variant i pr) vs)) p).
apply IH. exact Hrs.
Qed.

Lemma new_price_keeps_id (factor : number) (v : variant) :
  v_id (repriced factor v) = v_id v.
Proof. unfold repriced. destruct (new_price factor v); reflexivity. Qed.

(** With distinct identifiers, the writes of the loop change each
    variant to its new price and nothing else. *)
Lemma touch_variants_fold (factor : number) (todo : list variant) :
  forall d : list variant,
    NoDup (map v_id todo) ->
    (forall v, In v todo -> ~ In (v_id v) (map v_id d)) ->
    fold_left (fun l r => touch_variants r l) (price_writes factor todo) (d ++ todo)
    = d ++ map (repriced factor) todo.
Proof.
induction todo as [|v todo IH]; intros d Hnd Hd; [reflexivity|].
inversion Hnd as [|x l Hv Htodo]; subst.
assert (Hstep : forall v', v_id v' = v_id v ->
          fold_left (fun l r => touch_variants r l) (price_writes factor todo)
            (d ++ v' :: todo)
          = d ++ v' :: map (repriced factor) todo).
{ intros v' Hv'.
  change (d ++ v' :: todo) with (d ++ [v'] ++ todo). rewrite app_assoc.
  rewrite (IH (d ++ [v']) Htodo).
  - rewrite <- app_assoc. reflexivity.
  - intros x Hx. rewrite map_app, in_app_iff. cbn [map In]. rewrite Hv'.
    intros [H|[H|[]]].
    + apply (Hd x); [right; exact Hx | exact H].
    + apply Hv. rewrite H. apply in_map. exact Hx. }
rewrite price_writes_cons. cbn [map]. unfold repriced at 1.
destruct (new_price factor v) as [pr|].
- cbn [app fold_left touch_variants]. rewrite map_app. cbn [map].
  rewrite (reprice_variant_other (v_id v) pr d) by (apply Hd; left; reflexivity).
  rewrite (reprice_variant_other (v_id v) pr todo) by exact Hv.
  unfold reprice_variant at 1. rewrite Z.eqb_refl.
  apply Hstep. reflexivity.
- cbn [app]. apply Hstep. reflexivity.
Qed.

Lemma variant_ids_app (a b : list product) :
  variant_ids (a ++ b) = variant_ids a ++ variant_ids b.
Proof. apply flat_map_app. Qed.

Lemma price_writes_target (factor : number) (vs : list variant) :
  Forall (fun r => exists i pr, r = PutVariant i pr /\ In i (map v_id vs))
    (price_writes factor vs).
Proof.
induction vs as [|v vs IH]; [constructor|].
rewrite price_writes_cons. apply Forall_app. split.
- destruct (new_price factor v) as [pr|]; constructor; [|constructor].
  exists (v_id v), pr. split; [reflexivity | left; reflexivity].
- eapply Forall_impl; [|exact IH]. cbn beta.
  intros r (i & pr & E & Hi). exists i, pr. split; [exact E | right; exact Hi].
Qed.

Lemma NoDup_app_disjoint {A : Type} (a b : list A) :
  NoDup (a ++ b) -> forall x, In x a -> ~ In x b.
Proof.
induction a as [|y a IH]; intros H x Hx Hb; [contradiction|].
inversion H as [|z l Hy Hab]; subst. destruct Hx as [->|Hx].
- apply Hy. apply in_or_app. right. exact Hb.
- exact (IH Hab x Hx Hb).
Qed.

(** The writes of the variant loop for [p] leave the catalog with [p]
    repriced in place. *)
Lemma reprice_in_place (factor : number) (pre rest : list product) (p : product) :
  NoDup (variant_ids (pre ++ p :: rest)) ->
  fold_left (fun cat r => store r cat) (product_price_writes factor p) (pre ++ p :: rest)
  = pre ++ reprice_product factor p :: rest.
Proof.
intros Hnd. unfold product_price_writes, reprice_product.
destruct (variants p) as [vs|] eqn:Evs; [|reflexivity].
cbn [or_empty].
change (pre ++ p :: rest) with (pre ++ [p] ++ rest) in Hnd.
rewrite !variant_ids_app in Hnd.
assert (Hp : variant_ids [p] = map v_id vs).
{ unfold variant_ids. cbn [flat_map]. rewrite Evs, app_nil_r. reflexivity. }
rewrite Hp in Hnd.
pose proof (NoDup_app_remove_l _ _ Hnd) as Hnd2.
pose proof (NoDup_app_remove_r _ _ Hnd2) as Hvs.
rewrite store_fold_local.
- f_equal. f_equal.
  rewrite <- (set_variants_same p) at 1. rewrite Evs.
  rewrite touch_fold_variants.
  + f_equal. f_equal. apply (touch_variants_fold factor vs [] Hvs).
    intros v _ [].
  + eapply Forall_impl; [|apply price_writes_target].
    cbn beta. intros r (i & pr & E & _). exists i, pr. exact E.
- eapply Forall_impl; [|apply price_writes_target].
  cbn beta. intros r (i & pr & E & Hi). exists i, pr. split; [exact E|]. split.
  + intros Hin. apply (NoDup_app_disjoint _ _ Hnd i Hin).
    apply in_or_app. left. exact Hi.
  + intros Hin. exact (NoDup_app_disjoint _ _ Hnd2 i Hi Hin).
Qed.

Section Sweep.

Variable cap : nat.
Variable V : Type.
Variables (limit : nat) (fields : option ustring) (cursor : V -> Z).
Variable body : product -> V -> task V.
Variable step : product -> V -> V.
Variable after : product -> product.
Variable calls : product -> list request.
Variable good : list product -> Prop.

(** On a catalog that is [good], the body enters the product, issues
    the writes [calls p], which leave [after p] in its place, and moves the
    cursor to the product. *)
Hypothesis body_spec : forall p st w pre rest,
  catalog w = pre ++ p :: rest ->
  good (pre ++ p :: rest) ->
  body p st w
  = ({| catalog := pre ++ after p :: rest;
        events := events w ++ entered_events calls p |},
     Done (step p st)).
Hypothesis good_after : forall pre p rest,
  good (pre ++ p :: rest) -> good (pre ++ after p :: rest).
Hypothesis after_id : forall p, p_id (after p) = p_id p.
Hypothesis cursor_step : forall p st, cursor (step p st) = p_id p.
Hypothesis calls_write : forall p, Forall (fun r => is_write r = true) (calls p).

Let P : nat := Nat.min limit cap.
Let steps (ps : list product) (st : V) : V := fold_left (fun s p => step p s) ps st.
Let turn : V -> task (flow V) := paged cap no_faults limit fields cursor body.

Lemma writes_written (rs : list request) :
  Forall (fun r => is_write r = true) rs -> writes (map written rs) = rs.
Proof.
induction 1 as [|r rs Hr _ IH]; [reflexivity|].
cbn [map]. change (written r :: map written rs) with ([written r] ++ map written rs).
rewrite writes_app, IH. unfold writes, written. cbn [flat_map]. rewrite Hr. reflexivity.
Qed.

Lemma quiet_written (rs : list request) :
  Forall (fun r => is_write r = true) rs ->
  visits (map written rs) = []
  /\ page_requests (map written rs) = []
  /\ pages_served (map written rs) = [].
Proof.
induction 1 as [|r rs Hr _ (IH1 & IH2 & IH3)]; [auto|].
cbn [map]. change (written r :: map written rs) with ([written r] ++ map written rs).
rewrite visits_app, page_requests_app, pages_served_app, IH1, IH2, IH3.
unfold visits, page_requests, pages_served, written. cbn [flat_map]. rewrite Hr.
destruct r; [discriminate | auto | auto].
Qed.

Lemma visits_entered (ps : list product) :
  visits (flat_map (entered_events calls) ps) = map p_id ps.
Proof.
induction ps as [|p ps IH]; [reflexivity|].
cbn [flat_map map]. rewrite visits_app, IH. unfold entered_events.
change (Visited (p_id p) :: map written (calls p))
  with ([Visited (p_id p)] ++ map written (calls p)).
rewrite visits_app, (proj1 (quiet_written _ (calls_write p))). reflexivity.
Qed.

Lemma writes_entered (ps : list product) :
  writes (flat_map (entered_events calls) ps) = flat_map calls ps.
Proof.
induction ps as [|p ps IH]; [reflexivity|].
cbn [flat_map]. rewrite writes_app, IH. unfold entered_events.
change (Visited (p_id p) :: map written (calls p))
  with ([Visited (p_id p)] ++ map written (calls p)).
rewrite writes_app, (writes_written _ (calls_write p)). reflexivity.
Qed.

Lemma page_requests_entered (ps : list product) :
  page_requests (flat_map (entered_events calls) ps) = [].
Proof.
induction ps as [|p ps IH]; [reflexivity|].
cbn [flat_map]. rewrite page_requests_app, IH. unfold entered_events.
change (Visited (p_id p) :: map written (calls p))
  with ([Visited (p_id p)] ++ map written (calls p)).
rewrite page_requests_app, (proj1 (proj2 (quiet_written _ (calls_write p)))). reflexivity.
Qed.

Lemma pages_served_entered (ps : list product) :
  pages_served (flat_map (entered_events calls) ps) = [].
Proof.
induction ps as [|p ps IH]; [reflexivity|].
cbn [flat_map]. rewrite pages_served_app, IH. unfold entered_events.
change (Visited (p_id p) :: map written (calls p))
  with ([Visited (p_id p)] ++ map written (calls p)).
rewrite pages_served_app, (proj2 (proj2 (quiet_written _ (calls_write p)))). reflexivity.
Qed.

Lemma sweep_page (pg : list product) :
  forall (pre rest : list product) (st : V) (w : world),
    catalog w = pre ++ pg ++ rest ->
    good (catalog w) ->
    Forall (fun q => p_id q <= cursor st) pre ->
    ascending_from (cursor st) (pg ++ rest) ->
    exists w',
      for_of pg body st w = (w', Done (steps pg st))
      /\ catalog w' = (pre ++ map after pg) ++ rest
      /\ good (catalog w')
      /\ events w' = events w ++ flat_map (entered_events calls) pg
      /\ Forall (fun q => p_id q <= cursor (steps pg st)) (pre ++ map after pg)
      /\ ascending_from (cursor (steps pg st)) rest.
Proof.
induction pg as [|p pg IH]; intros pre rest st w Hcat Hgood Hpre Hasc.
- exists w. cbn [app map flat_map for_of] in *. rewrite !app_nil_r.
  repeat split; auto.
- cbn [app] in Hcat, Hasc. destruct Hasc as [Hc Hasc].
  set (w1 := {| catalog := pre ++ after p :: pg ++ rest;
                events := events w ++ entered_events calls p |}).
  assert (Hbody : body p st w = (w1, Done (step p st))).
  { apply body_spec; [exact Hcat | rewrite <- Hcat; exact Hgood]. }
  assert (Hcat1 : catalog w1 = (pre ++ [after p]) ++ pg ++ rest).
  { unfold w1. cbn [catalog]. rewrite <- app_assoc. reflexivity. }
  assert (Hgood1 : good (catalog w1)).
  { unfold w1. cbn [catalog]. apply good_after. rewrite <- Hcat. exact Hgood. }
  assert (Hpre1 : Forall (fun q => p_id q <= cursor (step p st)) (pre ++ [after p])).
  { rewrite cursor_step. apply Forall_app. split.
    - eapply Forall_impl; [|exact Hpre]. cbn beta. intros q Hq. lia.
    - constructor; [|constructor]. rewrite after_id. lia. }
  assert (Hasc1 : ascending_from (cursor (step p st)) (pg ++ rest)).
  { rewrite cursor_step. exact Hasc. }
  destruct (IH _ _ _ _ Hcat1 Hgood1 Hpre1 Hasc1) as (w' & Hrun & Hc' & Hg' & He' & Hp' & Ha').
  exists w'. split.
  { cbn [for_of]. unfold bind. rewrite Hbody, Hrun. reflexivity. }
  split.
  { rewrite Hc'. cbn [map]. rewrite <- !app_assoc. reflexivity. }
  split; [exact Hg'|].
  split.
  { rewrite He'. unfold w1. cbn [events flat_map]. rewrite <- app_assoc. reflexivity. }
  split.
  { cbn [map].
    change (pre ++ after p :: map after pg) with (pre ++ [after p] ++ map after pg).
    rewrite app_assoc. exact Hp'. }
  exact Ha'.
Qed.

Lemma sweep_all (fuel : nat) :
  forall (pre rest : list product) (st : V) (w : world),
    (0 < P)%nat ->
    catalog w = pre ++ rest ->
    good (catalog w) ->
    Forall (fun q => p_id q <= cursor st) pre ->
    ascending_from (cursor st) rest ->
    (pages_for (List.length rest) P < fuel)%nat ->
    exists w' evs pgs,
      while_true fuel turn st w = (w', Done (steps rest st))
      /\ catalog w' = pre ++ map after rest
      /\ events w' = events w ++ evs
      /\ visits evs = map p_id rest
      /\ writes evs = flat_map calls rest
      /\ List.length (page_requests evs) = S (pages_for (List.length rest) P)
      /\ pages_served evs = pgs ++ [[]]
      /\ Forall (fun pg => pg <> []) pgs
      /\ map p_id (List.concat pgs) = map p_id rest.
Proof.
induction fuel as [|fuel IH]; intros pre rest st w HP Hcat Hgood Hpre Hasc Hfuel; [lia|].
pose proof (page_above_cursor cap limit (cursor st) pre rest Hpre Hasc) as Hpg.
rewrite <- Hcat in Hpg. fold P in Hpg.
destruct rest as [|r0 rest0] eqn:Hrest.
- rewrite app_nil_r in Hcat.
  eexists _, [_], []. cbn [while_true]. unfold bind, turn, paged, bind, shopify, no_faults.
  cbn [serve products or_empty store catalog events fst snd].
  rewrite Hpg, firstn_nil. cbn [ret map app List.concat].
  rewrite Hcat, app_nil_r, pages_for_nil by exact HP.
  repeat split; auto.
- rewrite <- Hrest in *.
  assert (Hlen : (0 < List.length rest)%nat) by (rewrite Hrest; cbn; lia).
  set (w1 := {| catalog := catalog w;
                events := events w ++ [Called (GetProducts limit (cursor st) fields)
                                              (inr {| products := Some (firstn P rest) |})] |}).
  assert (Hcat1 : catalog w1 = pre ++ firstn P rest ++ skipn P rest).
  { unfold w1. cbn [catalog]. rewrite firstn_skipn. exact Hcat. }
  assert (Hasc1 : ascending_from (cursor st) (firstn P rest ++ skipn P rest)).
  { rewrite firstn_skipn. exact Hasc. }
  destruct (sweep_page (firstn P rest) pre (skipn P rest) st w1 Hcat1 Hgood Hpre Hasc1)
    as (w2 & Hrun2 & Hc2 & Hg2 & He2 & Hp2 & Ha2).
  assert (Hfuel1 : (pages_for (List.length (skipn P rest)) P < fuel)%nat).
  { rewrite length_skipn. rewrite (pages_for_skip (List.length rest) P HP Hlen) in Hfuel. lia. }
  destruct (IH _ _ _ _ HP Hc2 Hg2 Hp2 Ha2 Hfuel1)
    as (w' & evs & pgs & Hrun & Hc' & He' & Hv & Hw & Hg & Hs & Hn & Hcc).
  assert (Hne : firstn P rest <> []).
  { rewrite Hrest. destruct P; [lia | discriminate]. }
  assert (Hturn : turn st w = (w2, Done (Next (steps (firstn P rest) st)))).
  { unfold turn, paged, bind, shopify, no_faults.
    cbn [serve products or_empty store catalog events fst snd].
    rewrite Hpg. fold w1.
    destruct (firstn P rest) as [|p0 pg0] eqn:Hfirst; [congruence|].
    rewrite Hrun2. reflexivity. }
  exists w',
    (Called (GetProducts limit (cursor st) fields)
            (inr {| products := Some (firstn P rest) |})
     :: flat_map (entered_events calls) (firstn P rest) ++ evs),
    (firstn P rest :: pgs).
  split.
  { cbn [while_true]. unfold bind at 1. rewrite Hturn, Hrun.
    unfold steps. rewrite <- fold_left_app, firstn_skipn. reflexivity. }
  split.
  { rewrite Hc', <- app_assoc, <- map_app, firstn_skipn. reflexivity. }
  split.
  { rewrite He', He2. unfold w1. cbn [events]. rewrite <- !app_assoc. reflexivity. }
  split.
  { change (visits (Called ?r ?x :: ?l)) with (visits l).
    rewrite visits_app, visits_entered, Hv, <- map_app, firstn_skipn. reflexivity. }
  split.
  { change (writes (Called (GetProducts ?a ?b ?c) ?x :: ?l)) with (writes l).
    rewrite writes_app, writes_entered, Hw, <- flat_map_app, firstn_skipn. reflexivity. }
  split.
  { change (page_requests (Called (GetProducts ?a ?b ?c) ?x :: ?l))
      with (GetProducts a b c :: page_requests l).
    rewrite page_requests_app, page_requests_entered. cbn [app List.length].
    rewrite Hg, length_skipn, (pages_for_skip (List.length rest) P HP Hlen).
    reflexivity. }
  split.
  { change (pages_served (Called (GetProducts ?a ?b ?c) (inr ?x) :: ?l))
      with (or_empty (products x) :: pages_served l).
    rewrite pages_served_app, pages_served_entered, Hs. reflexivity. }
  split; [constructor; [exact Hne | exact Hn]|].
  cbn [List.concat]. rewrite map_app, Hcc, <- map_app, firstn_skipn. reflexivity.
Qed.

End Sweep.

Lemma reprice_body_spec (cap : nat) (factor : number)
  (p : product) (st : reprice_vars) (w : world) (pre rest : list product) :
  catalog w = pre ++ p :: rest ->
  NoDup (variant_ids (pre ++ p :: rest)) ->
  reprice_body cap no_faults factor p st w
  = ({| catalog := pre ++ reprice_product factor p :: rest;
        events := events w ++ entered_events (product_price_writes factor) p |},
     Done (reprice_step factor p st)).
Proof.
intros Hcat Hnd. unfold reprice_body, bind, visit, emit.
rewrite variant_loop. cbn [catalog events]. unfold ret.
fold (product_price_writes factor p).
rewrite Hcat, (reprice_in_place factor pre rest p Hnd), <- app_assoc.
reflexivity.
Qed.

Lemma variant_ids_repriced (factor : number) (pre rest : list product) (p : product) :
  variant_ids (pre ++ reprice_product factor p :: rest)
  = variant_ids (pre ++ p :: rest).
Proof.
rewrite !variant_ids_app. f_equal. unfold variant_ids. cbn [flat_map]. f_equal.
unfold reprice_product. destruct (variants p) as [vs|] eqn:E; [|rewrite E; reflexivity].
cbn [variants set_variants or_empty]. rewrite map_map. apply map_ext.
intros v. apply new_price_keeps_id.
Qed.

Lemma product_price_writes_write (factor : number) (p : product) :
  Forall (fun r => is_write r = true) (product_price_writes factor p).
Proof.
eapply Forall_impl; [|apply price_writes_target].
cbn beta. intros r (i & pr & -> & _). reflexivity.
Qed.

Lemma reprice_steps_count (factor : number) (cat : list product) (st : reprice_vars) :
  changed (fold_left (fun s p => reprice_step factor p s) cat st)
  = (changed st + List.length (flat_map (product_price_writes factor) cat))%nat.
Proof.
revert st. induction cat as [|p cat IH]; intros st; cbn [fold_left flat_map].
- cbn. lia.
- rewrite IH, length_app. cbn [reprice_step changed]. lia.
Qed.



(** ** What a run owes to the pages it is served, on any store *)

Lemma flat_map_flat_map {A B C : Type} (f : A -> list B) (h : B -> list C) (l : list A) :
  flat_map h (flat_map f l) = flat_map (fun x => flat_map h (f x)) l.
Proof.
induction l as [|x l IH]; [reflexivity|].
cbn [flat_map]. rewrite flat_map_app, IH. reflexivity.
Qed.

Lemma flat_map_single {A B : Type} (f : A -> B) (l : list A) :
  flat_map (fun x => [f x]) l = map f l.
Proof. induction l as [|x l IH]; [reflexivity|]. cbn. rewrite IH. reflexivity. Qed.

Lemma flat_map_none {A B : Type} (l : list A) :
  flat_map (fun _ : A => @nil B) l = [].
Proof. induction l as [|x l IH]; [reflexivity | exact IH]. Qed.

Section Served.

Context {X : Type}.
Variable g : event -> list X.
Variable vis : Z -> list X.
Variable wr : request -> list X.

(** What [g] retains: [vis i] of an entry, [wr r] of a write whatever
    came back, nothing of a page read. *)
Hypothesis g_visit : forall i, g (Visited i) = vis i.
Hypothesis g_write : forall r res, is_write r = true -> g (Called r res) = wr r.
Hypothesis g_read : forall r res, is_write r = false -> g (Called r res) = [].

Lemma yields_ret {A : Type} (a : A) : yields g [] (ret a).
Proof.
intros w. split; [discriminate|]. exists [], []. cbn. rewrite app_nil_r. auto.
Qed.

Lemma yields_visit (i : Z) : yields g (vis i) (visit i).
Proof.
intros w. split; [discriminate|]. exists [Visited i], [].
cbn [visit emit fst snd events flat_map]. rewrite g_visit, !app_nil_r. auto.
Qed.

Lemma yields_put cap faults (r : request) :
  is_write r = true -> yields g (wr r) (shopify cap faults r).
Proof.
intros Hr w. unfold shopify.
assert (Hp : forall res, pages_served [Called r res] = []).
{ intros res. destruct r; [discriminate | reflexivity | reflexivity]. }
destruct (faults (events w) r) as [f|]; cbn [fst snd events].
- split; [discriminate|]. exists [Called r (inl f)], [].
  cbn [flat_map]. rewrite (g_write r (inl f) Hr), !app_nil_r. auto.
- split; [discriminate|]. exists [Called r (inr (serve cap r (catalog w)))], [].
  cbn [flat_map]. rewrite (g_write r _ Hr), !app_nil_r. auto.
Qed.

Lemma yields_bind {A B : Type} (xs ys : list X) (m : task A) (k : A -> task B) :
  yields g xs m -> (forall a, yields g ys (k a)) -> yields g (xs ++ ys) (bind m k).
Proof.
intros Hm Hk w. destruct (Hm w) as (N1 & evs1 & rest1 & E1 & H1 & P1 & R1).
unfold bind. destruct (m w) as [w1 [a| e |]]; cbn [fst snd] in *.
- rewrite R1 in H1 by discriminate. rewrite app_nil_r in H1.
  destruct (Hk a w1) as (N2 & evs2 & rest2 & E2 & H2 & P2 & R2).
  split; [exact N2|]. exists (evs1 ++ evs2), rest2.
  rewrite E2, E1, app_assoc, flat_map_app, pages_served_app, P1, P2, H1, H2, app_assoc.
  auto.
- split; [discriminate|]. exists evs1, (rest1 ++ ys).
  rewrite H1, <- app_assoc. repeat split; auto.
  intros H. exfalso. apply (H e). reflexivity.
- contradiction.
Qed.

Lemma yields_as {A : Type} (xs ys : list X) (m : task A) :
  xs = ys -> yields g xs m -> yields g ys m.
Proof. intros <-. exact (fun H => H). Qed.

Lemma yields_for_of {A V : Type} (f : A -> list X) (items : list A)
  (body : A -> V -> task V) :
  (forall x st, yields g (f x) (body x st)) ->
  forall st, yields g (flat_map f items) (for_of items body st).
Proof.
intros Hb. induction items as [|x items IH]; intros st; cbn [for_of flat_map].
- apply yields_ret.
- apply yields_bind; [apply Hb | exact IH].
Qed.

Lemma keeps_ret {A : Type} (f : product -> list X) (a : A) :
  keeps_to_pages g f (ret a).
Proof. intros w. exists [], []. cbn. rewrite app_nil_r. auto. Qed.

Lemma keeps_bind {A B : Type} (f : product -> list X) (m : task A) (k : A -> task B) :
  keeps_to_pages g f m -> (forall a, keeps_to_pages g f (k a)) ->
  keeps_to_pages g f (bind m k).
Proof.
intros Hm Hk w. destruct (Hm w) as (evs1 & rest1 & E1 & H1 & N1).
unfold bind. destruct (m w) as [w1 [a| e |]]; cbn [fst snd] in *.
- rewrite N1 in H1 by discriminate. rewrite app_nil_r in H1.
  destruct (Hk a w1) as (evs2 & rest2 & E2 & H2 & N2).
  exists (evs1 ++ evs2), rest2.
  rewrite E2, E1, app_assoc, pages_served_app, concat_app, !flat_map_app, H1, H2.
  split; [reflexivity|]. split; [apply app_assoc | exact N2].
- exists evs1, rest1. repeat split; auto.
  intros H. exfalso. apply (H e). reflexivity.
- exists evs1, rest1. split; [exact E1|]. split; [exact H1|].
  intros _. apply N1. discriminate.
Qed.

Lemma keeps_paged {V : Type} cap faults (limit : nat) (fields : option ustring)
  (cursor : V -> Z) (f : product -> list X) (body : product -> V -> task V) :
  (forall p st, yields g (f p) (body p st)) ->
  forall st, keeps_to_pages g f (paged cap faults limit fields cursor body st).
Proof.
intros Hb st w. unfold paged, bind, shopify.
set (rq := GetProducts limit (cursor st) fields).
assert (Hg : forall res, g (Called rq res) = []).
{ intros res. apply g_read. reflexivity. }
destruct (faults (events w) rq) as [fl|]; cbn [fst snd events].
- exists [Called rq (inl fl)], []. cbn [flat_map pages_served List.concat app].
  rewrite Hg. repeat split; auto.
- change (serve cap rq (catalog w))
    with {| products := Some (page cap limit (cursor st) (catalog w)) |}.
  change (store rq (catalog w)) with (catalog w).
  cbn [products or_empty].
  destruct (page cap limit (cursor st) (catalog w)) as [|p0 pg] eqn:Hpage.
  + exists [Called rq (inr {| products := Some [] |})], [].
    cbn [ret fst snd events flat_map pages_served List.concat app or_empty products].
    rewrite Hg. repeat split; auto.
  + set (rd := Called rq (inr {| products := Some (p0 :: pg) |})).
    set (w1 := {| catalog := catalog w; events := events w ++ [rd] |}).
    destruct (yields_for_of f (p0 :: pg) body Hb st w1)
      as (N & evs & rest & E & Hv & Hp & R).
    exists (rd :: evs), rest.
    assert (Hshape : flat_map f (List.concat (pages_served (rd :: evs)))
                     = flat_map g (rd :: evs) ++ rest).
    { change (rd :: evs) with ([rd] ++ evs).
      rewrite pages_served_app, flat_map_app, Hp.
      unfold rd. cbn [flat_map]. rewrite Hg.
      unfold rq. cbn [pages_served flat_map or_empty products app List.concat].
      rewrite !app_nil_r. exact Hv. }
    destruct (for_of (p0 :: pg) body st w1) as [w2 [st2| e |]]; cbn [fst snd ret] in *.
    * rewrite E. unfold w1. cbn [events]. rewrite <- app_assoc.
      split; [reflexivity|]. split; [exact Hshape|].
      intros _. apply R. discriminate.
    * rewrite E. unfold w1. cbn [events]. rewrite <- app_assoc.
      split; [reflexivity|]. split; [exact Hshape|].
      intros H. exfalso. apply (H e). reflexivity.
    * contradiction.
Qed.

Lemma keeps_while_true {V : Type} (f : product -> list X)
  (fuel : nat) (body : V -> task (flow V)) :
  (forall st, keeps_to_pages g f (body st)) ->
  forall st, keeps_to_pages g f (while_true fuel body st).
Proof.
intros Hb. induction fuel as [|fuel IH]; intros st; cbn [while_true].
- intros w. exists [], []. cbn. rewrite app_nil_r. auto.
- apply keeps_bind; [apply Hb|].
  intros [st'|st']; [apply IH | apply keeps_ret].
Qed.

Lemma run_keeps_to_pages cap faults (op : operation) (fuel : nat) :
  keeps_to_pages g (fun p => vis (p_id p) ++ flat_map wr (decided op p))
    (run cap faults op fuel).
Proof.
destruct op as [apply| |percent]; cbn [run decided].
- unfold updateAllDescriptions.
  apply keeps_bind; [|intros; apply keeps_ret].
  apply keeps_while_true. intros st.
  apply (keeps_paged cap faults 250 None d_sinceId _ (description_body cap faults apply)).
  intros p s. unfold description_body, write_requests, description_write.
  apply yields_bind; [apply yields_visit|]. intros _.
  destruct (up_to_date p); [apply yields_ret|].
  destruct apply; [|apply yields_ret].
  cbn [flat_map].
  apply yields_bind; [apply yields_put; reflexivity | intros; apply yields_ret].
- unfold hideOutOfStock.
  apply keeps_bind; [|intros; apply keeps_ret].
  apply keeps_while_true. intros st.
  apply (keeps_paged cap faults 250 hide_fields h_sinceId _ (hide_body cap faults)).
  intros p s. unfold hide_body, write_requests, hide_write.
  apply yields_bind; [apply yields_visit|]. intros _.
  destruct (must_hide p); [|apply yields_ret].
  cbn [flat_map].
  apply yields_bind; [apply yields_put; reflexivity | intros; apply yields_ret].
- unfold simpleReprice.
  apply keeps_bind; [|intros; apply keeps_ret].
  apply keeps_while_true. intros st.
  apply (keeps_paged cap faults 100 reprice_fields r_sinceId _
           (reprice_body cap faults (factor_of percent))).
  intros p s. unfold reprice_body, product_price_writes, price_writes.
  apply yields_bind; [apply yields_visit|]. intros _.
  rewrite flat_map_flat_map.
  eapply yields_as; [apply app_nil_r|].
  apply yields_bind; [|intros; apply yields_ret].
  apply yields_for_of. intros v c. unfold reprice_variant_body, new_price.
  destruct (negb (isFinite _)); [apply yields_ret|].
  destruct (negb (eqb _ _)); [|apply yields_ret].
  cbn [flat_map].
  apply yields_bind; [apply yields_put; reflexivity | intros; apply yields_ret].
Qed.

End Served.

(** On any store, whatever its pages hold (products out of order,
    repeated or missing): the loop body of a run is entered for the
    products of the pages served, one entry per product served, in the
    order served, and for nothing else; only a failed call leaves products
    of the last page unentered. *)
Theorem served_products_are_entered_in_order
  (cap : nat) (faults : list event -> request -> option fault)
  (op : operation) (fuel : nat) (w : world) :
  exists rest,
    map p_id (List.concat (pages_served (issued w (fst (run cap faults op fuel w)))))
    = visits (issued w (fst (run cap faults op fuel w))) ++ rest
    /\ ((forall e, snd (run cap faults op fuel w) <> Raised e) -> rest = []).
Proof.
destruct (run_keeps_to_pages
            (fun e => match e with Visited i => [i] | Called _ _ => [] end)
            (fun i => [i]) (fun _ => [])
            (fun _ => eq_refl) (fun _ _ _ => eq_refl) (fun _ _ _ => eq_refl)
            cap faults op fuel w) as (evs & rest & E & H & N).
rewrite (issued_app _ _ _ E). exists rest. split; [|exact N].
rewrite <- flat_map_single. unfold visits. rewrite <- H.
apply flat_map_ext. intros p. rewrite flat_map_none. reflexivity.
Qed.

Lemma if_write_true (r : request) :
  is_write r = true -> (if is_write r then [r] else []) = [r].
Proof. intros ->. reflexivity. Qed.

Lemma if_write_false (r : request) :
  is_write r = false -> (if is_write r then [r] else @nil request) = [].
Proof. intros ->. reflexivity. Qed.

(** On any store, whatever its pages hold and whichever calls fail: the
    writes a run issues are the writes its rule decides on for the products
    it was served, as they were served, in that order: the built
    description for each product that fails the description test (none in a
    dry run), the status "draft" for each product the hide rule selects,
    the new price for each variant the price rule selects.  A run issues no
    other write; when a call fails, the writes decided on for what was
    served and not yet reached are the only ones missing. *)
Theorem writes_are_those_decided_for_the_products_served
  (cap : nat) (faults : list event -> request -> option fault)
  (op : operation) (fuel : nat) (w : world) :
  exists rest,
    flat_map (decided op)
      (List.concat (pages_served (issued w (fst (run cap faults op fuel w)))))
    = writes (issued w (fst (run cap faults op fuel w))) ++ rest
    /\ ((forall e, snd (run cap faults op fuel w) <> Raised e) -> rest = []).
Proof.
destruct (run_keeps_to_pages
            (fun e => match e with
                      | Called r _ => if is_write r then [r] else []
                      | Visited _ => []
                      end)
            (fun _ => []) (fun r => [r])
            (fun _ => eq_refl)
            (fun r _ => if_write_true r) (fun r _ => if_write_false r)
            cap faults op fuel w) as (evs & rest & E & H & N).
rewrite (issued_app _ _ _ E). exists rest. split; [|exact N].
unfold writes. rewrite <- H. apply flat_map_ext. intros p. cbn [app].
rewrite flat_map_single, map_id. reflexivity.
Qed.

(** ** A product without a description *)

(** A product whose description is absent, empty or nothing but white
    space never passes the description test, whatever its title and
    vendor: an applying run writes its description, a dry run lists it. *)
Theorem missing_description_is_stale (p : product) :
  trim (or_string (body_html p) []) = [] ->
  up_to_date p = false.
Proof.
intros H. unfold up_to_date, cur_key, next_key. rewrite H.
destruct buildDescription_shape as (mid & tail & _ & Hshape). rewrite (Hshape p).
set (text := title p ++ mid ++ or_string (vendor p) (u "FuzzleToys") ++ tail).
change (u "<p><strong>" ++ text) with (60%N :: u "p><strong>" ++ text).
reflexivity.
Qed.

Lemma missing_description_witness :
  up_to_date (sample_product 1 "Bowl" (Some (u "  ")) [] "active") = false.
Proof.
apply (missing_description_is_stale (sample_product 1 "Bowl" (Some (u "  ")) [] "active")).
reflexivity.
Defined.
